(** * Atlas layout and slot allocation of the engine

    A shallow embedding of [LightTextureAtlas] (scene/lighting/light-texture-atlas.js)
    and of [EnvLighting] (the environment-lighting atlas generator) with the
    [Array.prototype.fill] polyfill that shares its file, followed by the
    properties of the layout, of the slot allocation and of the polyfill.

    JavaScript numbers are embedded as exact rationals ([Q]): every quantity
    the two classes compute is a sum, product, quotient, floor or maximum of
    integers, so the embedding is the arithmetic the code denotes, without the
    rounding of binary floating point.  Array lengths, loop counters and
    indices are natural numbers.  Objects that the code mutates through
    references (lights) live in a store indexed by object identity. *)

From Stdlib Require Import ZArith QArith Qround Lia Lqa String.
From stdpp Require Import base option list gmap.

Open Scope Q_scope.

(** ** Numbers and loops *)

(** An array length or a loop counter used as a JavaScript number. *)
Definition num (n : nat) : Q := inject_Z (Z.of_nat n).

(** [Math.max(1, Math.floor(v * 0.5))]. *)
Definition halve (v : Q) : Q := inject_Z (Z.max 1 (Qfloor (v * (1 # 2)))).

(** [Math.ceil(Math.sqrt(n))] of an array length [n]: the least [g] with
    [n <= g * g]. *)
Definition ceil_sqrt (n : nat) : nat := Nat.sqrt_up n.

(** [v || d] on an optional number: [undefined] and [0] are falsy. *)
Definition num_or (v : option Q) (d : Q) : Q :=
  match v with
  | Some q => if Qeq_bool q 0 then d else q
  | None => d
  end.

(** [for (let i = start; i < start + count; i++) body], threading the
    variables the body assigns. *)
Fixpoint for_loop {St : Type} (count start : nat) (body : nat -> St -> St) (s : St) : St :=
  match count with
  | O => s
  | S count' => for_loop count' (S start) body (body start s)
  end.

(** ** Vec4 *)

(** Modelled from the spec: math/vec4.js is not among the sources.  A [Vec4]
    used as a rectangle holds (x, y, width, height) in its components
    (x, y, z, w); [copy] overwrites the four components, [add] adds
    component-wise. *)
Module Vec4.
Record t : Type := new { x : Q; y : Q; z : Q; w : Q }.

Definition copy (_this rhs : t) : t := rhs.

Definition add (this rhs : t) : t :=
  new (x this + x rhs) (y this + y rhs) (z this + z rhs) (w this + w rhs).

Definition set (_this : t) (x' y' z' w' : Q) : t := new x' y' z' w'.

(** Assignments to a single component. *)
Definition set_x (this : t) (v : Q) : t := new v (y this) (z this) (w this).
Definition set_y (this : t) (v : Q) : t := new (x this) v (z this) (w this).
Definition set_z (this : t) (v : Q) : t := new (x this) (y this) v (w this).
Definition set_w (this : t) (v : Q) : t := new (x this) (y this) (z this) v.

(** Component-wise numeric equality. *)
Definition eqv (a b : t) : Prop :=
  x a == x b /\ y a == y b /\ z a == z b /\ w a == w b.

Definition scale (c : Q) (a : t) : t := new (c * x a) (c * y a) (c * z a) (c * w a).
End Vec4.

(** ** Rectangles as point sets *)

Module Rect.
Definition width (r : Vec4.t) : Q := Vec4.z r.
Definition height (r : Vec4.t) : Q := Vec4.w r.

(** The pixels of a rectangle: the half-open box starting at its origin. *)
Definition covers (r : Vec4.t) (px py : Q) : Prop :=
  Vec4.x r <= px < Vec4.x r + Vec4.z r /\ Vec4.y r <= py < Vec4.y r + Vec4.w r.



Definition overlap (a b : Vec4.t) : Prop :=
  exists px py, covers a px py /\ covers b px py.

(** [r] lies in the square of the given side anchored at the origin. *)
Definition within (side : Q) (r : Vec4.t) : Prop :=
  0 <= Vec4.x r /\ 0 <= Vec4.y r /\ 0 < Vec4.z r /\ 0 < Vec4.w r /\
  Vec4.x r + Vec4.z r <= side /\ Vec4.y r + Vec4.w r <= side.

(** No two entries of the list, at different positions, share a pixel. *)
Definition pairwise_disjoint (rs : list Vec4.t) : Prop :=
  forall (a b : nat) (ra rb : Vec4.t),
    rs !! a = Some ra -> rs !! b = Some rb -> a <> b -> ~ overlap ra rb.




(** A separating edge between two rectangles. *)
Definition separated (a b : Vec4.t) : Prop :=
  Vec4.x a + Vec4.z a <= Vec4.x b \/ Vec4.x b + Vec4.z b <= Vec4.x a \/
  Vec4.y a + Vec4.w a <= Vec4.y b \/ Vec4.y b + Vec4.w b <= Vec4.y a.

(** Decision procedures for rectangles with explicit coordinates. *)
Definition separatedb (a b : Vec4.t) : bool :=
  Qle_bool (Vec4.x a + Vec4.z a) (Vec4.x b) || Qle_bool (Vec4.x b + Vec4.z b) (Vec4.x a) ||
  Qle_bool (Vec4.y a + Vec4.w a) (Vec4.y b) || Qle_bool (Vec4.y b + Vec4.w b) (Vec4.y a).

Fixpoint all_separatedb (rs : list Vec4.t) : bool :=
  match rs with
  | [] => true
  | r :: rs' => forallb (separatedb r) rs' && all_separatedb rs'
  end.

Definition withinb (side : Q) (r : Vec4.t) : bool :=
  Qle_bool 0 (Vec4.x r) && Qle_bool 0 (Vec4.y r) &&
  negb (Qle_bool (Vec4.z r) 0) && negb (Qle_bool (Vec4.w r) 0) &&
  Qle_bool (Vec4.x r + Vec4.z r) side && Qle_bool (Vec4.y r + Vec4.w r) side.
End Rect.

(** ** LightTextureAtlas *)

Module LightTextureAtlas.

(** Modelled from the spec: scene/constants.js is not among the sources; the
    spec names spot and omni (point) lights, the engine has directional
    lights as well. *)
Inductive LightType : Type := LIGHTTYPE_DIRECTIONAL | LIGHTTYPE_OMNI | LIGHTTYPE_SPOT.

Inductive ShadowType : Type := SHADOW_PCF3.

#[global] Instance LightType_eq_dec : EqDecision LightType.
Proof. solve_decision. Defined.

(** The buffers of the render target of a shadow map, named after the
    shadow map that owns them. *)
Inductive Buffer : Type := DepthBufferOf (map : nat) | ColorBufferOf (map : nat).

Record RenderTarget : Type := { depthBuffer : Buffer; colorBuffer : Buffer }.

Record ShadowMap : Type := {
  map_id : nat;            (* object identity *)
  texture_width : Q;       (* shadowMap.texture.width *)
  shadowType : ShadowType;
  cached : bool;
  renderTargets : list RenderTarget
}.

(** Modelled from the spec: renderer/shadow-map.js is not among the sources.
    [ShadowMap.createAtlas(device, resolution, shadowType)] returns a fresh
    shadow map whose texture has the requested resolution, with one render
    target carrying a colour and a depth buffer. *)
Definition createAtlas (fresh : nat) (resolution : Q) (st : ShadowType) : ShadowMap :=
  {| map_id := fresh; texture_width := resolution; shadowType := st; cached := true;
     renderTargets := [ {| depthBuffer := DepthBufferOf fresh;
                           colorBuffer := ColorBufferOf fresh |} ] |}.

Definition set_cached (m : ShadowMap) (c : bool) : ShadowMap :=
  {| map_id := map_id m; texture_width := texture_width m; shadowType := shadowType m;
     cached := c; renderTargets := renderTargets m |}.

Record LightRenderData : Type := { shadowViewport : Vec4.t; shadowScissor : Vec4.t }.

(** The fields of a light that [update] reads and writes.  [_renderData]
    holds the per-face records handed out by [getRenderData(null, face)]. *)
Record Light : Type := {
  visibleThisFrame : bool;
  castShadows : bool;
  _type : LightType;
  numCascades : nat;
  _shadowMap : option ShadowMap;
  _renderData : gmap nat LightRenderData
}.

(** Modelled from the spec: scene/light.js is not among the sources.  A spot
    light renders one shadow face, an omni light six, a directional light
    one per cascade. *)
Definition numShadowFaces (l : Light) : nat :=
  match _type l with
  | LIGHTTYPE_SPOT => 1
  | LIGHTTYPE_OMNI => 6
  | LIGHTTYPE_DIRECTIONAL => numCascades l
  end.

Definition set_shadowMap (l : Light) (m : option ShadowMap) : Light :=
  {| visibleThisFrame := visibleThisFrame l; castShadows := castShadows l;
     _type := _type l; numCascades := numCascades l;
     _shadowMap := m; _renderData := _renderData l |}.

Definition set_renderData (l : Light) (face : nat) (rd : LightRenderData) : Light :=
  {| visibleThisFrame := visibleThisFrame l; castShadows := castShadows l;
     _type := _type l; numCascades := numCascades l;
     _shadowMap := _shadowMap l; _renderData := <[face := rd]> (_renderData l) |}.

(** Modelled from the spec: [light.getRenderData(null, face)] returns the
    record of that face, creating it (viewport and scissor covering the
    whole texture) when the light has none yet. *)
Definition getRenderData (l : Light) (face : nat) : LightRenderData :=
  default {| shadowViewport := Vec4.new 0 0 1 1; shadowScissor := Vec4.new 0 0 1 1 |}
          (_renderData l !! face).

(** The fields of the allocator object itself. *)
Record t : Type := {
  subdivision : nat;
  shadowMapResolution : Q;
  shadowMap : option ShadowMap;
  slots : list Vec4.t;
  uniformsResolved : bool    (* _shadowAtlasTextureId and _shadowAtlasParamsId *)
}.

(** The allocator together with everything it reaches: the device, the
    shader scope, the lights of the scene and the shadow maps created and
    destroyed so far. *)
Record World : Type := {
  atlas : t;
  webgl2 : bool;
  shadowAtlasTexture : option Buffer;
  shadowAtlasParams : option Q;
  lights : gmap nat Light;
  mapsCreated : nat;
  mapsDestroyed : list nat
}.

Definition with_atlas (w : World) (a : t) : World :=
  {| atlas := a; webgl2 := webgl2 w; shadowAtlasTexture := shadowAtlasTexture w;
     shadowAtlasParams := shadowAtlasParams w; lights := lights w;
     mapsCreated := mapsCreated w; mapsDestroyed := mapsDestroyed w |}.

Definition with_lights (w : World) (ls : gmap nat Light) : World :=
  {| atlas := atlas w; webgl2 := webgl2 w; shadowAtlasTexture := shadowAtlasTexture w;
     shadowAtlasParams := shadowAtlasParams w; lights := ls;
     mapsCreated := mapsCreated w; mapsDestroyed := mapsDestroyed w |}.

Definition with_uniforms (w : World) (tex : option Buffer) (params : option Q) : World :=
  {| atlas := atlas w; webgl2 := webgl2 w; shadowAtlasTexture := tex;
     shadowAtlasParams := params; lights := lights w;
     mapsCreated := mapsCreated w; mapsDestroyed := mapsDestroyed w |}.

Definition with_maps (w : World) (created : nat) (destroyed : list nat) : World :=
  {| atlas := atlas w; webgl2 := webgl2 w; shadowAtlasTexture := shadowAtlasTexture w;
     shadowAtlasParams := shadowAtlasParams w; lights := lights w;
     mapsCreated := created; mapsDestroyed := destroyed |}.

Definition set_subdivision (a : t) (g : nat) : t :=
  {| subdivision := g; shadowMapResolution := shadowMapResolution a;
     shadowMap := shadowMap a; slots := slots a; uniformsResolved := uniformsResolved a |}.

Definition set_slots (a : t) (s : list Vec4.t) : t :=
  {| subdivision := subdivision a; shadowMapResolution := shadowMapResolution a;
     shadowMap := shadowMap a; slots := s; uniformsResolved := uniformsResolved a |}.

Definition set_atlas_shadowMap (a : t) (m : option ShadowMap) : t :=
  {| subdivision := subdivision a; shadowMapResolution := shadowMapResolution a;
     shadowMap := m; slots := slots a; uniformsResolved := uniformsResolved a |}.

Definition set_uniformsResolved (a : t) (b : bool) : t :=
  {| subdivision := subdivision a; shadowMapResolution := shadowMapResolution a;
     shadowMap := shadowMap a; slots := slots a; uniformsResolved := b |}.

(** *** Statements that can throw *)

Inductive JsError : Type := TypeError (what : string).

Inductive result (A : Type) : Type :=
| Ok (a : A) (w : World)
| Throw (e : JsError) (w : World).
Arguments Ok {A} a w.
Arguments Throw {A} e w.

Definition M (A : Type) : Type := World -> result A.

Definition ret {A} (a : A) : M A := fun w => Ok a w.

Definition bind {A B} (m : M A) (k : A -> M B) : M B :=
  fun w => match m w with
           | Ok a w' => k a w'
           | Throw e w' => Throw e w'
           end.

Definition throw {A} (e : JsError) : M A := fun w => Throw e w.
Definition gets {A} (f : World -> A) : M A := fun w => Ok (f w) w.
Definition modify (f : World -> World) : M unit := fun w => Ok tt (f w).

(** The world a call leaves behind, whether it returned or threw. *)
Definition world_after {A} (r : result A) : World :=
  match r with Ok _ w => w | Throw _ w => w end.

Definition returned {A} (r : result A) : Prop :=
  match r with Ok _ _ => True | Throw _ _ => False end.

Declare Scope js_scope.
Delimit Scope js_scope with js.
Notation "x <- m ;; k" := (bind m (fun x => k))
  (at level 100, m at next level, right associativity) : js_scope.
Notation "m ;;; k" := (bind m (fun _ => k))
  (at level 100, right associativity) : js_scope.
Open Scope js_scope.

(** A [for] loop whose body can throw. *)
Fixpoint for_loopM {St : Type} (count start : nat) (body : nat -> St -> M St) (s : St)
  : M St :=
  match count with
  | O => ret s
  | S count' => s' <- body start s ;; for_loopM count' (S start) body s'
  end.

(** Reading a property of [lights[i]]: the object behind the reference. *)
Definition deref (light : nat) : M Light :=
  fun w => match lights w !! light with
           | Some l => Ok l w
           | None => Throw (TypeError "light is undefined") w
           end.

Definition store (light : nat) (l : Light) : M unit :=
  modify (fun w => with_lights w (<[light := l]> (lights w))).

(** *** Methods *)

Definition allocateShadowMap (resolution : Q) : M unit :=
  fun w =>
    let this := atlas w in
    let stale :=
      match shadowMap this with
      | None => true
      | Some m => negb (Qeq_bool (texture_width m) resolution)
      end in
    if stale then
      let created := createAtlas (mapsCreated w) resolution SHADOW_PCF3 in
      (* avoid it being destroyed by lights *)
      let created := set_cached created false in
      Ok tt (with_maps (with_atlas w (set_atlas_shadowMap this (Some created)))
                       (S (mapsCreated w)) (mapsDestroyed w))
    else Ok tt w.

Definition allocateUniforms : M unit :=
  modify (fun w => with_atlas w (set_uniformsResolved (atlas w) true)).

Definition constructor (device_webgl2 : bool) (scene : gmap nat Light) : result unit :=
  let this :=
    {| subdivision := 0; shadowMapResolution := 2048; shadowMap := None;
       slots := []; uniformsResolved := false |} in
  let w :=
    {| atlas := this; webgl2 := device_webgl2; shadowAtlasTexture := None;
       shadowAtlasParams := None; lights := scene;
       mapsCreated := 0; mapsDestroyed := [] |} in
  (allocateShadowMap 1 ;;;   (* placeholder as shader requires it *)
   allocateUniforms) w.

Definition destroy : M unit :=
  fun w =>
    match shadowMap (atlas w) with
    | Some m =>
        Ok tt (with_maps (with_atlas w (set_atlas_shadowMap (atlas w) None))
                         (mapsCreated w) (map_id m :: mapsDestroyed w))
    | None => Ok tt w
    end.

(** The error of reading [renderTargets] of a null shadow map. *)
Definition null_shadow_map : JsError := TypeError "cannot read renderTargets of null".

Definition updateUniforms : M unit :=
  fun w =>
    let this := atlas w in
    let isShadowFilterPcf := true in
    match shadowMap this with
    | None => Throw null_shadow_map w
    | Some shadowMap =>
        match renderTargets shadowMap !! 0%nat with
        | None => Throw (TypeError "cannot read depthBuffer of undefined") w
        | Some rt =>
            let shadowBuffer :=
              if webgl2 w && isShadowFilterPcf then depthBuffer rt else colorBuffer rt in
            Ok tt (with_uniforms w (Some shadowBuffer) (Some (shadowMapResolution this)))
        end
    end.

(** The slot list after the two nested loops of [subdivide]. *)
Definition buildSlots (gridSize : nat) : list Vec4.t :=
  let invSize := 1 / num gridSize in
  for_loop gridSize 0 (fun i slots =>
    for_loop gridSize 0 (fun j slots =>
      slots ++ [Vec4.new (num i * invSize) (num j * invSize) invSize invSize])
      slots)
    [].

Definition subdivide_this (numLights : nat) (this : t) : t :=
  (* required grid size *)
  let gridSize := ceil_sqrt numLights in
  (* subdivide the texture to required grid size *)
  if negb (subdivision this =? gridSize)%nat then
    set_slots (set_subdivision this gridSize) (buildSlots gridSize)
  else this.

Definition subdivide (numLights : nat) : M unit :=
  modify (fun w => with_atlas w (subdivide_this numLights (atlas w))).

(** The first loop of [update]: the lights that need shadows. *)
Definition needsShadow (l : Light) : bool := visibleThisFrame l && castShadows l.

Definition collectLights (spotLights : list nat) : M (list nat) :=
  for_loopM (length spotLights) 0 (fun i lights =>
    match spotLights !! i with
    | None => throw (TypeError "light is undefined")
    | Some light =>
        l <- deref light ;;
        if needsShadow l then ret (lights ++ [light]) else ret lights
    end) [].

(** The body of the loop over the faces of one light. *)
Definition assignFace (light : nat) (scissorVec : Vec4.t) (face usedCount : nat) : M nat :=
  slot <- gets (fun w => slots (atlas w) !! usedCount) ;;
  let usedCount := S usedCount in
  (* slot viewport *)
  l <- deref light ;;
  let lightRenderData := getRenderData l face in
  store light (set_renderData l face lightRenderData) ;;;
  match slot with
  | None => throw (TypeError "cannot read x of undefined")
  | Some slot =>
      let viewport := Vec4.copy (shadowViewport lightRenderData) slot in
      let scissor := Vec4.copy (shadowScissor lightRenderData) slot in
      (* for spot lights in the atlas, make viewport slightly smaller to avoid
         sampling past the edges *)
      let viewport :=
        if decide (_type l = LIGHTTYPE_SPOT) then Vec4.add viewport scissorVec
        else viewport in
      store light (set_renderData l face
                     {| shadowViewport := viewport; shadowScissor := scissor |}) ;;;
      ret usedCount
  end.

(** The body of the loop over the lights that need shadows, for the light
    [lights[i]]. *)
Definition assignLightBody (light : nat) (scissorVec : Vec4.t) (usedCount : nat) : M nat :=
  l <- deref light ;;
  this_shadowMap <- gets (fun w => shadowMap (atlas w)) ;;
  store light (set_shadowMap l this_shadowMap) ;;;
  let faceCount := numShadowFaces l in
  for_loopM faceCount 0 (assignFace light scissorVec) usedCount.

Definition assignLight (lights : list nat) (scissorVec : Vec4.t) (i usedCount : nat)
  : M nat :=
  match lights !! i with
  | None => throw (TypeError "light is undefined")
  | Some light => assignLightBody light scissorVec usedCount
  end.

Definition scissorVecOf (shadowMapResolution : Q) : Vec4.t :=
  let scissorOffset := 4 / shadowMapResolution in
  Vec4.new scissorOffset scissorOffset (-(2) * scissorOffset) (-(2) * scissorOffset).

(** update texture atlas for a list of lights *)
Definition update (spotLights omniLights : list nat) : M unit :=
  (* get all lights that need shadows *)
  lights <- collectLights spotLights ;;
  (if (0 <? length lights)%nat then
     resolution <- gets (fun w => shadowMapResolution (atlas w)) ;;
     allocateShadowMap resolution ;;;
     subdivide (length lights)
   else ret tt) ;;;
  (* leave gap between individual tiles to avoid shadow sampling other tiles *)
  resolution <- gets (fun w => shadowMapResolution (atlas w)) ;;
  let scissorVec := scissorVecOf resolution in
  (* assign atlas slots to lights *)
  for_loopM (length lights) 0 (assignLight lights scissorVec) 0%nat ;;;
  updateUniforms.

(** *** Vocabulary of the properties *)

(** [wp m Q E w]: started in [w], the statement [m] either returns a value
    and a world satisfying [Q], or throws an error and a world satisfying
    [E]. *)
Definition wp {A} (m : M A) (Q : A -> World -> Prop) (E : JsError -> World -> Prop)
    (w : World) : Prop :=
  match m w with
  | Ok a w' => Q a w'
  | Throw e w' => E e w'
  end.

(** A statement that cannot throw. *)
Definition never : JsError -> World -> Prop := fun _ _ => False.

(** The lights of [spotLights] that are visible this frame and cast shadows,
    in list order. *)
Definition qualifies (w : World) (light : nat) : bool :=
  match lights w !! light with
  | Some l => needsShadow l
  | None => false
  end.

Definition qualifying (w : World) (spotLights : list nat) : list nat :=
  List.filter (qualifies w) spotLights.

Definition faceCountOf (w : World) (light : nat) : nat :=
  match lights w !! light with
  | Some l => numShadowFaces l
  | None => 0
  end.

(** The total number of faces of a list of lights. *)
Definition totalFaces (w : World) (ls : list nat) : nat :=
  fold_right (fun light acc => (faceCountOf w light + acc)%nat) 0%nat ls.

(** The number of faces of the lights before position [i]. *)
Definition firstSlot (w : World) (ls : list nat) (i : nat) : nat :=
  totalFaces w (take i ls).

(** What the face loop leaves in a render-data record that received [slot]. *)
Definition assigned (type : LightType) (scissorVec slot : Vec4.t) : LightRenderData :=
  {| shadowViewport :=
       if decide (type = LIGHTTYPE_SPOT) then Vec4.add slot scissorVec else slot;
     shadowScissor := slot |}.


(** The scissor rectangles of all render-data records of all lights. *)
Definition scissorsInUse (w : World) : list Vec4.t :=
  flat_map (fun entry : nat * Light =>
              map (fun face : nat * LightRenderData => shadowScissor (snd face))
                  (map_to_list (_renderData (snd entry))))
           (map_to_list (lights w)).

(** The assignment loop changes lights only, and the error it may throw is
    not the one of a null shadow map. *)
Definition calm (w : World) : JsError -> World -> Prop :=
  fun e w' => e <> null_shadow_map /\ w' = with_lights w (lights w').

(** The second world differs from the first in the lights only. *)
Definition only_lights (w w' : World) : Prop := w' = with_lights w (lights w').

(** The rectangle of row [i] and column [j] of a grid of size [g]. *)
Definition gridCell (g i j : nat) : Vec4.t :=
  Vec4.new (num i * (1 / num g)) (num j * (1 / num g)) (1 / num g) (1 / num g).

(** The slot list is the grid of the stored subdivision. *)
Definition grid_consistent (this : t) : Prop :=
  slots this = buildSlots (subdivision this).

(** [shadowMap.renderTargets[0]] is defined. *)
Definition has_target (m : ShadowMap) : Prop := is_Some (renderTargets m !! 0%nat).

(** The allocator holds a shadow map with a render target. *)
Definition alive (w : World) : Prop :=
  exists m, shadowMap (atlas w) = Some m /\ has_target m.

(** The state of an allocator between two calls of its methods. *)
Definition well_formed (this : t) : Prop :=
  grid_consistent this /\ forall m, shadowMap this = Some m -> has_target m.

(** The fields of a light that [update] only reads. *)
Definition same_light (l l' : Light) : Prop :=
  visibleThisFrame l' = visibleThisFrame l /\ castShadows l' = castShadows l /\
  _type l' = _type l /\ numCascades l' = numCascades l.

(** The light [l'] is the light [l] after its faces [0 .. n-1] received the
    slots [u .. u+n-1], in this order. *)
Definition faces_assigned (slots : list Vec4.t) (scissorVec : Vec4.t) (u n : nat)
    (l l' : Light) : Prop :=
  same_light l l' /\
  (forall face, (face < n)%nat ->
     exists slot, slots !! (u + face)%nat = Some slot /\
       _renderData l' !! face = Some (assigned (_type l) scissorVec slot)) /\
  (forall face, (n <= face)%nat -> _renderData l' !! face = _renderData l !! face).

(** Whatever can happen to an allocator after its construction: calls of its
    methods, and the scene or the application changing the lights and the
    public resolution in between. *)
Inductive Call : Type :=
| CallUpdate (spotLights omniLights : list nat)
| CallAllocateShadowMap (resolution : Q)
| CallAllocateUniforms
| CallUpdateUniforms
| CallSubdivide (numLights : nat)
| CallDestroy
| SceneChanges (scene : gmap nat Light)
| SetShadowMapResolution (resolution : Q).

Definition is_destroy (c : Call) : bool :=
  match c with CallDestroy => true | _ => false end.

Definition set_shadowMapResolution (a : t) (q : Q) : t :=
  {| subdivision := subdivision a; shadowMapResolution := q;
     shadowMap := shadowMap a; slots := slots a; uniformsResolved := uniformsResolved a |}.

Definition perform (c : Call) : M unit :=
  match c with
  | CallUpdate spotLights omniLights => update spotLights omniLights
  | CallAllocateShadowMap resolution => allocateShadowMap resolution
  | CallAllocateUniforms => allocateUniforms
  | CallUpdateUniforms => updateUniforms
  | CallSubdivide numLights => subdivide numLights
  | CallDestroy => destroy
  | SceneChanges scene => modify (fun w => with_lights w scene)
  | SetShadowMapResolution q =>
      modify (fun w => with_atlas w (set_shadowMapResolution (atlas w) q))
  end.

(** The world after a sequence of calls; a call that throws leaves the world
    as it was when it threw, and the caller goes on. *)
Definition run (cs : list Call) (w : World) : World :=
  fold_left (fun w c => world_after (perform c w)) cs w.

(** *** Vocabulary of the properties over the life of the allocator *)

(** The render target [createAtlas] gives the shadow map of identity [id]. *)
Definition targetOf (id : nat) : RenderTarget :=
  {| depthBuffer := DepthBufferOf id; colorBuffer := ColorBufferOf id |}.

(** The shadow maps the allocator accounts for: the one it holds was created
    by it, has its [cached] flag cleared, carries the render target of its
    own and was not destroyed by the allocator; the allocator destroyed no
    shadow map twice, and none that it did not create. *)
Definition maps_sound (w : World) : Prop :=
  (forall m, shadowMap (atlas w) = Some m ->
     cached m = false /\ (map_id m < mapsCreated w)%nat /\
     (map_id m ∉ mapsDestroyed w) /\ renderTargets m = [targetOf (map_id m)]) /\
  (forall id, id ∈ mapsDestroyed w -> (id < mapsCreated w)%nat) /\
  NoDup (mapsDestroyed w).

(** The shadow map of identity [id] was created, is not held by the
    allocator and was not destroyed by it. *)
Definition abandoned (id : nat) (w : World) : Prop :=
  (id < mapsCreated w)%nat /\ (id ∉ mapsDestroyed w) /\
  forall m, shadowMap (atlas w) = Some m -> map_id m <> id.

(** From the first world to the second, the lights outside [ls] are
    untouched, no light appeared or disappeared, and every light kept the
    fields that [update] only reads. *)
Definition touched (ls : list nat) (w w' : World) : Prop :=
  (forall light, light ∉ ls -> lights w' !! light = lights w !! light) /\
  (forall light, option_Forall2 same_light (lights w !! light) (lights w' !! light)).

(** The error of reading a component of [slots[usedCount]] past the end of
    the slot list. *)
Definition no_slot : JsError := TypeError "cannot read x of undefined".

(** *** Concrete lights *)

Definition lightOf (type : LightType) : Light :=
  {| visibleThisFrame := true; castShadows := true; _type := type; numCascades := 1;
     _shadowMap := None; _renderData := ∅ |}.

(** A scene of the given lights, stored at the identities 0, 1, 2, ... *)
Definition sceneOf (ls : list Light) : gmap nat Light :=
  list_to_map (zip (seq 0 (length ls)) ls).

Definition fiveSpots : gmap nat Light := sceneOf (replicate 5 (lightOf LIGHTTYPE_SPOT)).
Definition oneOmni : gmap nat Light := sceneOf [lightOf LIGHTTYPE_OMNI].

Definition hiddenSpot : Light :=
  {| visibleThisFrame := false; castShadows := true; _type := LIGHTTYPE_SPOT;
     numCascades := 1; _shadowMap := None; _renderData := ∅ |}.

(** The world of a freshly constructed allocator. *)
Definition constructed (device_webgl2 : bool) (scene : gmap nat Light) : World :=
  world_after (constructor device_webgl2 scene).

(** The world after one frame with five spot lights. *)
Definition fiveSpotsFrame : World :=
  world_after (update [0; 1; 2; 3; 4]%nat [] (constructed true fiveSpots)).

End LightTextureAtlas.

(** ** EnvLighting *)

Module EnvLighting.

Inductive PixelFormat : Type :=
  PIXELFORMAT_R8_G8_B8_A8 | PIXELFORMAT_RGBA16F | PIXELFORMAT_RGBA32F.
Inductive TextureType : Type := TEXTURETYPE_DEFAULT | TEXTURETYPE_RGBM.
Inductive Projection : Type := TEXTUREPROJECTION_NONE | TEXTUREPROJECTION_EQUIRECT.
Inductive Address : Type := ADDRESS_REPEAT | ADDRESS_CLAMP_TO_EDGE.

#[global] Instance PixelFormat_eq_dec : EqDecision PixelFormat.
Proof. solve_decision. Defined.

Record Device : Type := {
  extTextureHalfFloat : bool;
  textureHalfFloatRenderable : bool;
  extTextureFloat : bool;
  textureFloatRenderable : bool
}.

Record Texture : Type := {
  device : Device;
  name : string;
  width : Q;
  height : Q;
  format : PixelFormat;
  type : TextureType;
  projection : Projection;
  addressU : Address;
  addressV : Address;
  mipmaps : bool
}.

(** The options object handed to [reprojectTexture]; an absent property is
    [None]. *)
Record ReprojectOptions : Type := {
  numSamples : Q;
  distribution : option string;
  specularPower : option Q;
  rect : Vec4.t;
  seamPixels : Q
}.

(** One invocation [reprojectTexture(source, target, options)].  The
    resampler is external; the embedding records its invocations, each with
    the value the shared [rect] object has at the time of the call.  A
    source read past the end of an array is [None]. *)
Record ReprojectCall : Type := {
  call_source : option Texture;
  call_target : Texture;
  call_options : ReprojectOptions
}.

(** The options of [generateAtlas]. *)
Record AtlasOptions : Type := {
  target : option Texture;
  size : option Q;
  numReflectionSamples : option Q;
  numAmbientSamples : option Q;
  opt_distribution : option string
}.

(** The options of [generatePrefilteredAtlas]. *)
Record PrefilteredOptions : Type := {
  p_target : option Texture;
  p_size : option Q;
  legacyAmbient : option bool;
  numSamples_opt : option Q
}.

(** [options?.field]. *)
Definition opt {O A : Type} (options : option O) (field : O -> option A) : option A :=
  match options with
  | Some o => field o
  | None => None
  end.

(** [v || d] on an optional string: [undefined] and the empty string are
    falsy. *)
Definition str_or (v : option string) (d : string) : string :=
  match v with
  | Some EmptyString => d
  | Some s => s
  | None => d
  end.

(** calculate the number of mipmap levels given texture dimensions *)
Definition calcLevels (width height : Z) : Z :=
  (1 + Z.log2 (Z.max width height))%Z.

Definition supportsFloat16 (device : Device) : bool :=
  extTextureHalfFloat device && textureHalfFloatRenderable device.

Definition supportsFloat32 (device : Device) : bool :=
  extTextureFloat device && textureFloatRenderable device.

(** lighting source should be stored HDR *)
Definition lightingSourcePixelFormat (device : Device) : PixelFormat :=
  if supportsFloat16 device then PIXELFORMAT_RGBA16F
  else if supportsFloat32 device then PIXELFORMAT_RGBA32F
  else PIXELFORMAT_R8_G8_B8_A8.

(** runtime lighting can be RGBM *)
Definition lightingPixelFormat (_device : Device) : PixelFormat := PIXELFORMAT_R8_G8_B8_A8.

(** The local variables the layout loops assign: the shared rectangle and
    the invocations of the resampler so far. *)
Record Pass : Type := { cur : Vec4.t; calls : list ReprojectCall }.

Definition reprojectTexture (source : option Texture) (result : Texture)
    (options : ReprojectOptions) (p : Pass) : Pass :=
  {| cur := cur p;
     calls := calls p ++ [ {| call_source := source; call_target := result;
                              call_options := options |} ] |}.

Definition assign (f : Vec4.t -> Vec4.t) (p : Pass) : Pass :=
  {| cur := f (cur p); calls := calls p |}.

(** The body of the mip-map loop, shared by both generators. *)
Definition mipmapStep (source : option Texture) (result : Texture) (s : Q) (p : Pass) : Pass :=
  let p := reprojectTexture source result
             {| numSamples := 1; distribution := None; specularPower := None;
                rect := cur p; seamPixels := s |} p in
  let p := assign (fun rect => Vec4.set_x rect (Vec4.x rect + Vec4.w rect)) p in
  let p := assign (fun rect => Vec4.set_y rect (Vec4.y rect + Vec4.w rect)) p in
  let p := assign (fun rect => Vec4.set_z rect (halve (Vec4.z rect))) p in
  let p := assign (fun rect => Vec4.set_w rect (halve (Vec4.w rect))) p in
  p.

(** The tail of both reflection loops, after the resampler was invoked. *)
Definition reflectionAdvance (p : Pass) : Pass :=
  let p := assign (fun rect => Vec4.set_y rect (Vec4.y rect + Vec4.w rect)) p in
  let p := assign (fun rect => Vec4.set_z rect (halve (Vec4.z rect))) p in
  let p := assign (fun rect => Vec4.set_w rect (halve (Vec4.w rect))) p in
  p.

(** [Math.max(1, 2048 >> (i * 2))]. *)
Definition specularPowerOf (i : nat) : Q :=
  inject_Z (Z.max 1 (Z.shiftr 2048 (Z.land (Z.of_nat (i * 2)) 31))).

Definition newAtlasTexture (device : Device) (name : string) (size : option Q) : Texture :=
  let format := lightingPixelFormat device in
  {| device := device;
     name := name;
     width := num_or size 512;
     height := num_or size 512;
     format := format;
     type := if decide (format = PIXELFORMAT_R8_G8_B8_A8)
             then TEXTURETYPE_RGBM else TEXTURETYPE_DEFAULT;
     projection := TEXTUREPROJECTION_EQUIRECT;
     addressU := ADDRESS_CLAMP_TO_EDGE;
     addressV := ADDRESS_CLAMP_TO_EDGE;
     mipmaps := false |}.

(** *** Cube maps *)

(** The name of a texture of the cube map generators: a literal, or the
    template [lighting-${size}]. *)
Inductive TextureName : Type := NameLiteral (s : string) | NameLighting (size : Q).

(** The textures of the cube map generators: the properties these functions
    pass to [new Texture(device, ...)] and read from their source.  Where
    [Texture] above has the projection that [generateAtlas] passes, these
    have the flags [cubemap] and [fixCubemapSeams]. *)
Record CubeTexture : Type := {
  cube_device : Device;
  cube_name : TextureName;
  cubemap : bool;
  cube_width : Q;
  cube_height : Q;
  cube_format : PixelFormat;
  cube_type : TextureType;
  cube_addressU : Address;
  cube_addressV : Address;
  fixCubemapSeams : bool;
  cube_mipmaps : bool
}.

(** One invocation [reprojectTexture(source, result, { numSamples })]. *)
Record CubeReprojectCall : Type := {
  cube_source : CubeTexture;
  cube_target : CubeTexture;
  cube_numSamples : Q
}.

Definition createCubemap (device : Device) (size : Q) (format : PixelFormat) (mipmaps : bool)
  : CubeTexture :=
  {| cube_device := device;
     cube_name := NameLighting size;
     cubemap := true;
     cube_width := size;
     cube_height := size;
     cube_format := format;
     cube_type := if decide (format = PIXELFORMAT_R8_G8_B8_A8)
                  then TEXTURETYPE_RGBM else TEXTURETYPE_DEFAULT;
     cube_addressU := ADDRESS_CLAMP_TO_EDGE;
     cube_addressV := ADDRESS_CLAMP_TO_EDGE;
     fixCubemapSeams := true;   (* const fixCubemapSeams = true *)
     cube_mipmaps := mipmaps |}.   (* !!mipmaps *)

(** Generate a skybox cubemap in the correct pixel format from the source
    texture.  Returns the cubemap and the invocation of the resampler. *)
Definition generateSkyboxCubemap (source : CubeTexture) (size : option Q)
  : CubeTexture * CubeReprojectCall :=
  let device := cube_device source in
  let result :=
    createCubemap device
      (num_or size (if cubemap source then cube_width source else cube_width source / 4))
      PIXELFORMAT_R8_G8_B8_A8 false in
  (result, {| cube_source := source; cube_target := result; cube_numSamples := 1024 |}).

(** The options of [generateLightingSource]. *)
Record LightingSourceOptions : Type := {
  ls_target : option CubeTexture;
  ls_size : option Q
}.

(** Create a texture in the format needed to precalculate lighting data. *)
Definition generateLightingSource (source : CubeTexture)
    (options : option LightingSourceOptions) : CubeTexture * CubeReprojectCall :=
  let device := cube_device source in
  let format := lightingSourcePixelFormat device in
  let result :=
    match opt options ls_target with
    | Some t => t
    | None =>
        {| cube_device := device;
           cube_name := NameLiteral "lighting-source";
           cubemap := true;
           cube_width := num_or (opt options ls_size) 128;
           cube_height := num_or (opt options ls_size) 128;
           cube_format := format;
           cube_type := if decide (format = PIXELFORMAT_R8_G8_B8_A8)
                        then TEXTURETYPE_RGBM else TEXTURETYPE_DEFAULT;
           cube_addressU := ADDRESS_CLAMP_TO_EDGE;
           cube_addressV := ADDRESS_CLAMP_TO_EDGE;
           fixCubemapSeams := false;
           cube_mipmaps := true |}
    end in
  (* copy into top level *)
  (result, {| cube_source := source; cube_target := result;
              cube_numSamples := if cube_mipmaps source then 1 else 1024 |}).

(** Generate the environment lighting atlas containing prefiltered
    reflections and ambient.  Returns the atlas and the invocations of the
    resampler, in order. *)
Definition generateAtlas (source : Texture) (options : option AtlasOptions)
  : Texture * list ReprojectCall :=
  let device := device source in
  let result :=
    match opt options target with
    | Some t => t
    | None => newAtlasTexture device "envAtlas" (opt options size)
    end in
  let s := width result / 512 in
  (* generate mipmaps *)
  let p := {| cur := Vec4.new 0 0 (512 * s) (256 * s); calls := [] |} in
  let levels := (calcLevels 256 0 - calcLevels 4 0)%Z in
  let p := for_loop (Z.to_nat levels) 0 (fun _ p => mipmapStep (Some source) result s p) p in
  (* generate blurry reflections *)
  let p := assign (fun rect => Vec4.set rect 0 (256 * s) (256 * s) (128 * s)) p in
  let p := for_loop (7 - 1) 1 (fun i p =>
    let p := reprojectTexture (Some source) result
               {| numSamples := num_or (opt options numReflectionSamples) 1024;
                  distribution := Some (str_or (opt options opt_distribution) "ggx");
                  specularPower := Some (specularPowerOf i);
                  rect := cur p; seamPixels := s |} p in
    reflectionAdvance p) p in
  (* generate ambient *)
  let p := assign (fun rect => Vec4.set rect (128 * s) ((256 + 128) * s) (64 * s) (32 * s)) p in
  let p := reprojectTexture (Some source) result
             {| numSamples := num_or (opt options numAmbientSamples) 2048;
                distribution := Some "lambert"%string;
                specularPower := None;
                rect := cur p; seamPixels := s |} p in
  (result, calls p).

(** Generate the environment lighting atlas from prefiltered cubemap data.
    [sources[0].device] throws on an empty array: [None]. *)
Definition generatePrefilteredAtlas (sources : list Texture)
    (options : option PrefilteredOptions) : option (Texture * list ReprojectCall) :=
  match sources !! 0%nat with
  | None => None
  | Some source0 =>
      let device := device source0 in
      let result :=
        match opt options p_target with
        | Some t => t
        | None => newAtlasTexture device "envPrefilteredAtlas" (opt options p_size)
        end in
      let s := width result / 512 in
      (* generate mipmaps *)
      let p := {| cur := Vec4.new 0 0 (512 * s) (256 * s); calls := [] |} in
      let levels := calcLevels 512 0 in
      let p := for_loop (Z.to_nat levels) 0
                 (fun _ p => mipmapStep (sources !! 0%nat) result s p) p in
      (* copy blurry reflections *)
      let p := assign (fun rect => Vec4.set rect 0 (256 * s) (256 * s) (128 * s)) p in
      let p := for_loop (length sources - 1) 1 (fun i p =>
        let p := reprojectTexture (sources !! i) result
                   {| numSamples := 1; distribution := None; specularPower := None;
                      rect := cur p; seamPixels := s |} p in
        reflectionAdvance p) p in
      (* generate ambient *)
      let p := assign (fun rect =>
                 Vec4.set rect (128 * s) ((256 + 128) * s) (64 * s) (32 * s)) p in
      let p :=
        if default false (opt options legacyAmbient) then
          reprojectTexture (sources !! 5%nat) result
            {| numSamples := 1; distribution := None; specularPower := None;
               rect := cur p; seamPixels := s |} p
        else
          reprojectTexture (sources !! 0%nat) result
            {| numSamples := num_or (opt options numSamples_opt) 2048;
               distribution := Some "lambert"%string;
               specularPower := None;
               rect := cur p; seamPixels := s |} p in
      Some (result, calls p)
  end.

(** The rectangles of a list of invocations, in order. *)
Definition rects (cs : list ReprojectCall) : list Vec4.t :=
  map (fun c => rect (call_options c)) cs.

(** [x; f x; f (f x); ...], [n] entries. *)
Fixpoint iterates {A : Type} (n : nat) (f : A -> A) (x : A) : list A :=
  match n with
  | O => []
  | S n' => x :: iterates n' f (f x)
  end.

(** The rectangle after one round of the mip-map loop, and after one round
    of the reflection loop, in closed form. *)
Definition mipAdvance (r : Vec4.t) : Vec4.t :=
  Vec4.new (Vec4.x r + Vec4.w r) (Vec4.y r + Vec4.w r)
           (halve (Vec4.z r)) (halve (Vec4.w r)).

Definition reflectionAdvanceRect (r : Vec4.t) : Vec4.t :=
  Vec4.new (Vec4.x r) (Vec4.y r + Vec4.w r) (halve (Vec4.z r)) (halve (Vec4.w r)).

(** A rectangle with integer coordinates. *)
Definition Zrect (x y z w : Z) : Vec4.t :=
  Vec4.new (inject_Z x) (inject_Z y) (inject_Z z) (inject_Z w).

(** The thirteen rectangles of the layout at the reference size 512: six
    mip levels, six reflection levels, the ambient patch. *)
Definition layout512 : list Vec4.t :=
  [ Zrect 0 0 512 256; Zrect 256 256 256 128; Zrect 384 384 128 64;
    Zrect 448 448 64 32; Zrect 480 480 32 16; Zrect 496 496 16 8;
    Zrect 0 256 256 128; Zrect 0 384 128 64; Zrect 0 448 64 32;
    Zrect 0 480 32 16; Zrect 0 496 16 8; Zrect 0 504 8 4;
    Zrect 128 384 64 32 ].

(** A lighting source of size 128, as [generateLightingSource] makes them. *)
Definition aSource : Texture :=
  {| device := {| extTextureHalfFloat := true; textureHalfFloatRenderable := true;
                  extTextureFloat := true; textureFloatRenderable := true |};
     name := "lighting-source"; width := 128; height := 128;
     format := PIXELFORMAT_RGBA16F; type := TEXTURETYPE_DEFAULT;
     projection := TEXTUREPROJECTION_NONE;
     addressU := ADDRESS_CLAMP_TO_EDGE; addressV := ADDRESS_CLAMP_TO_EDGE;
     mipmaps := true |}.

(** The default invocation [generateAtlas(source, { size })]. *)
Definition sized (sz : Q) : option AtlasOptions :=
  Some {| target := None; size := Some sz; numReflectionSamples := None;
          numAmbientSamples := None; opt_distribution := None |}.

(** *** Vocabulary of the properties of the invocations *)

(** The invocation of the two copy loops for the rectangle [r]: one sample,
    no distribution, no specular power. *)
Definition copyCall (source : option Texture) (result : Texture) (s : Q) (r : Vec4.t)
  : ReprojectCall :=
  {| call_source := source; call_target := result;
     call_options := {| numSamples := 1; distribution := None; specularPower := None;
                        rect := r; seamPixels := s |} |}.

(** The first rectangle of the mip-map levels, of the reflection levels,
    and the rectangle of the ambient patch, at the scale [s]. *)
Definition mipStart (s : Q) : Vec4.t := Vec4.new 0 0 (512 * s) (256 * s).
Definition reflectionStart (s : Q) : Vec4.t := Vec4.new 0 (256 * s) (256 * s) (128 * s).
Definition ambientRect (s : Q) : Vec4.t :=
  Vec4.new (128 * s) ((256 + 128) * s) (64 * s) (32 * s).

(** The sixteen rectangles of the layout of six prefiltered sources at the
    size 1024: ten mip levels, five reflection levels, the ambient patch. *)
Definition prefilteredLayout1024 : list Vec4.t :=
  [ Zrect 0 0 1024 512; Zrect 512 512 512 256; Zrect 768 768 256 128;
    Zrect 896 896 128 64; Zrect 960 960 64 32; Zrect 992 992 32 16;
    Zrect 1008 1008 16 8; Zrect 1016 1016 8 4; Zrect 1020 1020 4 2;
    Zrect 1022 1022 2 1;
    Zrect 0 512 512 256; Zrect 0 768 256 128; Zrect 0 896 128 64;
    Zrect 0 960 64 32; Zrect 0 992 32 16;
    Zrect 256 768 128 64 ].

(** The options [{ size, legacyAmbient, numSamples }]. *)
Definition prefilteredSized (sz : Q) (legacy : option bool) (samples : option Q)
  : option PrefilteredOptions :=
  Some {| p_target := None; p_size := Some sz; legacyAmbient := legacy;
          numSamples_opt := samples |}.

(** The sampling parameters of an invocation: sample count, distribution
    and specular power. *)
Definition sampling (c : ReprojectCall) : Q * option string * option Q :=
  (numSamples (call_options c), distribution (call_options c),
   specularPower (call_options c)).

End EnvLighting.

(** ** Array.prototype.fill *)

Module ArrayFill.

(** The values the polyfill is applied to here: [undefined] and the finite
    numbers. *)
Inductive Value : Type := Undefined | Number (q : Q).

(** The integer part of a number, rounding towards zero. *)
Definition truncate (q : Q) : Z := Z.quot (Qnum q) (Z.pos (Qden q)).

(** [v >> 0]: the number as a signed 32-bit integer; [undefined] is NaN,
    which becomes 0. *)
Definition ToInt32 (v : Value) : Z :=
  match v with
  | Undefined => 0
  | Number q => ((truncate q + 2 ^ 31) mod 2 ^ 32 - 2 ^ 31)%Z
  end.

(** [n >>> 0] of an integer: the number as an unsigned 32-bit integer. *)
Definition ToUint32 (n : Z) : Z := (n mod 2 ^ 32)%Z.

(** [O[k] = value]: a write past the end extends the array, the holes read
    [undefined]. *)
Definition array_set (O : list Value) (k : nat) (value : Value) : list Value :=
  if (k <? length O)%nat then <[k := value]> O
  else O ++ replicate (k - length O) Undefined ++ [value].

(** [Array.prototype.fill.call(this, value, start, end)]; an argument that
    is not passed is [undefined], a [this] that is null or undefined is
    [None]. *)
Definition fill (this : option (list Value)) (value start end_ : Value)
  : LightTextureAtlas.JsError + list Value :=
  (* Steps 1-2. *)
  match this with
  | None => inl (LightTextureAtlas.TypeError "this is null or not defined")
  | Some this =>
      let O := this in   (* Object(this) *)
      (* Steps 3-5. *)
      let len := ToUint32 (Z.of_nat (length O)) in
      (* Steps 6-7. *)
      let relativeStart := ToInt32 start in
      (* Step 8. *)
      let k := if (relativeStart <? 0)%Z then Z.max (len + relativeStart) 0
               else Z.min relativeStart len in
      (* Steps 9-10. *)
      let relativeEnd := match end_ with Undefined => len | _ => ToInt32 end_ end in
      (* Step 11. *)
      let finalValue := if (relativeEnd <? 0)%Z then Z.max (len + relativeEnd) 0
                        else Z.min relativeEnd len in
      (* Step 12: while (k < finalValue) { O[k] = value; k++; } *)
      inr (for_loop (Z.to_nat (finalValue - k)) (Z.to_nat k)
                    (fun k O => array_set O k value) O)
  end.

(** An index counted from the end when negative, clamped to the array. *)
Definition relativeIndex (relative len : Z) : Z :=
  if (relative <? 0)%Z then Z.max (len + relative) 0 else Z.min relative len.

(** A whole number used as an argument. *)
Definition int (n : Z) : Value := Number (inject_Z n).

(** The array with the positions [from .. to - 1] overwritten. *)
Definition overwritten (O : list Value) (from to : nat) (value : Value) : list Value :=
  take from O ++ replicate (to - from) value ++ drop (from + (to - from)) O.

End ArrayFill.


(** * Properties of the slot allocator *)

Import LightTextureAtlas.
Local Open Scope js_scope.

(** ** Arithmetic *)

Lemma ceil_sqrt_bounds (n : nat) :
  (0 < n)%nat ->
  ((ceil_sqrt n - 1) * (ceil_sqrt n - 1) < n <= ceil_sqrt n * ceil_sqrt n)%nat.
Proof.
  intros Hn. unfold ceil_sqrt.
  pose proof (Nat.sqrt_up_spec n Hn) as H.
  rewrite <- !Nat.sub_1_r in H. exact H.
Qed.








(** ** Loops *)

Lemma for_loop_push {A : Type} (f : nat -> A) (count start : nat) (acc : list A) :
  for_loop count start (fun j slots => slots ++ [f j]) acc = acc ++ map f (seq start count).
Proof.
  revert start acc. induction count as [|count IH]; intros start acc; simpl.
  - by rewrite app_nil_r.
  - rewrite IH. by rewrite <- app_assoc.
Qed.

Lemma for_loop_push_rows {A : Type} (row : nat -> list A) (count start : nat) (acc : list A) :
  for_loop count start (fun i slots => slots ++ row i) acc
  = acc ++ flat_map row (seq start count).
Proof.
  revert start acc. induction count as [|count IH]; intros start acc; simpl.
  - by rewrite app_nil_r.
  - rewrite IH. by rewrite <- app_assoc.
Qed.

Lemma for_loop_ext {St : Type} (f g : nat -> St -> St) (count start : nat) (s : St) :
  (forall i s', f i s' = g i s') -> for_loop count start f s = for_loop count start g s.
Proof.
  intros Hfg. revert start s. induction count as [|count IH]; intros start s; simpl.
  - reflexivity.
  - rewrite Hfg. apply IH.
Qed.

(** ** The grid of [subdivide] *)

Lemma buildSlots_rows (g : nat) :
  buildSlots g = flat_map (fun i => map (fun j => gridCell g i j) (seq 0 g)) (seq 0 g).
Proof.
  unfold buildSlots. cbv zeta.
  rewrite (for_loop_ext _ (fun i slots => slots ++ map (fun j => gridCell g i j) (seq 0 g))).
  - by rewrite for_loop_push_rows.
  - intros i s'. apply for_loop_push.
Qed.


Lemma rows_length {A : Type} (f : nat -> nat -> A) (g count start : nat) :
  length (flat_map (fun i => map (f i) (seq 0 g)) (seq start count)) = (count * g)%nat.
Proof.
  revert start. induction count as [|count IH]; intros start; simpl; [reflexivity|].
  rewrite length_app, length_map, length_seq, IH. reflexivity.
Qed.

Lemma buildSlots_length (g : nat) : length (buildSlots g) = (g * g)%nat.
Proof. rewrite buildSlots_rows. apply rows_length. Qed.















(** ** Reasoning about statements *)

Section wp_rules.
Context {A B : Type}.

Lemma wp_ret (a : A) Q E w : Q a w -> wp (ret a) Q E w.
Proof. done. Qed.

Lemma wp_throw e (Q : A -> World -> Prop) (E : JsError -> World -> Prop) w :
  E e w -> wp (throw e) Q E w.
Proof. done. Qed.

Lemma wp_gets (f : World -> A) Q E w : Q (f w) w -> wp (gets f) Q E w.
Proof. done. Qed.

Lemma wp_bind (m : M A) (k : A -> M B) Q E w :
  wp m (fun a w' => wp (k a) Q E w') E w -> wp (bind m k) Q E w.
Proof. unfold wp, bind. by destruct (m w). Qed.

Lemma wp_mono (m : M A) (Q Q' : A -> World -> Prop) (E E' : JsError -> World -> Prop) w :
  wp m Q E w -> (forall a w', Q a w' -> Q' a w') -> (forall e w', E e w' -> E' e w') ->
  wp m Q' E' w.
Proof. unfold wp. destruct (m w); auto. Qed.

Lemma wp_ok (m : M A) Q w :
  wp m Q never w -> exists a w', m w = Ok a w' /\ Q a w'.
Proof. unfold wp. destruct (m w); [eauto|done]. Qed.

End wp_rules.

Lemma wp_modify (f : World -> World) Q E w : Q tt (f w) -> wp (modify f) Q E w.
Proof. done. Qed.

Lemma wp_for_loopM {St : Type} (I : nat -> St -> World -> Prop)
    (E : JsError -> World -> Prop)
    (count start : nat) (body : nat -> St -> M St) (s : St) (w : World) :
  I start s w ->
  (forall i s' w', (start <= i < start + count)%nat -> I i s' w' ->
     wp (body i s') (I (S i)) E w') ->
  wp (for_loopM count start body s) (I (start + count)%nat) E w.
Proof.
  revert start s w. induction count as [|count IH]; intros start s w HI Hbody; simpl.
  - apply wp_ret. by rewrite Nat.add_0_r.
  - apply wp_bind. eapply wp_mono; [apply (Hbody start s w); [lia|exact HI]| |done].
    intros s' w' HI'. cbv beta. replace (start + S count)%nat with (S start + count)%nat by lia.
    apply IH; [exact HI'|]. intros i s'' w'' Hi. apply Hbody. lia.
Qed.

(** ** Worlds that differ in the lights only *)

Lemma only_lights_refl w : only_lights w w.
Proof. unfold only_lights. by destruct w. Qed.

Lemma only_lights_trans w1 w2 w3 : only_lights w1 w2 -> only_lights w2 w3 -> only_lights w1 w3.
Proof. unfold only_lights. intros H12 H23. rewrite H23, H12. reflexivity. Qed.

Lemma only_lights_with w m : only_lights w (with_lights w m).
Proof. reflexivity. Qed.

Lemma only_lights_atlas w w' : only_lights w w' -> atlas w' = atlas w.
Proof. by intros ->. Qed.

(** ** The face loop *)

Lemma assignFace_eq (light : nat) (sv : Vec4.t) (face u : nat) (w : World) :
  assignFace light sv face u w =
  match lights w !! light with
  | None => Throw (TypeError "light is undefined") w
  | Some l =>
      match slots (atlas w) !! u with
      | None =>
          Throw (TypeError "cannot read x of undefined")
                (with_lights w (<[light := set_renderData l face (getRenderData l face)]>
                                  (lights w)))
      | Some slot =>
          Ok (S u) (with_lights w (<[light := set_renderData l face
                                                (assigned (_type l) sv slot)]> (lights w)))
      end
  end.
Proof.
  unfold assignFace, bind, gets, deref, store, modify, throw, ret.
  destruct (lights w !! light) as [l|] eqn:Hl; [|reflexivity].
  cbn. destruct (slots (atlas w) !! u) as [slot|] eqn:Hs; [|reflexivity].
  cbn. rewrite insert_insert_eq. reflexivity.
Qed.

Lemma same_light_refl l : same_light l l.
Proof. by repeat split. Qed.

Lemma with_lights_same w l light :
  lights w !! light = Some l -> with_lights w (<[light := l]> (lights w)) = w.
Proof. intros H. rewrite insert_id by exact H. by destruct w. Qed.

(** The face loop of one light, when the slots suffice. *)
Lemma face_loop_total (light : nat) (sv : Vec4.t) (n u : nat) (w : World) (l : Light) :
  lights w !! light = Some l ->
  (u + n <= length (slots (atlas w)))%nat ->
  wp (for_loopM n 0 (assignFace light sv) u)
     (fun u' w' => u' = (u + n)%nat /\
        exists l', w' = with_lights w (<[light := l']> (lights w)) /\
                   _shadowMap l' = _shadowMap l /\
                   faces_assigned (slots (atlas w)) sv u n l l')
     never w.
Proof.
  intros Hl Hn.
  pose (I := fun (face u' : nat) (w' : World) =>
    u' = (u + face)%nat /\
    exists l', w' = with_lights w (<[light := l']> (lights w)) /\
               _shadowMap l' = _shadowMap l /\
               faces_assigned (slots (atlas w)) sv u face l l').
  apply (wp_for_loopM I).
  - split; [lia|]. exists l. split; [by rewrite with_lights_same|].
    split; [done|]. split; [apply same_light_refl|]. split; [lia|done].
  - intros face u' w' Hface (-> & l' & -> & Hsm & Hsame & Hdone & Hrest).
    unfold wp. rewrite assignFace_eq. cbn. rewrite lookup_insert_eq.
    destruct (lookup_lt_is_Some_2 (slots (atlas w)) (u + face)%nat ltac:(lia)) as [slot Hslot].
    rewrite Hslot. split; [lia|].
    exists (set_renderData l' face (assigned (_type l') sv slot)).
    split; [by rewrite insert_insert_eq|]. split; [done|].
    destruct Hsame as (Hv & Hc & Ht & Hnc).
    split; [by repeat split|]. cbn. split.
    + intros f Hf. destruct (decide (f = face)) as [->|Hne].
      * exists slot. rewrite lookup_insert_eq, Ht. done.
      * destruct (Hdone f ltac:(lia)) as (slot' & Hs' & Hrd).
        exists slot'. by rewrite lookup_insert_ne.
    + intros f Hf. rewrite lookup_insert_ne by lia. apply Hrest. lia.
Qed.

(** The body of the loop over the lights, when the slots suffice. *)
Lemma assignLightBody_total (light : nat) (sv : Vec4.t) (u : nat) (w : World) (l : Light) :
  lights w !! light = Some l ->
  (u + numShadowFaces l <= length (slots (atlas w)))%nat ->
  wp (assignLightBody light sv u)
     (fun u' w' => u' = (u + numShadowFaces l)%nat /\
        exists l', w' = with_lights w (<[light := l']> (lights w)) /\
                   _shadowMap l' = shadowMap (atlas w) /\
                   faces_assigned (slots (atlas w)) sv u (numShadowFaces l) l l')
     never w.
Proof.
  intros Hl Hn. unfold assignLightBody.
  apply wp_bind. unfold wp at 1, deref. rewrite Hl.
  apply wp_bind, wp_gets, wp_bind, wp_modify.
  set (l0 := set_shadowMap l (shadowMap (atlas w))).
  set (w0 := with_lights w (<[light := l0]> (lights w))).
  assert (Hl0 : lights w0 !! light = Some l0) by (cbn; by rewrite lookup_insert_eq).
  eapply wp_mono; [apply (face_loop_total light sv (numShadowFaces l) u w0 l0 Hl0 Hn)| |done].
  intros u' w' (-> & l' & -> & Hsm & Hfa). split; [done|]. exists l'.
  split; [subst w0; cbn; by rewrite insert_insert_eq|]. split; [exact Hsm|exact Hfa].
Qed.

(** ** The loop over the lights *)

Lemma totalFaces_app w ls1 ls2 :
  totalFaces w (ls1 ++ ls2) = (totalFaces w ls1 + totalFaces w ls2)%nat.
Proof. induction ls1 as [|a ls1 IH]; simpl; [done|]. rewrite IH. lia. Qed.

Lemma firstSlot_S w ls i light :
  ls !! i = Some light -> firstSlot w ls (S i) = (firstSlot w ls i + faceCountOf w light)%nat.
Proof.
  intros Hi. unfold firstSlot. rewrite (take_S_r _ _ _ Hi), totalFaces_app. simpl. lia.
Qed.

Lemma firstSlot_le w ls i : (firstSlot w ls i <= totalFaces w ls)%nat.
Proof.
  unfold firstSlot. rewrite <- (take_drop i ls) at 2. rewrite totalFaces_app. lia.
Qed.

Lemma firstSlot_all w ls : firstSlot w ls (length ls) = totalFaces w ls.
Proof. unfold firstSlot. by rewrite firstn_all. Qed.

Lemma totalFaces_lights w w' ls : lights w' = lights w -> totalFaces w' ls = totalFaces w ls.
Proof. intros H. unfold totalFaces, faceCountOf. by rewrite H. Qed.

(** The assignment loop on pairwise different lights, when the slots
    suffice: light [j] receives the slots that follow those of the lights
    before it, and no other light changes. *)
Lemma assign_loop_total (ls : list nat) (sv : Vec4.t) (u0 : nat) (w : World) :
  NoDup ls ->
  (forall j light, ls !! j = Some light -> is_Some (lights w !! light)) ->
  (u0 + totalFaces w ls <= length (slots (atlas w)))%nat ->
  wp (for_loopM (length ls) 0 (assignLight ls sv) u0)
     (fun u' w' =>
        u' = (u0 + totalFaces w ls)%nat /\ only_lights w w' /\
        (forall light, (forall j, ls !! j <> Some light) ->
           lights w' !! light = lights w !! light) /\
        (forall j light l, ls !! j = Some light -> lights w !! light = Some l ->
           exists l', lights w' !! light = Some l' /\
             _shadowMap l' = shadowMap (atlas w) /\
             faces_assigned (slots (atlas w)) sv (u0 + firstSlot w ls j)
                            (numShadowFaces l) l l'))
     never w.
Proof.
  intros Hnd Hvalid Hfit.
  pose (I := fun (i u' : nat) (w' : World) =>
    u' = (u0 + firstSlot w ls i)%nat /\ only_lights w w' /\
    (forall light, (forall j, (j < i)%nat -> ls !! j <> Some light) ->
       lights w' !! light = lights w !! light) /\
    (forall j light l, (j < i)%nat -> ls !! j = Some light -> lights w !! light = Some l ->
       exists l', lights w' !! light = Some l' /\
         _shadowMap l' = shadowMap (atlas w) /\
         faces_assigned (slots (atlas w)) sv (u0 + firstSlot w ls j)
                        (numShadowFaces l) l l')).
  eapply wp_mono; [apply (wp_for_loopM I never)| |done].
  - split; [unfold firstSlot; simpl; lia|]. split; [apply only_lights_refl|].
    split; [done|]. intros; lia.
  - intros i u' w' Hi (-> & Hol & Hframe & Hdone).
    destruct (lookup_lt_is_Some_2 ls i ltac:(lia)) as [light Hlight].
    unfold assignLight. rewrite Hlight.
    destruct (Hvalid i light Hlight) as [l Hl].
    assert (Hfresh : forall j, (j < i)%nat -> ls !! j <> Some light).
    { intros j Hj Hj'. pose proof (NoDup_lookup _ _ _ _ Hnd Hj' Hlight). lia. }
    assert (Hl' : lights w' !! light = Some l) by (rewrite Hframe; done).
    pose proof (only_lights_atlas _ _ Hol) as Hatlas.
    assert (Hfc : faceCountOf w light = numShadowFaces l) by (unfold faceCountOf; by rewrite Hl).
    pose proof (firstSlot_S w ls i light Hlight) as HS.
    pose proof (firstSlot_le w ls (S i)) as Hle.
    eapply wp_mono; [apply (assignLightBody_total light sv _ w' l Hl')| |done].
    { rewrite Hatlas. lia. }
    intros u' w'' (-> & l' & -> & Hsm & Hfa). rewrite Hatlas in Hsm, Hfa.
    split; [lia|]. split; [eapply only_lights_trans; [exact Hol|apply only_lights_with]|].
    split.
    + intros light' Hnot. cbn. rewrite lookup_insert_ne.
      * apply Hframe. intros j Hj. apply Hnot. lia.
      * intros <-. exact (Hnot i ltac:(lia) Hlight).
    + intros j light' l0 Hj Hlj Hl0. cbn. destruct (decide (j = i)) as [->|Hne].
      * assert (light' = light) as -> by congruence.
        assert (l0 = l) as -> by congruence.
        rewrite lookup_insert_eq. exists l'. done.
      * rewrite lookup_insert_ne.
        -- apply Hdone; [lia|done|done].
        -- intros <-. pose proof (NoDup_lookup _ _ _ _ Hnd Hlj Hlight). lia.
  - cbn beta. intros u' w' (-> & Hol & Hframe & Hdone). unfold I in *.
    rewrite Nat.add_0_l, firstSlot_all in *. split; [done|]. split; [done|]. split.
    + intros light Hnot. apply Hframe. intros j _. apply Hnot.
    + intros j light l Hj Hl. apply (Hdone j light l); [|done|done].
      by apply lookup_lt_Some in Hj.
Qed.

(** ** The methods of the allocator *)

Lemma qualifying_app w ls1 ls2 :
  qualifying w (ls1 ++ ls2) = qualifying w ls1 ++ qualifying w ls2.
Proof. apply List.filter_app. Qed.

(** [collectLights] leaves the world alone; it returns the lights that need
    shadows, or throws at a reference that is not a light. *)
Lemma collectLights_spec (spotLights : list nat) (w : World) :
  wp (collectLights spotLights)
     (fun ls w' => w' = w /\ ls = qualifying w spotLights /\
        forall j light, spotLights !! j = Some light -> is_Some (lights w !! light))
     (fun e w' => e = TypeError "light is undefined" /\ w' = w /\
        exists j light, spotLights !! j = Some light /\ lights w !! light = None)
     w.
Proof.
  pose (I := fun (i : nat) (ls : list nat) (w' : World) =>
    w' = w /\ ls = qualifying w (take i spotLights) /\
    forall j light, (j < i)%nat -> spotLights !! j = Some light ->
      is_Some (lights w !! light)).
  unfold collectLights.
  eapply wp_mono; [apply (wp_for_loopM I)| |intros e w' H; exact H].
  - split; [done|]. split; [done|]. intros; lia.
  - intros i ls w' Hi (-> & -> & Hvalid).
    destruct (lookup_lt_is_Some_2 spotLights i ltac:(lia)) as [light Hlight].
    rewrite Hlight. apply wp_bind. unfold wp at 1, deref.
    destruct (lights w !! light) as [l|] eqn:Hl.
    + assert (Hq : qualifies w light = needsShadow l) by (unfold qualifies; by rewrite Hl).
      assert (HI : I (S i) (qualifying w (take (S i) spotLights)) w).
      { split; [done|]. split; [done|]. intros j light' Hj Hj'.
        destruct (decide (j = i)) as [->|Hne].
        - assert (light' = light) as -> by congruence. by rewrite Hl.
        - apply (Hvalid j); [lia|done]. }
      rewrite (take_S_r _ _ _ Hlight), qualifying_app in HI. simpl in HI. rewrite Hq in HI.
      destruct (needsShadow l); apply wp_ret.
      * exact HI.
      * by rewrite app_nil_r in HI.
    + split; [done|]. split; [done|]. by exists i, light.
  - cbn beta. intros ls w' (-> & -> & Hvalid). rewrite Nat.add_0_l, firstn_all.
    split; [done|]. split; [done|]. intros j light Hj. apply (Hvalid j); [|done].
    by apply lookup_lt_Some in Hj.
Qed.

Lemma collectLights_total (spotLights : list nat) (w : World) :
  (forall j light, spotLights !! j = Some light -> is_Some (lights w !! light)) ->
  collectLights spotLights w = Ok (qualifying w spotLights) w.
Proof.
  intros Hvalid. pose proof (collectLights_spec spotLights w) as H. unfold wp in H.
  destruct (collectLights spotLights w) as [ls w'|e w'].
  - by destruct H as (-> & -> & _).
  - destruct H as (_ & _ & j & light & Hj & Hnone). destruct (Hvalid j light Hj) as [l Hl].
    congruence.
Qed.

(** [allocateShadowMap] returns; afterwards the allocator holds a shadow map,
    and nothing but the shadow map and the count of created maps changed. *)
Lemma allocateShadowMap_spec (resolution : Q) (w : World) :
  exists (m : ShadowMap) (created : nat),
    allocateShadowMap resolution w
    = Ok tt (with_maps (with_atlas w (set_atlas_shadowMap (atlas w) (Some m)))
                       created (mapsDestroyed w)) /\
    ((forall m0, shadowMap (atlas w) = Some m0 -> has_target m0) -> has_target m) /\
    (shadowMap (atlas w) = Some m /\ created = mapsCreated w \/
     m = set_cached (createAtlas (mapsCreated w) resolution SHADOW_PCF3) false /\
     created = S (mapsCreated w)).
Proof.
  unfold allocateShadowMap. destruct (shadowMap (atlas w)) as [m0|] eqn:Hm.
  - destruct (Qeq_bool (texture_width m0) resolution); cbn.
    + exists m0, (mapsCreated w). split; [|split; [intros H; by apply H|by left]].
      f_equal. destruct w as [a ? ? ? ? ? ?]; destruct a; cbn in *. by rewrite Hm.
    + eexists _, _. split; [reflexivity|]. split; [intros _; by eexists|by right].
  - eexists _, _. split; [reflexivity|]. split; [intros _; by eexists|by right].
Qed.

Lemma subdivide_this_grid (n : nat) (this : LightTextureAtlas.t) :
  grid_consistent this ->
  subdivision (subdivide_this n this) = ceil_sqrt n /\
  slots (subdivide_this n this) = buildSlots (ceil_sqrt n) /\
  shadowMap (subdivide_this n this) = shadowMap this /\
  shadowMapResolution (subdivide_this n this) = shadowMapResolution this.
Proof.
  intros Hgc. unfold subdivide_this.
  destruct (Nat.eqb_spec (subdivision this) (ceil_sqrt n)) as [Heq|Hne]; cbn.
  - rewrite <- Heq. done.
  - done.
Qed.

Lemma updateUniforms_ok (w : World) (m : ShadowMap) :
  shadowMap (atlas w) = Some m -> has_target m ->
  exists tex params, updateUniforms w = Ok tt (with_uniforms w tex params).
Proof.
  intros Hm [rt Hrt]. unfold updateUniforms. rewrite Hm, Hrt. by eexists _, _.
Qed.

Lemma qualifying_is_light (w : World) (spotLights : list nat) (j light : nat) :
  qualifying w spotLights !! j = Some light ->
  exists l, lights w !! light = Some l /\ needsShadow l = true.
Proof.
  intros Hj. apply list_elem_of_lookup_2, list_elem_of_In, List.filter_In in Hj as [_ Hq].
  unfold qualifies in Hq. destruct (lights w !! light) as [l|]; [by exists l|done].
Qed.

(** ** [update] on a frame with lights that need shadows *)

Lemma update_total (spotLights omniLights : list nat) (w : World) :
  let ls := qualifying w spotLights in
  let g := ceil_sqrt (length ls) in
  well_formed (atlas w) -> NoDup ls -> ls <> [] ->
  (forall j light, spotLights !! j = Some light -> is_Some (lights w !! light)) ->
  (totalFaces w ls <= g * g)%nat ->
  exists w' m,
    update spotLights omniLights w = Ok tt w' /\
    subdivision (atlas w') = g /\ slots (atlas w') = buildSlots g /\
    shadowMap (atlas w') = Some m /\ has_target m /\
    shadowMapResolution (atlas w') = shadowMapResolution (atlas w) /\
    (forall light, (forall j, ls !! j <> Some light) ->
       lights w' !! light = lights w !! light) /\
    (forall j light l, ls !! j = Some light -> lights w !! light = Some l ->
       exists l', lights w' !! light = Some l' /\ _shadowMap l' = Some m /\
         faces_assigned (buildSlots g) (scissorVecOf (shadowMapResolution (atlas w)))
                        (firstSlot w ls j) (numShadowFaces l) l l').
Proof.
  intros ls g [Hgc Hmap] Hnd Hne Hvalid Hfit.
  unfold update, bind. rewrite (collectLights_total _ _ Hvalid). fold ls.
  assert (Hlen : (0 <? length ls)%nat = true).
  { apply Nat.ltb_lt. destruct ls; [done|simpl; lia]. }
  rewrite Hlen. cbn [gets].
  destruct (allocateShadowMap_spec (shadowMapResolution (atlas w)) w)
    as (m & created & -> & Htarget & _).
  specialize (Htarget Hmap). cbn [subdivide modify].
  set (w1 := with_maps _ _ _).
  set (w2 := with_atlas w1 (subdivide_this (length ls) (atlas w1))).
  assert (Hgc1 : grid_consistent (atlas w1)) by exact Hgc.
  destruct (subdivide_this_grid (length ls) (atlas w1) Hgc1) as (Hsub & Hslots & Hsm & Hres).
  fold g in Hsub, Hslots.
  assert (Hlights : lights w2 = lights w) by reflexivity.
  assert (Hatlas2 : atlas w2 = subdivide_this (length ls) (atlas w1)) by reflexivity.
  assert (Hfaces : totalFaces w2 ls = totalFaces w ls) by by apply totalFaces_lights.
  assert (Hvalid2 : forall j light, ls !! j = Some light -> is_Some (lights w2 !! light)).
  { intros j light Hj. rewrite Hlights.
    destruct (qualifying_is_light _ _ _ _ Hj) as (l & Hl & _). by exists l. }
  assert (Hfit2 : (0 + totalFaces w2 ls <= length (slots (atlas w2)))%nat).
  { rewrite Hatlas2, Hslots, buildSlots_length, Hfaces. lia. }
  destruct (wp_ok _ _ _ (assign_loop_total ls
              (scissorVecOf (shadowMapResolution (atlas w2))) 0 w2 Hnd Hvalid2 Hfit2))
    as (u' & w3 & Heq & _ & Hol & Hframe & Hdone).
  rewrite Heq. pose proof (only_lights_atlas _ _ Hol) as Hatlas3.
  assert (Hm3 : shadowMap (atlas w3) = Some m) by (rewrite Hatlas3, Hatlas2, Hsm; done).
  destruct (updateUniforms_ok w3 m Hm3 Htarget) as (tex & params & ->).
  exists (with_uniforms w3 tex params), m. split; [done|]. cbn [atlas with_uniforms lights].
  rewrite Hatlas3, Hatlas2. split; [done|]. split; [done|]. split; [by rewrite Hsm|].
  split; [done|]. split; [by rewrite Hres|]. split.
  - intros light Hnot. rewrite (Hframe light Hnot). by rewrite Hlights.
  - intros j light l Hj Hl. rewrite <- Hlights in Hl.
    destruct (Hdone j light l Hj Hl) as (l' & Hl' & Hsm' & Hfa).
    exists l'. split; [done|]. rewrite Hatlas2, Hsm in Hsm'. split; [done|].
    rewrite Hatlas2, Hslots, Hres in Hfa. cbn in Hfa.
    unfold firstSlot in *. by rewrite (totalFaces_lights w w2) in Hfa.
Qed.

(** ** What the assignment loop leaves alone *)

(** However it ends, the assignment of one face changes lights only, and
    the error it may throw is not the one of a null shadow map. *)

Lemma calm_trans w w' e w'' : only_lights w w' -> calm w' e w'' -> calm w e w''.
Proof. intros Hol [He Hol']. split; [done|]. exact (only_lights_trans _ _ _ Hol Hol'). Qed.

Lemma assignFace_only_lights (light : nat) (sv : Vec4.t) (face u : nat) (w : World) :
  wp (assignFace light sv face u) (fun _ => only_lights w) (calm w) w.
Proof.
  unfold wp. rewrite assignFace_eq.
  destruct (lights w !! light); [|split; [done|apply only_lights_refl]].
  destruct (slots (atlas w) !! u); [apply only_lights_with|].
  split; [done|apply only_lights_with].
Qed.

Lemma loop_only_lights {St : Type} (count start : nat) (body : nat -> St -> M St) (s : St)
    (w : World) :
  (forall i s' w', wp (body i s') (fun _ => only_lights w') (calm w') w') ->
  wp (for_loopM count start body s) (fun _ => only_lights w) (calm w) w.
Proof.
  intros Hbody.
  eapply wp_mono; [apply (wp_for_loopM (fun _ _ => only_lights w) (calm w))| |done].
  - apply only_lights_refl.
  - intros i s' w' _ Hol. eapply wp_mono; [apply Hbody| |].
    + intros ? w'' Hol'. exact (only_lights_trans _ _ _ Hol Hol').
    + intros e w''. by apply calm_trans.
  - done.
Qed.

Lemma assignLightBody_only_lights (light : nat) (sv : Vec4.t) (u : nat) (w : World) :
  wp (assignLightBody light sv u) (fun _ => only_lights w) (calm w) w.
Proof.
  unfold assignLightBody. apply wp_bind. unfold wp at 1, deref.
  destruct (lights w !! light) as [l|]; [|split; [done|apply only_lights_refl]].
  apply wp_bind, wp_gets, wp_bind, wp_modify.
  eapply wp_mono; [apply loop_only_lights; intros; apply assignFace_only_lights| |].
  - intros ? w' Hol. exact (only_lights_trans _ _ _ (only_lights_with _ _) Hol).
  - intros e w'. apply calm_trans, only_lights_with.
Qed.

Lemma assign_loop_only_lights (ls : list nat) (sv : Vec4.t) (u : nat) (w : World) :
  wp (for_loopM (length ls) 0 (assignLight ls sv) u) (fun _ => only_lights w) (calm w) w.
Proof.
  apply loop_only_lights. intros i u' w'. unfold assignLight.
  destruct (ls !! i); [apply assignLightBody_only_lights|].
  split; [done|apply only_lights_refl].
Qed.

(** ** Spot lights after a returning assignment *)

Lemma same_light_type l l' : same_light l l' -> _type l' = _type l.
Proof. by intros (_ & _ & Ht & _). Qed.




(** ** The steps of a returning [update] *)

Lemma update_returned (spotLights omniLights : list nat) (w w' : World) :
  update spotLights omniLights w = Ok tt w' ->
  let ls := qualifying w spotLights in
  exists w2 u w3,
    lights w2 = lights w /\
    shadowMapResolution (atlas w2) = shadowMapResolution (atlas w) /\
    for_loopM (length ls) 0
      (assignLight ls (scissorVecOf (shadowMapResolution (atlas w)))) 0%nat w2 = Ok u w3 /\
    updateUniforms w3 = Ok tt w'.
Proof.
  intros Hup ls. unfold update, bind in Hup.
  pose proof (collectLights_spec spotLights w) as Hc. unfold wp in Hc.
  destruct (collectLights spotLights w) as [ls' w0|]; [|done].
  destruct Hc as (-> & -> & _). fold ls in Hup.
  destruct (0 <? length ls)%nat.
  - cbn [gets] in Hup.
    destruct (allocateShadowMap_spec (shadowMapResolution (atlas w)) w)
      as (m & created & Heq & _). rewrite Heq in Hup. cbn [subdivide modify] in Hup.
    set (w2 := with_atlas _ _) in Hup.
    assert (Hres : shadowMapResolution (atlas w2) = shadowMapResolution (atlas w)).
    { subst w2. cbn. unfold subdivide_this. by destruct (negb _). }
    rewrite Hres in Hup.
    destruct (for_loopM _ _ _ _ w2) as [u w3|] eqn:Hloop; [|done].
    exists w2, u, w3. destruct (updateUniforms w3) as [[] ?|]; [|done].
    by injection Hup as ->.
  - cbn [ret gets] in Hup.
    destruct (for_loopM _ _ _ _ w) as [u w3|] eqn:Hloop; [|done].
    exists w, u, w3. destruct (updateUniforms w3) as [[] ?|]; [|done].
    by injection Hup as ->.
Qed.

Lemma updateUniforms_only_uniforms (w : World) :
  exists tex params, world_after (updateUniforms w) = with_uniforms w tex params.
Proof.
  unfold updateUniforms.
  destruct (shadowMap (atlas w)) as [m|]; [destruct (renderTargets m !! 0%nat)|]; cbn;
    try (by eexists _, _);
    exists (shadowAtlasTexture w), (shadowAtlasParams w); by destruct w.
Qed.

(** ** Theorems about [subdivide] *)





(** ** Theorems about [update] *)

Lemma subdivide_this_subdivision (n : nat) (this : LightTextureAtlas.t) :
  subdivision (subdivide_this n this) = ceil_sqrt n.
Proof.
  unfold subdivide_this.
  destruct (Nat.eqb_spec (subdivision this) (ceil_sqrt n)); by cbn.
Qed.

(** However [update] ends, the grid it leaves is the one for the number of
    lights that need shadows - not for the number of their faces. *)
Lemma update_grid_size (spotLights omniLights : list nat) (w : World) :
  (forall j light, spotLights !! j = Some light -> is_Some (lights w !! light)) ->
  qualifying w spotLights <> [] ->
  subdivision (atlas (world_after (update spotLights omniLights w)))
  = ceil_sqrt (length (qualifying w spotLights)).
Proof.
  intros Hvalid Hne. unfold update, bind. rewrite (collectLights_total _ _ Hvalid).
  set (ls := qualifying w spotLights) in *.
  assert (Hlen : (0 <? length ls)%nat = true).
  { apply Nat.ltb_lt. destruct ls; [done|simpl; lia]. }
  rewrite Hlen. cbn [gets].
  destruct (allocateShadowMap_spec (shadowMapResolution (atlas w)) w)
    as (m & created & -> & _). cbn [subdivide modify].
  set (w2 := with_atlas _ _).
  assert (Hsub : subdivision (atlas w2) = ceil_sqrt (length ls)).
  { subst w2. cbn [atlas with_atlas]. apply subdivide_this_subdivision. }
  clearbody w2.
  pose proof (assign_loop_only_lights ls
                (scissorVecOf (shadowMapResolution (atlas w2))) 0 w2) as Hloop.
  unfold wp in Hloop.
  destruct (for_loopM _ _ _ _ w2) as [u w3|e w3].
  - destruct (updateUniforms_only_uniforms w3) as (tex & params & Hw).
    destruct (updateUniforms w3) as [[] w4|e w4]; cbn in Hw |- *; subst w4; cbn;
      by rewrite (only_lights_atlas _ _ Hloop).
  - cbn. by rewrite (only_lights_atlas _ _ (proj2 Hloop)).
Qed.

(** C2 (the code departs from the claim).  One visible, shadow-casting omni
    light needs six faces, for which a grid of size 3 is required; [update]
    sizes the grid for one light, a single slot, and throws when the second
    face reads a slot that does not exist. *)
Theorem update_sizes_grid_by_light_count :
  let w := constructed true oneOmni in
  let r := update [0%nat] [] w in
  qualifying w [0%nat] = [0%nat] /\
  totalFaces w (qualifying w [0%nat]) = 6%nat /\
  ceil_sqrt 6 = 3%nat /\
  subdivision (atlas (world_after r)) = 1%nat /\
  length (slots (atlas (world_after r))) = 1%nat /\
  (exists w', r = Throw (TypeError "cannot read x of undefined") w').
Proof.
  cbv zeta. repeat split; try (vm_compute; reflexivity).
  eexists. vm_compute. reflexivity.
Qed.


(** [H : t = v], for the value [v] of the closed term [t]. *)
Ltac evaluate t H :=
  let v := eval vm_compute in t in
  assert (H : t = v) by (vm_compute; reflexivity).




(** C9.  When no light of the list needs a shadow, [update] - whether it
    returns or throws - leaves the allocator as it was: subdivision, slot
    list, shadow map and resolution; it creates and destroys no shadow map
    and changes no light. *)
Theorem update_idle (spotLights omniLights : list nat) (w : World) :
  qualifying w spotLights = [] ->
  let w' := world_after (update spotLights omniLights w) in
  atlas w' = atlas w /\
  mapsCreated w' = mapsCreated w /\ mapsDestroyed w' = mapsDestroyed w /\
  lights w' = lights w.
Proof.
  intros Hnone. cbv zeta. unfold update, bind.
  pose proof (collectLights_spec spotLights w) as Hc. unfold wp in Hc.
  destruct (collectLights spotLights w) as [ls w0|e w0].
  - destruct Hc as (-> & -> & _). rewrite Hnone. cbn.
    destruct (updateUniforms_only_uniforms w) as (tex & params & Hw).
    destruct (updateUniforms w) as [[] w1|e w1]; cbn in *; by subst w1.
  - destruct Hc as (_ & -> & _). done.
Qed.

Lemma update_idle_witness :
  qualifying (with_lights fiveSpotsFrame (sceneOf [hiddenSpot])) [0%nat] = [] /\
  slots (atlas (world_after (update [0%nat] []
           (with_lights fiveSpotsFrame (sceneOf [hiddenSpot])))))
  = slots (atlas fiveSpotsFrame).
Proof.
  assert (Hq : qualifying (with_lights fiveSpotsFrame (sceneOf [hiddenSpot])) [0%nat] = [])
    by (vm_compute; reflexivity).
  split; [exact Hq|].
  destruct (update_idle [0%nat] [] (with_lights fiveSpotsFrame (sceneOf [hiddenSpot])) Hq)
    as [Ha _].
  cbv zeta in Ha. rewrite Ha. reflexivity.
Defined.

(** Case analysis on an index into a list with explicit entries: the
    cases 0 .. n-1, and the case of an index of at least n. *)
Ltac index_cases n k :=
  lazymatch n with
  | O => idtac
  | S ?n' => destruct k as [|k]; [|index_cases n' k]
  end.

(** C6.  [update] walks the lights that need shadows in list order and the
    faces of each light in order, handing out the slots 0, 1, 2, ... of the
    grid: the face receives its slot as scissor and as viewport (moved by
    the margin for a spot light), the light the shared shadow map.  With
    five spot lights the grid has size 3 and nine slots of size 1/3, the
    lights receive the slots 0 to 4 in row-major order, and the four slots
    5 to 8 are nobody's scissor. *)
Theorem update_assigns_slots_in_order :
  (forall (spotLights omniLights : list nat) (w : World),
     let ls := qualifying w spotLights in
     let g := ceil_sqrt (length ls) in
     let scissorVec := scissorVecOf (shadowMapResolution (atlas w)) in
     well_formed (atlas w) -> NoDup ls -> ls <> [] ->
     (forall j light, spotLights !! j = Some light -> is_Some (lights w !! light)) ->
     (totalFaces w ls <= g * g)%nat ->
     exists w',
       update spotLights omniLights w = Ok tt w' /\
       subdivision (atlas w') = g /\ slots (atlas w') = buildSlots g /\
       is_Some (shadowMap (atlas w')) /\
       forall j light l, ls !! j = Some light -> lights w !! light = Some l ->
         exists l', lights w' !! light = Some l' /\
           _shadowMap l' = shadowMap (atlas w') /\
           forall face, (face < numShadowFaces l)%nat ->
             exists slot rd,
               slots (atlas w') !! (firstSlot w ls j + face)%nat = Some slot /\
               _renderData l' !! face = Some rd /\
               shadowScissor rd = slot /\
               shadowViewport rd =
                 if decide (_type l = LIGHTTYPE_SPOT) then Vec4.add slot scissorVec
                 else slot) /\
  (let w := constructed true fiveSpots in
   let w' := fiveSpotsFrame in
   update [0; 1; 2; 3; 4]%nat [] w = Ok tt w' /\
   subdivision (atlas w') = 3%nat /\ length (slots (atlas w')) = 9%nat /\
   (forall k slot, slots (atlas w') !! k = Some slot ->
      Vec4.eqv slot (Vec4.new (num (k / 3) / 3) (num (k mod 3) / 3) (1 / 3) (1 / 3))) /\
   (forall k, (k < 5)%nat ->
      exists l' rd slot,
        lights w' !! k = Some l' /\ _renderData l' !! 0%nat = Some rd /\
        slots (atlas w') !! k = Some slot /\ shadowScissor rd = slot /\
        _shadowMap l' = shadowMap (atlas w')) /\
   length (scissorsInUse w') = 5%nat /\
   (forall k slot r, (5 <= k)%nat -> slots (atlas w') !! k = Some slot ->
      In r (scissorsInUse w') -> ~ Vec4.eqv r slot)).
Proof.
  split.
  - intros spotLights omniLights w ls g scissorVec Hwf Hnd Hne Hvalid Hfit.
    destruct (update_total spotLights omniLights w Hwf Hnd Hne Hvalid Hfit)
      as (w' & m & Hup & Hsub & Hslots & Hm & _ & _ & _ & Hfaces).
    exists w'. split; [exact Hup|]. split; [exact Hsub|]. split; [exact Hslots|].
    split; [by rewrite Hm|]. intros j light l Hj Hl.
    destruct (Hfaces j light l Hj Hl) as (l' & Hl' & Hsm & _ & Hfa & _).
    exists l'. split; [exact Hl'|]. split; [by rewrite Hm|]. intros face Hface.
    destruct (Hfa face Hface) as (slot & Hslot & Hrd).
    exists slot, (assigned (_type l) scissorVec slot). rewrite Hslots. done.
  - cbv zeta.
    evaluate (slots (atlas fiveSpotsFrame)) Hslots.
    evaluate (scissorsInUse fiveSpotsFrame) Huse.
    split; [vm_compute; reflexivity|]. split; [vm_compute; reflexivity|].
    split; [vm_compute; reflexivity|]. split; [|split; [|split; [vm_compute; reflexivity|]]].
    + intros k slot Hk. rewrite Hslots in Hk.
      index_cases 9%nat k; try discriminate Hk; injection Hk as <-;
        vm_compute; repeat split; reflexivity.
    + intros k Hk. index_cases 5%nat k; try (exfalso; lia); eexists _, _, _;
        (split; [vm_compute; reflexivity|]); (split; [vm_compute; reflexivity|]);
        (split; [vm_compute; reflexivity|]); split; vm_compute; reflexivity.
    + intros k slot r Hk Hslot Hr. rewrite Hslots in Hslot. rewrite Huse in Hr.
      index_cases 9%nat k; try (exfalso; lia); try discriminate Hslot;
        injection Hslot as <-;
        repeat (destruct Hr as [<-|Hr]); try contradiction;
        vm_compute; intros (Hx & Hy & _); (discriminate Hx || discriminate Hy).
Qed.

Lemma update_assigns_slots_in_order_witness :
  well_formed (atlas (constructed true fiveSpots)) /\
  NoDup (qualifying (constructed true fiveSpots) [0; 1; 2; 3; 4]%nat) /\
  (totalFaces (constructed true fiveSpots)
     (qualifying (constructed true fiveSpots) [0; 1; 2; 3; 4]%nat) <= 3 * 3)%nat /\
  exists w', update [0; 1; 2; 3; 4]%nat [] (constructed true fiveSpots) = Ok tt w' /\
             subdivision (atlas w') = 3%nat.
Proof.
  evaluate (atlas (constructed true fiveSpots)) Hatlas.
  assert (Hwf : well_formed (atlas (constructed true fiveSpots))).
  { rewrite Hatlas. split; [vm_compute; reflexivity|]. intros m Hm.
    injection Hm as <-. by eexists. }
  assert (Hq : qualifying (constructed true fiveSpots) [0; 1; 2; 3; 4]%nat
               = [0; 1; 2; 3; 4]%nat) by (vm_compute; reflexivity).
  assert (Hnd : NoDup (qualifying (constructed true fiveSpots) [0; 1; 2; 3; 4]%nat)).
  { rewrite Hq. apply (bool_decide_unpack _). vm_compute. exact I. }
  assert (Hfit : (totalFaces (constructed true fiveSpots)
     (qualifying (constructed true fiveSpots) [0; 1; 2; 3; 4]%nat) <= 3 * 3)%nat).
  { rewrite Hq. evaluate (totalFaces (constructed true fiveSpots) [0; 1; 2; 3; 4]%nat) Ht.
    rewrite Ht. lia. }
  assert (Hvalid : forall j light, [0; 1; 2; 3; 4]%nat !! j = Some light ->
                     is_Some (lights (constructed true fiveSpots) !! light)).
  { intros j light Hj. index_cases 5%nat j; try discriminate Hj; injection Hj as <-;
      eexists; vm_compute; reflexivity. }
  split; [exact Hwf|]. split; [exact Hnd|]. split; [exact Hfit|].
  pose proof (proj1 update_assigns_slots_in_order
                [0; 1; 2; 3; 4]%nat [] (constructed true fiveSpots)) as H.
  cbv zeta in H.
  destruct (H Hwf Hnd) as (w' & Hup & Hsub & _).
  - rewrite Hq. discriminate.
  - exact Hvalid.
  - exact Hfit.
  - exists w'. split; [exact Hup|exact Hsub].
Defined.

(** ** The shadow map over the life of the allocator *)

Lemma alive_only_lights w w' : only_lights w w' -> alive w -> alive w'.
Proof. intros Hol. unfold alive. by rewrite (only_lights_atlas _ _ Hol). Qed.

Lemma allocateShadowMap_alive (resolution : Q) (w : World) :
  (forall m0, shadowMap (atlas w) = Some m0 -> has_target m0) ->
  exists w', allocateShadowMap resolution w = Ok tt w' /\ alive w' /\
             lights w' = lights w /\ subdivision (atlas w') = subdivision (atlas w) /\
             slots (atlas w') = slots (atlas w).
Proof.
  intros Hmap.
  destruct (allocateShadowMap_spec resolution w) as (m & created & Heq & Htarget & _).
  eexists. split; [exact Heq|]. split; [|done]. exists m. split; [done|by apply Htarget].
Qed.

Lemma updateUniforms_alive (w : World) :
  alive w -> exists w', updateUniforms w = Ok tt w' /\ alive w'.
Proof.
  intros (m & Hm & Ht). destruct (updateUniforms_ok w m Hm Ht) as (tex & params & Heq).
  eexists. split; [exact Heq|]. by exists m.
Qed.

(** With a shadow map in place, [update] keeps one in place however it ends,
    and an error it throws is not the one of a null shadow map. *)
Lemma update_alive (spotLights omniLights : list nat) (w : World) :
  alive w ->
  wp (update spotLights omniLights) (fun _ => alive)
     (fun e w' => e <> null_shadow_map /\ alive w') w.
Proof.
  intros Halive. unfold update. apply wp_bind.
  eapply wp_mono; [apply collectLights_spec| |].
  2: { intros e w' (-> & -> & _). done. }
  intros ls w0 (-> & _ & _). cbv beta. apply wp_bind.
  assert (Hpre : wp (if (0 <? length ls)%nat
                     then resolution <- gets (fun w => shadowMapResolution (atlas w)) ;;
                          allocateShadowMap resolution ;;; subdivide (length ls)
                     else ret tt)
                    (fun _ => alive) (fun e w' => e <> null_shadow_map /\ alive w') w).
  { destruct (0 <? length ls)%nat; [|by apply wp_ret].
    apply wp_bind, wp_gets, wp_bind. unfold wp at 1.
    destruct (allocateShadowMap_alive (shadowMapResolution (atlas w)) w)
      as (w1 & -> & Ha & _).
    { destruct Halive as (m & Hm & Ht). intros m0 Hm0. congruence. }
    apply wp_modify. destruct Ha as (m & Hm & Ht). exists m. split; [|done].
    cbn. unfold subdivide_this. by destruct (negb _). }
  eapply wp_mono; [exact Hpre| |done].
  intros [] w2 Halive2. cbv beta. apply wp_bind, wp_gets, wp_bind.
  eapply wp_mono; [apply assign_loop_only_lights| |].
  2: { intros e w3 [He Hol]. split; [done|]. by apply (alive_only_lights w2). }
  intros u3 w3 Hol. cbv beta. unfold wp.
  destruct (updateUniforms_alive w3 (alive_only_lights _ _ Hol Halive2)) as (w4 & -> & Ha).
  exact Ha.
Qed.

Lemma perform_alive (c : Call) (w : World) :
  is_destroy c = false -> alive w -> alive (world_after (perform c w)).
Proof.
  intros Hc Halive. destruct c; try discriminate Hc; cbn [perform].
  - pose proof (update_alive spotLights omniLights w Halive) as H. unfold wp in H.
    destruct (update spotLights omniLights w); cbn; [exact H|exact (proj2 H)].
  - destruct (allocateShadowMap_alive resolution w) as (w' & -> & Ha & _); [|exact Ha].
    destruct Halive as (m & Hm & Ht). intros m0 Hm0. congruence.
  - exact Halive.
  - destruct (updateUniforms_alive w Halive) as (w' & -> & Ha). exact Ha.
  - cbn. destruct Halive as (m & Hm & Ht). exists m. split; [|done].
    cbn. unfold subdivide_this. by destruct (negb _).
  - exact Halive.
  - exact Halive.
Qed.

Lemma constructed_alive (device_webgl2 : bool) (scene : gmap nat Light) :
  exists m, shadowMap (atlas (constructed device_webgl2 scene)) = Some m /\
            texture_width m = 1 /\ has_target m.
Proof. eexists. split; [reflexivity|]. split; [reflexivity|by eexists]. Qed.

Lemma run_alive (cs : list Call) (w : World) :
  forallb (fun c => negb (is_destroy c)) cs = true -> alive w -> alive (run cs w).
Proof.
  revert w. induction cs as [|c cs IH]; intros w Hcs Halive; [exact Halive|].
  cbn in Hcs. apply andb_prop in Hcs as [Hc Hcs]. apply negb_true_iff in Hc.
  cbn. apply IH; [exact Hcs|]. by apply perform_alive.
Qed.

(** C10 (as the claim states it, refuted).  After [destroy] the shadow map
    is null, and an [update] of a frame without lights that need shadows
    throws when [updateUniforms] reads its render targets. *)
Lemma shadowMap_null_after_destroy :
  let w := run [CallDestroy] (constructed true ∅) in
  shadowMap (atlas w) = None /\
  update [] [] w = Throw null_shadow_map w.
Proof. split; reflexivity. Qed.

(** C10 (amended).  The constructor allocates a placeholder shadow map of
    resolution 1; [allocateShadowMap] always leaves a shadow map in place;
    and as long as [destroy] is not called, whatever else is called, the
    allocator holds a shadow map with a render target, [updateUniforms]
    returns, and no [update] throws the error of a null shadow map. *)
Theorem shadowMap_present_until_destroy
    (device_webgl2 : bool) (scene : gmap nat Light) (cs : list Call) :
  forallb (fun c => negb (is_destroy c)) cs = true ->
  let w := run cs (constructed device_webgl2 scene) in
  (exists m, shadowMap (atlas (constructed device_webgl2 scene)) = Some m /\
             texture_width m = 1) /\
  (forall resolution w0,
     exists m, shadowMap (atlas (world_after (allocateShadowMap resolution w0))) = Some m) /\
  (exists m, shadowMap (atlas w) = Some m /\ has_target m) /\
  returned (updateUniforms w) /\
  (forall spotLights omniLights e w',
     update spotLights omniLights w = Throw e w' -> e <> null_shadow_map).
Proof.
  intros Hcs w.
  destruct (constructed_alive device_webgl2 scene) as (m0 & Hm0 & Hw0 & Ht0).
  assert (Halive : alive w).
  { apply run_alive; [exact Hcs|]. by exists m0. }
  split; [by exists m0|]. split.
  { intros resolution w0.
    destruct (allocateShadowMap_spec resolution w0) as (m & created & -> & _).
    by exists m. }
  split; [exact Halive|]. split.
  - destruct (updateUniforms_alive w Halive) as (w' & -> & _). exact I.
  - intros spotLights omniLights e w' Hup.
    pose proof (update_alive spotLights omniLights w Halive) as H. unfold wp in H.
    rewrite Hup in H. exact (proj1 H).
Qed.

Lemma shadowMap_present_until_destroy_witness :
  forallb (fun c => negb (is_destroy c))
          [CallUpdate [0; 1; 2; 3; 4]%nat []; SetShadowMapResolution 1024;
           CallUpdate [0; 1; 2; 3; 4]%nat []] = true /\
  returned (updateUniforms
    (run [CallUpdate [0; 1; 2; 3; 4]%nat []; SetShadowMapResolution 1024;
          CallUpdate [0; 1; 2; 3; 4]%nat []] (constructed true fiveSpots))).
Proof.
  split; [reflexivity|].
  exact (proj1 (proj2 (proj2 (proj2 (shadowMap_present_until_destroy true fiveSpots
    [CallUpdate [0; 1; 2; 3; 4]%nat []; SetShadowMapResolution 1024;
     CallUpdate [0; 1; 2; 3; 4]%nat []] eq_refl))))).
Defined.

(** * Further properties of the slot allocator *)

(** What [update] does to the world besides the lights and the uniforms:
    nothing, or the calls of [allocateShadowMap] and [subdivide]. *)
Lemma update_effect (spotLights omniLights : list nat) (w : World) :
  exists w1 ls tex params,
    world_after (update spotLights omniLights w) = with_uniforms (with_lights w1 ls) tex params /\
    (w1 = w /\
     (qualifying w spotLights = [] \/
      exists j light, spotLights !! j = Some light /\ lights w !! light = None) \/
     qualifying w spotLights <> [] /\
     exists w0, allocateShadowMap (shadowMapResolution (atlas w)) w = Ok tt w0 /\
       w1 = with_atlas w0 (subdivide_this (length (qualifying w spotLights)) (atlas w0))).
Proof.
  assert (Hself : forall w0 : World,
            w0 = with_uniforms (with_lights w0 (lights w0))
                   (shadowAtlasTexture w0) (shadowAtlasParams w0)) by (by intros []).
  unfold update, bind.
  pose proof (collectLights_spec spotLights w) as Hc. unfold wp in Hc.
  destruct (collectLights spotLights w) as [ls w0|e w0].
  2: { destruct Hc as (_ & -> & Hbad). exists w. eexists _, _, _.
       split; [apply Hself|]. left. split; [done|by right]. }
  destruct Hc as (-> & -> & _). set (ls := qualifying w spotLights).
  assert (Hrest : forall w2 : World,
    exists lm tex params,
      world_after
        (match
           for_loopM (length ls) 0
             (assignLight ls (scissorVecOf (shadowMapResolution (atlas w2)))) 0%nat w2
         with
         | Ok _ w3 => updateUniforms w3
         | Throw e w3 => Throw e w3
         end) = with_uniforms (with_lights w2 lm) tex params).
  { intros w2.
    pose proof (assign_loop_only_lights ls
                  (scissorVecOf (shadowMapResolution (atlas w2))) 0 w2) as Hloop.
    unfold wp in Hloop.
    destruct (for_loopM _ _ _ _ w2) as [u w3|e w3].
    - destruct (updateUniforms_only_uniforms w3) as (tex & params & ->).
      rewrite Hloop. by eexists _, _, _.
    - cbn. destruct Hloop as [_ ->]. exists (lights w3), (shadowAtlasTexture w2),
        (shadowAtlasParams w2). by destruct w2. }
  destruct (0 <? length ls)%nat eqn:Hlen.
  - cbn [gets].
    destruct (allocateShadowMap_spec (shadowMapResolution (atlas w)) w)
      as (m & created & Heq & _). rewrite Heq. cbn [subdivide modify gets].
    match goal with |- context [for_loopM _ _ _ _ ?w2] => destruct (Hrest w2) as (lm & tex & params & Hw) end.
    eexists _, lm, tex, params. split; [exact Hw|]. right. split.
    { apply Nat.ltb_lt in Hlen. destruct ls; [simpl in Hlen; lia|done]. }
    eexists. split; [reflexivity|]. reflexivity.
  - cbn [ret gets]. destruct (Hrest w) as (lm & tex & params & Hw).
    exists w, lm, tex, params. split; [exact Hw|]. left. split; [done|]. left.
    apply Nat.ltb_ge in Hlen. destruct ls; [done|simpl in Hlen; lia].
Qed.

(** ** The grid over the life of the allocator *)







(** ** The shadow maps over the life of the allocator *)

(** The two ways [allocateShadowMap] can go. *)
Lemma allocateShadowMap_cases (resolution : Q) (w : World) :
  (exists m, shadowMap (atlas w) = Some m /\ texture_width m == resolution /\
             allocateShadowMap resolution w = Ok tt w) \/
  ((forall m, shadowMap (atlas w) = Some m -> ~ texture_width m == resolution) /\
   allocateShadowMap resolution w
   = Ok tt (with_maps
              (with_atlas w
                 (set_atlas_shadowMap (atlas w)
                    (Some (set_cached (createAtlas (mapsCreated w) resolution SHADOW_PCF3)
                                      false))))
              (S (mapsCreated w)) (mapsDestroyed w))).
Proof.
  unfold allocateShadowMap. destruct (shadowMap (atlas w)) as [m|] eqn:Hm.
  - destruct (Qeq_bool (texture_width m) resolution) eqn:Heq; cbn.
    + left. exists m. split; [done|]. split; [by apply Qeq_bool_eq|done].
    + right. split; [|done]. intros m' [= <-] H. apply Qeq_eq_bool in H. congruence.
  - right. split; [done|reflexivity].
Qed.

Lemma allocateShadowMap_sound (resolution : Q) (w : World) :
  maps_sound w -> maps_sound (world_after (allocateShadowMap resolution w)).
Proof.
  intros Hs.
  destruct (allocateShadowMap_cases resolution w) as [(m & _ & _ & ->)|[_ ->]]; [exact Hs|].
  destruct Hs as (Hheld & Hids & Hnd). cbn. split; [|split].
  - intros m [= <-]. cbn. split; [done|]. split; [lia|]. split; [|done].
    intros Hin. apply Hids in Hin. lia.
  - intros id Hin. apply Hids in Hin. cbn. lia.
  - exact Hnd.
Qed.

Lemma maps_sound_same (w w' : World) :
  shadowMap (atlas w') = shadowMap (atlas w) -> mapsCreated w' = mapsCreated w ->
  mapsDestroyed w' = mapsDestroyed w -> maps_sound w -> maps_sound w'.
Proof. unfold maps_sound. by intros -> -> ->. Qed.

Lemma subdivide_this_shadowMap (n : nat) (this : LightTextureAtlas.t) :
  shadowMap (subdivide_this n this) = shadowMap this.
Proof. unfold subdivide_this. by destruct (negb _). Qed.

Lemma update_sound (spotLights omniLights : list nat) (w : World) :
  maps_sound w -> maps_sound (world_after (update spotLights omniLights w)).
Proof.
  intros Hs.
  destruct (update_effect spotLights omniLights w) as (w1 & ls & tex & params & -> & Hw1).
  destruct Hw1 as [[-> _]|(_ & w0 & Halloc & ->)].
  - by apply (maps_sound_same w).
  - pose proof (allocateShadowMap_sound (shadowMapResolution (atlas w)) w Hs) as H.
    rewrite Halloc in H. apply (maps_sound_same w0); [|done|done|exact H].
    cbn. apply subdivide_this_shadowMap.
Qed.

Lemma destroy_sound (w : World) : maps_sound w -> maps_sound (world_after (destroy w)).
Proof.
  intros Hs. unfold destroy.
  destruct (shadowMap (atlas w)) as [m|] eqn:Hm; [|exact Hs].
  destruct Hs as (Hheld & Hids & Hnd).
  destruct (Hheld m Hm) as (_ & Hlt & Hnot & _). cbn. split; [done|]. split.
  - intros id [->|Hin]%elem_of_cons; [exact Hlt|by apply Hids].
  - by apply NoDup_cons.
Qed.

Lemma perform_sound (c : Call) (w : World) :
  maps_sound w -> maps_sound (world_after (perform c w)).
Proof.
  intros Hs. destruct c; cbn [perform].
  - by apply update_sound.
  - by apply allocateShadowMap_sound.
  - exact Hs.
  - destruct (updateUniforms_only_uniforms w) as (tex & params & ->). exact Hs.
  - cbn. apply (maps_sound_same w); [apply subdivide_this_shadowMap|done|done|exact Hs].
  - by apply destroy_sound.
  - exact Hs.
  - exact Hs.
Qed.

Lemma run_sound (cs : list Call) (w : World) : maps_sound w -> maps_sound (run cs w).
Proof.
  revert w. induction cs as [|c cs IH]; intros w Hs; [exact Hs|].
  cbn. apply IH. by apply perform_sound.
Qed.

Lemma constructed_sound (device_webgl2 : bool) (scene : gmap nat Light) :
  maps_sound (constructed device_webgl2 scene).
Proof.
  split; [|split].
  - intros m [= <-]. cbn. split; [done|]. split; [lia|]. split; [|done]. by intros ?%elem_of_nil.
  - by intros id ?%elem_of_nil.
  - apply NoDup_nil_2.
Qed.

(** X2.  Whatever is called on an allocator after its construction, the
    shadow map it holds - if any - is one it created itself, has its
    [cached] flag cleared, carries its own render target and was not
    destroyed by the allocator; and the allocator destroys no shadow map
    twice. *)
Theorem held_shadow_map_is_live
    (device_webgl2 : bool) (scene : gmap nat Light) (cs : list Call) :
  let w := run cs (constructed device_webgl2 scene) in
  (forall m, shadowMap (atlas w) = Some m ->
     cached m = false /\ (map_id m < mapsCreated w)%nat /\
     (map_id m ∉ mapsDestroyed w) /\
     renderTargets m = [targetOf (map_id m)]) /\
  (forall id, id ∈ mapsDestroyed w -> (id < mapsCreated w)%nat) /\
  NoDup (mapsDestroyed w).
Proof. cbv zeta. apply run_sound, constructed_sound. Qed.

Lemma abandoned_same (id : nat) (w w' : World) :
  shadowMap (atlas w') = shadowMap (atlas w) -> mapsCreated w' = mapsCreated w ->
  mapsDestroyed w' = mapsDestroyed w -> abandoned id w -> abandoned id w'.
Proof. unfold abandoned. by intros -> -> ->. Qed.

Lemma allocateShadowMap_abandoned (id : nat) (resolution : Q) (w : World) :
  abandoned id w -> abandoned id (world_after (allocateShadowMap resolution w)).
Proof.
  intros Ha.
  destruct (allocateShadowMap_cases resolution w) as [(m & _ & _ & ->)|[_ ->]]; [exact Ha|].
  destruct Ha as (Hlt & Hnot & Hheld). split; [cbn; lia|]. split; [exact Hnot|].
  intros m [= <-]. cbn. lia.
Qed.

Lemma perform_abandoned (id : nat) (c : Call) (w : World) :
  abandoned id w -> abandoned id (world_after (perform c w)).
Proof.
  intros Ha. destruct c; cbn [perform].
  - destruct (update_effect spotLights omniLights w) as (w1 & ls & tex & params & -> & Hw1).
    destruct Hw1 as [[-> _]|(_ & w0 & Halloc & ->)]; [by apply (abandoned_same id w)|].
    pose proof (allocateShadowMap_abandoned id (shadowMapResolution (atlas w)) w Ha) as H.
    rewrite Halloc in H.
    apply (abandoned_same id w0); [|reflexivity|reflexivity|exact H].
    cbn. apply subdivide_this_shadowMap.
  - by apply allocateShadowMap_abandoned.
  - exact Ha.
  - destruct (updateUniforms_only_uniforms w) as (tex & params & ->). exact Ha.
  - cbn. apply (abandoned_same id w); [apply subdivide_this_shadowMap|done|done|exact Ha].
  - unfold destroy. destruct (shadowMap (atlas w)) as [m|] eqn:Hm; [|exact Ha].
    destruct Ha as (Hlt & Hnot & Hheld). split; [exact Hlt|]. split; [|done].
    cbn. intros [Heq|Hin]%elem_of_cons; [|done]. by apply (Hheld m Hm).
  - exact Ha.
  - exact Ha.
Qed.

Lemma run_abandoned (id : nat) (cs : list Call) (w : World) :
  abandoned id w -> abandoned id (run cs w).
Proof.
  revert w. induction cs as [|c cs IH]; intros w Ha; [exact Ha|].
  cbn. apply IH. by apply perform_abandoned.
Qed.

(** X3.  A shadow map that [allocateShadowMap] replaces - the allocator
    holds one of another resolution - is not destroyed by the replacement,
    and whatever is called on the allocator afterwards, [destroy] included,
    the allocator never destroys it and never holds it again. *)
Theorem replaced_shadow_map_is_never_destroyed
    (device_webgl2 : bool) (scene : gmap nat Light) (before after : list Call)
    (resolution : Q) (m : ShadowMap) :
  let w := run before (constructed device_webgl2 scene) in
  shadowMap (atlas w) = Some m -> ~ texture_width m == resolution ->
  let w' := run after (world_after (allocateShadowMap resolution w)) in
  (map_id m ∉ mapsDestroyed w') /\
  (forall m', shadowMap (atlas w') = Some m' -> map_id m' <> map_id m) /\
  (mapsCreated w < mapsCreated w')%nat.
Proof.
  intros w Hm Hne w'.
  pose proof (run_sound before _ (constructed_sound device_webgl2 scene)) as Hs.
  fold w in Hs. destruct Hs as (Hheld & _ & _).
  destruct (Hheld m Hm) as (_ & Hlt & Hnot & _).
  assert (Ha : abandoned (map_id m) (world_after (allocateShadowMap resolution w))).
  { destruct (allocateShadowMap_cases resolution w) as [(m0 & Hm0 & Heq & _)|[_ ->]].
    - rewrite Hm in Hm0. injection Hm0 as <-. contradiction.
    - split; [cbn; lia|]. split; [exact Hnot|]. intros m' [= <-]. cbn. lia. }
  assert (Hgrow : (mapsCreated w < mapsCreated (world_after (allocateShadowMap resolution w)))%nat).
  { destruct (allocateShadowMap_cases resolution w) as [(m0 & Hm0 & Heq & _)|[_ ->]].
    - rewrite Hm in Hm0. injection Hm0 as <-. contradiction.
    - cbn. lia. }
  destruct (run_abandoned _ after _ Ha) as (Hlt' & Hnot' & Hheld'). fold w' in Hlt', Hnot', Hheld'.
  split; [exact Hnot'|]. split; [exact Hheld'|].
  assert (Hmono : forall cs w0, (mapsCreated w0 <= mapsCreated (run cs w0))%nat).
  { clear. intros cs. induction cs as [|c cs IH]; intros w0; [done|]. cbn.
    etransitivity; [|apply IH]. destruct c; cbn [perform]; try done.
    - destruct (update_effect spotLights omniLights w0) as (w1 & ls & tex & params & -> & Hw1).
      destruct Hw1 as [[-> _]|(_ & w2 & Halloc & ->)]; [done|]. cbn.
      destruct (allocateShadowMap_cases (shadowMapResolution (atlas w0)) w0)
        as [(m0 & _ & _ & Heq)|[_ Heq]]; rewrite Heq in Halloc; injection Halloc as <-;
        cbn; lia.
    - destruct (allocateShadowMap_cases resolution w0) as [(m0 & _ & _ & ->)|[_ ->]]; cbn; lia.
    - destruct (updateUniforms_only_uniforms w0) as (tex & params & ->). done.
    - unfold destroy. by destruct (shadowMap (atlas w0)). }
  subst w'. pose proof (Hmono after (world_after (allocateShadowMap resolution w))). lia.
Qed.

Lemma replaced_shadow_map_is_never_destroyed_witness :
  exists m,
    shadowMap (atlas (run [] (constructed true fiveSpots))) = Some m /\
    ~ texture_width m == 2048 /\
    (map_id m ∉ mapsDestroyed
       (run [CallDestroy]
          (world_after (allocateShadowMap 2048 (run [] (constructed true fiveSpots)))))).
Proof.
  eexists. split; [reflexivity|].
  assert (Hne : ~ 1 == 2048) by (intros H; discriminate H).
  split; [exact Hne|].
  exact (proj1 (replaced_shadow_map_is_never_destroyed true fiveSpots [] [CallDestroy]
                  2048 _ eq_refl Hne)).
Defined.

(** X4.  [update] allocates a shadow map only when it has to: with a shadow
    map of the configured resolution in place, it keeps that map and creates
    none, whether it returns or throws; and after a frame with lights that
    need shadows, the map in place has the configured resolution - so a
    sequence of frames at one resolution allocates at most once. *)
Theorem update_reuses_shadow_map (spotLights omniLights : list nat) (w : World) :
  let w' := world_after (update spotLights omniLights w) in
  (forall m, shadowMap (atlas w) = Some m ->
     texture_width m == shadowMapResolution (atlas w) ->
     shadowMap (atlas w') = Some m /\ mapsCreated w' = mapsCreated w) /\
  (qualifying w spotLights <> [] ->
   (forall j light, spotLights !! j = Some light -> is_Some (lights w !! light)) ->
   exists m', shadowMap (atlas w') = Some m' /\
     texture_width m' == shadowMapResolution (atlas w') /\
     shadowMapResolution (atlas w') = shadowMapResolution (atlas w)) /\
  (mapsCreated w <= mapsCreated w' <= S (mapsCreated w))%nat /\
  mapsDestroyed w' = mapsDestroyed w.
Proof.
  cbv zeta.
  destruct (update_effect spotLights omniLights w) as (w1 & ls & tex & params & Hw' & Hw1).
  rewrite Hw'. cbn [atlas with_uniforms with_lights mapsCreated mapsDestroyed].
  assert (Hres : forall n a, shadowMapResolution (subdivide_this n a) = shadowMapResolution a).
  { intros n a. unfold subdivide_this. by destruct (negb _). }
  split; [|split; [|split]].
  - intros m Hm Hwidth. destruct Hw1 as [[-> _]|(_ & w0 & Halloc & ->)]; [done|].
    destruct (allocateShadowMap_cases (shadowMapResolution (atlas w)) w)
      as [(m0 & _ & _ & Heq)|[Hstale _]].
    + rewrite Heq in Halloc. injection Halloc as <-. cbn.
      by rewrite subdivide_this_shadowMap.
    + by destruct (Hstale m Hm).
  - intros Hne Hvalid. destruct Hw1 as [[-> Hw1]|(_ & w0 & Halloc & ->)].
    + exfalso. destruct Hw1 as [?|(j & light & Hj & Hnone)]; [done|].
      destruct (Hvalid j light Hj) as [l Hl]. congruence.
    + cbn [atlas with_atlas]. rewrite subdivide_this_shadowMap, Hres.
      destruct (allocateShadowMap_cases (shadowMapResolution (atlas w)) w)
        as [(m0 & Hm0 & Hw0 & Heq)|[_ Heq]]; rewrite Heq in Halloc; injection Halloc as <-.
      * exists m0. done.
      * eexists. split; [reflexivity|]. split; [reflexivity|]. reflexivity.
  - destruct Hw1 as [[-> _]|(_ & w0 & Halloc & ->)]; [lia|]. cbn.
    destruct (allocateShadowMap_cases (shadowMapResolution (atlas w)) w)
      as [(m0 & _ & _ & Heq)|[_ Heq]]; rewrite Heq in Halloc; injection Halloc as <-;
      cbn; lia.
  - destruct Hw1 as [[-> _]|(_ & w0 & Halloc & ->)]; [done|]. cbn.
    destruct (allocateShadowMap_cases (shadowMapResolution (atlas w)) w)
      as [(m0 & _ & _ & Heq)|[_ Heq]]; rewrite Heq in Halloc; by injection Halloc as <-.
Qed.

Lemma update_reuses_shadow_map_witness :
  qualifying (constructed true fiveSpots) [0; 1; 2; 3; 4]%nat <> [] /\
  exists m', shadowMap (atlas fiveSpotsFrame) = Some m' /\ texture_width m' == 2048.
Proof.
  assert (Hq : qualifying (constructed true fiveSpots) [0; 1; 2; 3; 4]%nat
               = [0; 1; 2; 3; 4]%nat) by (vm_compute; reflexivity).
  assert (Hne : qualifying (constructed true fiveSpots) [0; 1; 2; 3; 4]%nat <> [])
    by (rewrite Hq; discriminate).
  assert (Hvalid : forall j light, [0; 1; 2; 3; 4]%nat !! j = Some light ->
                     is_Some (lights (constructed true fiveSpots) !! light)).
  { intros j light Hj. index_cases 5%nat j; try discriminate Hj; injection Hj as <-;
      eexists; vm_compute; reflexivity. }
  split; [exact Hne|].
  pose proof (update_reuses_shadow_map [0; 1; 2; 3; 4]%nat [] (constructed true fiveSpots))
    as H.
  cbv zeta in H. destruct H as (_ & H & _).
  destruct (H Hne Hvalid) as (m' & Hm' & Hwidth & Hres).
  exists m'. split; [exact Hm'|]. rewrite Hwidth. reflexivity.
Defined.

(** X5.  [update] throws the error of a null shadow map in exactly one
    situation: the allocator holds no shadow map - it was destroyed - and no
    light of the list needs a shadow.  With at least one such light the call
    allocates a shadow map again. *)
Theorem update_null_shadow_map_iff (spotLights omniLights : list nat) (w : World) :
  (forall j light, spotLights !! j = Some light -> is_Some (lights w !! light)) ->
  (exists w', update spotLights omniLights w = Throw null_shadow_map w') <->
  shadowMap (atlas w) = None /\ qualifying w spotLights = [].
Proof.
  intros Hvalid. unfold update, bind. rewrite (collectLights_total _ _ Hvalid).
  set (ls := qualifying w spotLights).
  assert (Hrest : forall w2 : World,
    (exists w',
      match
        for_loopM (length ls) 0
          (assignLight ls (scissorVecOf (shadowMapResolution (atlas w2)))) 0%nat w2
      with
      | Ok _ w3 => updateUniforms w3
      | Throw e w3 => Throw e w3
      end = Throw null_shadow_map w') -> shadowMap (atlas w2) = None).
  { intros w2 [w' Hthrow].
    pose proof (assign_loop_only_lights ls
                  (scissorVecOf (shadowMapResolution (atlas w2))) 0 w2) as Hloop.
    unfold wp in Hloop.
    destruct (for_loopM _ _ _ _ w2) as [u w3|e w3].
    - rewrite <- (only_lights_atlas _ _ Hloop). unfold updateUniforms in Hthrow.
      destruct (shadowMap (atlas w3)) as [m|]; [|done].
      destruct (renderTargets m !! 0%nat); discriminate Hthrow.
    - injection Hthrow as -> _. by destruct Hloop as [? _]. }
  split.
  - intros Hthrow. destruct (0 <? length ls)%nat eqn:Hlen.
    + exfalso. cbn [gets] in Hthrow.
      destruct (allocateShadowMap_spec (shadowMapResolution (atlas w)) w)
        as (m & created & Heq & _). rewrite Heq in Hthrow. cbn [subdivide modify gets] in Hthrow.
      apply Hrest in Hthrow. cbn in Hthrow.
      by rewrite subdivide_this_shadowMap in Hthrow.
    + cbn [ret gets] in Hthrow. split; [by apply Hrest|].
      apply Nat.ltb_ge in Hlen. destruct ls; [done|simpl in Hlen; lia].
  - intros [Hnone Hq]. fold ls in Hq. rewrite Hq. cbn.
    exists w. unfold updateUniforms. by rewrite Hnone.
Qed.

Lemma update_null_shadow_map_iff_witness :
  exists w', update [0%nat] [] (run [CallDestroy] (constructed true (sceneOf [hiddenSpot])))
             = Throw null_shadow_map w'.
Proof.
  assert (Hvalid : forall j light, [0%nat] !! j = Some light ->
            is_Some (lights (run [CallDestroy] (constructed true (sceneOf [hiddenSpot])))
                       !! light)).
  { intros j light Hj. index_cases 1%nat j; try discriminate Hj; injection Hj as <-;
      eexists; vm_compute; reflexivity. }
  apply (proj2 (update_null_shadow_map_iff [0%nat] []
                  (run [CallDestroy] (constructed true (sceneOf [hiddenSpot]))) Hvalid)).
  split; vm_compute; reflexivity.
Defined.

Lemma allocateShadowMap_webgl2 (resolution : Q) (w : World) :
  webgl2 (world_after (allocateShadowMap resolution w)) = webgl2 w.
Proof. by destruct (allocateShadowMap_cases resolution w) as [(m & _ & _ & ->)|[_ ->]]. Qed.

Lemma perform_webgl2 (c : Call) (w : World) : webgl2 (world_after (perform c w)) = webgl2 w.
Proof.
  destruct c; cbn [perform]; try done.
  - destruct (update_effect spotLights omniLights w) as (w1 & ls & tex & params & -> & Hw1).
    destruct Hw1 as [[-> _]|(_ & w0 & Halloc & ->)]; [done|]. cbn.
    pose proof (allocateShadowMap_webgl2 (shadowMapResolution (atlas w)) w) as H.
    by rewrite Halloc in H.
  - apply allocateShadowMap_webgl2.
  - by destruct (updateUniforms_only_uniforms w) as (tex & params & ->).
  - unfold destroy. by destruct (shadowMap (atlas w)).
Qed.

Lemma run_webgl2 (cs : list Call) (w : World) : webgl2 (run cs w) = webgl2 w.
Proof.
  revert w. induction cs as [|c cs IH]; intros w; [done|].
  cbn. by rewrite IH, perform_webgl2.
Qed.

Lemma allocateShadowMap_resolved (resolution : Q) (w : World) :
  uniformsResolved (atlas (world_after (allocateShadowMap resolution w)))
  = uniformsResolved (atlas w).
Proof. by destruct (allocateShadowMap_cases resolution w) as [(m & _ & _ & ->)|[_ ->]]. Qed.

Lemma subdivide_this_resolved (n : nat) (this : LightTextureAtlas.t) :
  uniformsResolved (subdivide_this n this) = uniformsResolved this.
Proof. unfold subdivide_this. by destruct (negb _). Qed.

Lemma perform_resolved (c : Call) (w : World) :
  uniformsResolved (atlas w) = true ->
  uniformsResolved (atlas (world_after (perform c w))) = true.
Proof.
  intros Hr. destruct c; cbn [perform]; try done.
  - destruct (update_effect spotLights omniLights w) as (w1 & ls & tex & params & -> & Hw1).
    destruct Hw1 as [[-> _]|(_ & w0 & Halloc & ->)]; [done|]. cbn.
    rewrite subdivide_this_resolved.
    pose proof (allocateShadowMap_resolved (shadowMapResolution (atlas w)) w) as H.
    rewrite Halloc in H. cbn in H. by rewrite H.
  - by rewrite allocateShadowMap_resolved.
  - by destruct (updateUniforms_only_uniforms w) as (tex & params & ->).
  - cbn. by rewrite subdivide_this_resolved.
  - unfold destroy. by destruct (shadowMap (atlas w)).
Qed.

Lemma run_resolved (cs : list Call) (w : World) :
  uniformsResolved (atlas w) = true -> uniformsResolved (atlas (run cs w)) = true.
Proof.
  revert w. induction cs as [|c cs IH]; intros w Hr; [done|].
  cbn. by apply IH, perform_resolved.
Qed.

(** X6.  When [update] returns, at any point of the life of an allocator, it
    has published the two uniforms, whose ids the constructor resolved:
    [shadowAtlasParams] is the configured resolution, and
    [shadowAtlasTexture] is a buffer of the shadow map the allocator holds,
    which it has not destroyed - its depth buffer on a WebGL2 device, its
    colour buffer otherwise. *)
Theorem update_publishes_uniforms
    (device_webgl2 : bool) (scene : gmap nat Light) (cs : list Call)
    (spotLights omniLights : list nat) (w' : World) :
  update spotLights omniLights (run cs (constructed device_webgl2 scene)) = Ok tt w' ->
  uniformsResolved (atlas w') = true /\
  shadowAtlasParams w' = Some (shadowMapResolution (atlas w')) /\
  exists m, shadowMap (atlas w') = Some m /\ (map_id m ∉ mapsDestroyed w') /\
    shadowAtlasTexture w'
    = Some (if device_webgl2 then DepthBufferOf (map_id m) else ColorBufferOf (map_id m)).
Proof.
  set (w := run cs (constructed device_webgl2 scene)). intros Hup.
  assert (Hs : maps_sound w') .
  { pose proof (update_sound spotLights omniLights w
                  (run_sound cs _ (constructed_sound device_webgl2 scene))) as H.
    by rewrite Hup in H. }
  assert (Hgl : webgl2 w' = device_webgl2).
  { pose proof (perform_webgl2 (CallUpdate spotLights omniLights) w) as H.
    cbn [perform] in H. rewrite Hup in H. cbn in H. rewrite H. apply run_webgl2. }
  assert (Hr : uniformsResolved (atlas w') = true).
  { pose proof (perform_resolved (CallUpdate spotLights omniLights) w
                  (run_resolved cs (constructed device_webgl2 scene) eq_refl)) as H.
    cbn [perform] in H. by rewrite Hup in H. }
  split; [exact Hr|].
  destruct (update_returned _ _ _ _ Hup) as (w2 & u & w3 & _ & _ & _ & Huni).
  unfold updateUniforms in Huni.
  destruct (shadowMap (atlas w3)) as [m|] eqn:Hm; [|done].
  destruct (renderTargets m !! 0%nat) as [rt|] eqn:Hrt; [|done].
  injection Huni as <-. cbn in *. split; [done|]. exists m.
  destruct Hs as (Hheld & _). destruct (Hheld m Hm) as (_ & _ & Hnot & Htargets).
  split; [done|]. split; [done|]. rewrite Htargets in Hrt. injection Hrt as <-.
  rewrite Hgl. by destruct device_webgl2.
Qed.

Lemma update_publishes_uniforms_witness :
  shadowAtlasParams fiveSpotsFrame = Some 2048 /\
  shadowAtlasTexture fiveSpotsFrame = Some (DepthBufferOf 1).
Proof.
  assert (Hup : update [0; 1; 2; 3; 4]%nat [] (run [] (constructed true fiveSpots))
                = Ok tt fiveSpotsFrame) by (vm_compute; reflexivity).
  destruct (update_publishes_uniforms true fiveSpots [] _ _ _ Hup)
    as (_ & Hp & m & Hm & _ & Ht).
  split.
  - rewrite Hp. vm_compute. reflexivity.
  - rewrite Ht. evaluate (shadowMap (atlas fiveSpotsFrame)) Hc. rewrite Hc in Hm.
    injection Hm as <-. reflexivity.
Defined.

(** ** The lights [update] leaves alone *)

Lemma same_light_trans l1 l2 l3 : same_light l1 l2 -> same_light l2 l3 -> same_light l1 l3.
Proof. intros (?&?&?&?) (?&?&?&?). repeat split; congruence. Qed.

Lemma touched_refl ls w : touched ls w w.
Proof.
  split; [done|]. intros light. destruct (lights w !! light); constructor.
  apply same_light_refl.
Qed.

Lemma touched_trans ls w1 w2 w3 : touched ls w1 w2 -> touched ls w2 w3 -> touched ls w1 w3.
Proof.
  intros [Hf1 Hs1] [Hf2 Hs2]. split.
  - intros light Hnot. by rewrite Hf2, Hf1.
  - intros light. specialize (Hs1 light). specialize (Hs2 light).
    destruct Hs1 as [l1 l2 H12|]; inversion Hs2; subst; constructor.
    by apply (same_light_trans l1 l2).
Qed.

Lemma touched_insert ls w light l l' :
  light ∈ ls -> lights w !! light = Some l -> same_light l l' ->
  touched ls w (with_lights w (<[light := l']> (lights w))).
Proof.
  intros Hin Hl Hsame. split.
  - intros light' Hnot. cbn. rewrite lookup_insert_ne; [done|]. by intros <-.
  - intros light'. cbn. destruct (decide (light' = light)) as [->|Hne].
    + rewrite lookup_insert_eq, Hl. by constructor.
    + rewrite lookup_insert_ne by done. destruct (lights w !! light'); constructor.
      apply same_light_refl.
Qed.

(** A loop whose rounds are related by a preorder, however they end. *)
Lemma loop_related {St : Type} (R : World -> World -> Prop)
    (count start : nat) (body : nat -> St -> M St) (s : St) (w : World) :
  (forall w0, R w0 w0) -> (forall w1 w2 w3, R w1 w2 -> R w2 w3 -> R w1 w3) ->
  (forall i s' w', wp (body i s') (fun _ => R w') (fun _ => R w') w') ->
  wp (for_loopM count start body s) (fun _ => R w) (fun _ => R w) w.
Proof.
  intros Hrefl Htrans Hbody.
  eapply wp_mono; [apply (wp_for_loopM (fun _ _ => R w) (fun _ => R w))| |done].
  - apply Hrefl.
  - intros i s' w' _ HR. eapply wp_mono; [apply Hbody| |].
    + intros ? w'' HR'. exact (Htrans _ _ _ HR HR').
    + intros e w'' HR'. exact (Htrans _ _ _ HR HR').
  - done.
Qed.

Lemma assignFace_touched (ls : list nat) (light : nat) (sv : Vec4.t) (face u : nat)
    (w : World) :
  light ∈ ls ->
  wp (assignFace light sv face u) (fun _ => touched ls w) (fun _ => touched ls w) w.
Proof.
  intros Hin. unfold wp. rewrite assignFace_eq.
  destruct (lights w !! light) as [l|] eqn:Hl; [|apply touched_refl].
  destruct (slots (atlas w) !! u); by apply (touched_insert ls w light l).
Qed.

Lemma assignLightBody_touched (ls : list nat) (light : nat) (sv : Vec4.t) (u : nat)
    (w : World) :
  light ∈ ls ->
  wp (assignLightBody light sv u) (fun _ => touched ls w) (fun _ => touched ls w) w.
Proof.
  intros Hin. unfold assignLightBody. apply wp_bind. unfold wp at 1, deref.
  destruct (lights w !! light) as [l|] eqn:Hl; [|apply touched_refl].
  apply wp_bind, wp_gets, wp_bind, wp_modify.
  assert (H0 : touched ls w (with_lights w (<[light := set_shadowMap l (shadowMap (atlas w))]>
                                             (lights w))))
    by by apply (touched_insert ls w light l).
  eapply wp_mono.
  - apply (loop_related (touched ls)); [apply touched_refl|apply touched_trans|].
    intros. by apply assignFace_touched.
  - intros ? w' H'. exact (touched_trans _ _ _ _ H0 H').
  - intros ? w' H'. exact (touched_trans _ _ _ _ H0 H').
Qed.

Lemma assign_loop_touched (ls : list nat) (sv : Vec4.t) (u : nat) (w : World) :
  wp (for_loopM (length ls) 0 (assignLight ls sv) u)
     (fun _ => touched ls w) (fun _ => touched ls w) w.
Proof.
  apply (loop_related (touched ls)); [apply touched_refl|apply touched_trans|].
  intros i u' w'. unfold assignLight.
  destruct (ls !! i) as [light|] eqn:Hi; [|apply touched_refl].
  apply assignLightBody_touched. by apply list_elem_of_lookup_2 in Hi.
Qed.

Lemma update_touched (spotLights omniLights : list nat) (w : World) :
  touched (qualifying w spotLights) w (world_after (update spotLights omniLights w)).
Proof.
  unfold update, bind.
  pose proof (collectLights_spec spotLights w) as Hc. unfold wp in Hc.
  destruct (collectLights spotLights w) as [ls w0|e w0].
  2: { destruct Hc as (_ & -> & _). apply touched_refl. }
  destruct Hc as (-> & -> & _). set (ls := qualifying w spotLights).
  assert (Hrest : forall w2 : World, lights w2 = lights w ->
    touched ls w (world_after
        (match
           for_loopM (length ls) 0
             (assignLight ls (scissorVecOf (shadowMapResolution (atlas w2)))) 0%nat w2
         with
         | Ok _ w3 => updateUniforms w3
         | Throw e w3 => Throw e w3
         end))).
  { intros w2 Hl2.
    pose proof (assign_loop_touched ls
                  (scissorVecOf (shadowMapResolution (atlas w2))) 0 w2) as Hloop.
    unfold wp in Hloop. unfold touched in *. rewrite Hl2 in Hloop.
    destruct (for_loopM _ _ _ _ w2) as [u w3|e w3]; [|exact Hloop].
    destruct (updateUniforms_only_uniforms w3) as (tex & params & ->). exact Hloop. }
  destruct (0 <? length ls)%nat; cbn [gets ret]; [|by apply Hrest].
  destruct (allocateShadowMap_spec (shadowMapResolution (atlas w)) w)
    as (m & created & -> & _). cbn [subdivide modify gets]. by apply Hrest.
Qed.

(** X7.  However [update] ends, it leaves every light alone that it did not
    select - the lights of [omniLights], and the lights of [spotLights] that
    are invisible or cast no shadow; it adds and removes no light; and of
    the lights it selected it keeps visibility, the shadow-casting flag, the
    type and the number of cascades.  The list [omniLights] has no effect
    at all. *)
Theorem update_touches_selected_lights_only (spotLights omniLights : list nat) (w : World) :
  let w' := world_after (update spotLights omniLights w) in
  (forall light, light ∉ qualifying w spotLights -> lights w' !! light = lights w !! light) /\
  (forall light, option_Forall2 same_light (lights w !! light) (lights w' !! light)) /\
  (forall other, update spotLights other w = update spotLights omniLights w).
Proof.
  cbv zeta. destruct (update_touched spotLights omniLights w) as [Hframe Hsame].
  split; [exact Hframe|]. split; [exact Hsame|reflexivity].
Qed.

(** ** Frames with more faces than slots *)

Lemma same_light_faces l l' : same_light l l' -> numShadowFaces l' = numShadowFaces l.
Proof. intros (_ & _ & Ht & Hc). unfold numShadowFaces. by rewrite Ht, Hc. Qed.

Lemma face_loop_overflow (light : nat) (sv : Vec4.t) (n u : nat) (w : World) (l : Light) :
  lights w !! light = Some l ->
  (u <= length (slots (atlas w)) < u + n)%nat ->
  wp (for_loopM n 0 (assignFace light sv) u)
     (fun _ _ => False) (fun e w' => e = no_slot /\ only_lights w w') w.
Proof.
  intros Hl Hn.
  pose (I := fun (face u' : nat) (w' : World) =>
    u' = (u + face)%nat /\ (u + face <= length (slots (atlas w)))%nat /\
    only_lights w w' /\ is_Some (lights w' !! light)).
  eapply wp_mono; [apply (wp_for_loopM I (fun e w' => e = no_slot /\ only_lights w w'))| |done].
  - split; [lia|]. split; [lia|]. split; [apply only_lights_refl|by exists l].
  - intros face u' w' Hface (-> & Hle & Hol & [l' Hl']).
    unfold wp. rewrite assignFace_eq, Hl', (only_lights_atlas _ _ Hol).
    destruct (slots (atlas w) !! (u + face)%nat) as [slot|] eqn:Hslot.
    + apply lookup_lt_Some in Hslot. split; [lia|]. split; [lia|]. split.
      * exact (only_lights_trans _ _ _ Hol (only_lights_with _ _)).
      * cbn. rewrite lookup_insert_eq. by eexists.
    + split; [done|]. exact (only_lights_trans _ _ _ Hol (only_lights_with _ _)).
  - cbn beta. intros u' w' (_ & Hle & _). lia.
Qed.

Lemma assignLightBody_overflow (light : nat) (sv : Vec4.t) (u : nat) (w : World) (l : Light) :
  lights w !! light = Some l ->
  (u <= length (slots (atlas w)) < u + numShadowFaces l)%nat ->
  wp (assignLightBody light sv u)
     (fun _ _ => False) (fun e w' => e = no_slot /\ only_lights w w') w.
Proof.
  intros Hl Hn. unfold assignLightBody.
  apply wp_bind. unfold wp at 1, deref. rewrite Hl.
  apply wp_bind, wp_gets, wp_bind, wp_modify.
  set (l0 := set_shadowMap l (shadowMap (atlas w))).
  set (w0 := with_lights w (<[light := l0]> (lights w))).
  assert (Hl0 : lights w0 !! light = Some l0) by (cbn; by rewrite lookup_insert_eq).
  eapply wp_mono; [apply (face_loop_overflow light sv (numShadowFaces l) u w0 l0 Hl0 Hn)|done|].
  intros e w' [-> Hol]. split; [done|].
  exact (only_lights_trans _ _ _ (only_lights_with _ _) Hol).
Qed.

(** The lights of the second world are those of the first, up to the
    fields that the assignment writes. *)
Lemma same_lights_insert (w w' : World) (light : nat) (l' l'' : Light) :
  (forall k, option_Forall2 same_light (lights w !! k) (lights w' !! k)) ->
  lights w' !! light = Some l' -> same_light l' l'' ->
  forall k, option_Forall2 same_light (lights w !! k)
              (lights (with_lights w' (<[light := l'']> (lights w'))) !! k).
Proof.
  intros Hsame Hl' Hs k. cbn. destruct (decide (k = light)) as [->|Hne].
  - rewrite lookup_insert_eq. specialize (Hsame light). rewrite Hl' in Hsame.
    inversion Hsame as [l0 ? H0 Heq|]; subst. constructor.
    by apply (same_light_trans l0 l').
  - rewrite lookup_insert_ne by done. apply Hsame.
Qed.

(** The assignment loop walks the list with its repetitions: it returns
    when the faces of all entries fit the slots that are left, and throws
    at the first face past the last slot otherwise. *)
Lemma assign_loop_outcome (ls : list nat) (sv : Vec4.t) (w : World) :
  (forall j light, ls !! j = Some light -> is_Some (lights w !! light)) ->
  wp (for_loopM (length ls) 0 (assignLight ls sv) 0%nat)
     (fun _ w' => (totalFaces w ls <= length (slots (atlas w)))%nat /\ only_lights w w')
     (fun e w' => (length (slots (atlas w)) < totalFaces w ls)%nat /\
                  e = no_slot /\ only_lights w w') w.
Proof.
  intros Hvalid.
  pose (I := fun (i u' : nat) (w' : World) =>
    u' = firstSlot w ls i /\ (u' <= length (slots (atlas w)))%nat /\ only_lights w w' /\
    (forall k, option_Forall2 same_light (lights w !! k) (lights w' !! k))).
  eapply wp_mono; [apply (wp_for_loopM I
    (fun e w' => (length (slots (atlas w)) < totalFaces w ls)%nat /\
                 e = no_slot /\ only_lights w w'))| |done].
  - split; [done|]. split; [unfold firstSlot; simpl; lia|].
    split; [apply only_lights_refl|]. intros k. destruct (lights w !! k); constructor.
    apply same_light_refl.
  - intros i u' w' Hi (-> & Hle & Hol & Hsame).
    destruct (lookup_lt_is_Some_2 ls i ltac:(lia)) as [light Hlight].
    unfold assignLight. rewrite Hlight.
    destruct (Hvalid i light Hlight) as [l Hl].
    assert (Hl' : exists l', lights w' !! light = Some l' /\ same_light l l').
    { specialize (Hsame light). rewrite Hl in Hsame. inversion Hsame. by eexists. }
    destruct Hl' as (l' & Hl' & Hll').
    pose proof (only_lights_atlas _ _ Hol) as Hatlas.
    assert (Hfc : faceCountOf w light = numShadowFaces l') .
    { unfold faceCountOf. rewrite Hl. symmetry. by apply same_light_faces. }
    pose proof (firstSlot_S w ls i light Hlight) as HS.
    pose proof (firstSlot_le w ls (S i)) as Hmax.
    destruct (Nat.le_gt_cases (firstSlot w ls i + numShadowFaces l')
                              (length (slots (atlas w)))) as [Hfit|Hnofit].
    + eapply wp_mono; [apply (assignLightBody_total light sv _ w' l' Hl')| |done].
      { rewrite Hatlas. lia. }
      intros u' w'' (-> & l'' & -> & _ & Hs & _). split; [lia|]. split; [lia|]. split.
      * exact (only_lights_trans _ _ _ Hol (only_lights_with _ _)).
      * by apply (same_lights_insert w w' light l').
    + eapply wp_mono; [apply (assignLightBody_overflow light sv _ w' l' Hl')|done|].
      { rewrite Hatlas. lia. }
      intros e w'' [-> Hol']. split; [lia|]. split; [done|].
      exact (only_lights_trans _ _ _ Hol Hol').
  - cbn beta. intros u' w' (-> & Hle & Hol & _). rewrite Nat.add_0_l, firstSlot_all in Hle.
    done.
Qed.

(** X8.  On a frame with lights that need shadows - all references are
    lights, repetitions allowed - [update] returns exactly when the faces of
    the selected lights are at most the gridSize * gridSize slots of the
    grid it builds, gridSize = ceil(sqrt(number of selected lights)).  With
    more faces it throws when it reads the slot past the last one: by then
    it has rebuilt the grid, and it leaves the uniforms as they were. *)
Theorem update_returns_iff_faces_fit (spotLights omniLights : list nat) (w : World) :
  let ls := qualifying w spotLights in
  let g := ceil_sqrt (length ls) in
  well_formed (atlas w) -> ls <> [] ->
  (forall j light, spotLights !! j = Some light -> is_Some (lights w !! light)) ->
  ((exists w', update spotLights omniLights w = Ok tt w') <->
   (totalFaces w ls <= g * g)%nat) /\
  ((g * g < totalFaces w ls)%nat ->
   exists w', update spotLights omniLights w = Throw no_slot w' /\
              subdivision (atlas w') = g /\ length (slots (atlas w')) = (g * g)%nat /\
              shadowAtlasTexture w' = shadowAtlasTexture w /\
              shadowAtlasParams w' = shadowAtlasParams w).
Proof.
  intros ls g [Hgc Hmap] Hne Hvalid.
  unfold update, bind. rewrite (collectLights_total _ _ Hvalid). fold ls.
  assert (Hlen : (0 <? length ls)%nat = true).
  { apply Nat.ltb_lt. destruct ls; [done|simpl; lia]. }
  rewrite Hlen. cbn [gets].
  destruct (allocateShadowMap_spec (shadowMapResolution (atlas w)) w)
    as (m & created & -> & Htarget & _).
  specialize (Htarget Hmap). cbn [subdivide modify].
  set (w1 := with_maps _ _ _).
  set (w2 := with_atlas w1 (subdivide_this (length ls) (atlas w1))).
  assert (Hgc1 : grid_consistent (atlas w1)) by exact Hgc.
  destruct (subdivide_this_grid (length ls) (atlas w1) Hgc1) as (Hsub & Hslots & Hsm & _).
  fold g in Hsub, Hslots.
  assert (Hlights : lights w2 = lights w) by reflexivity.
  assert (Hatlas2 : atlas w2 = subdivide_this (length ls) (atlas w1)) by reflexivity.
  assert (Hvalid2 : forall j light, ls !! j = Some light -> is_Some (lights w2 !! light)).
  { intros j light Hj. rewrite Hlights.
    destruct (qualifying_is_light _ _ _ _ Hj) as (l & Hl & _). by exists l. }
  pose proof (assign_loop_outcome ls (scissorVecOf (shadowMapResolution (atlas w2)))
                w2 Hvalid2) as Hloop.
  unfold wp in Hloop.
  rewrite Hatlas2, Hslots, buildSlots_length, (totalFaces_lights w w2) in Hloop by done.
  destruct (for_loopM _ _ _ _ w2) as [u w3|e w3].
  - destruct Hloop as [Hfit Hol]. pose proof (only_lights_atlas _ _ Hol) as Hatlas3.
    assert (Hm3 : shadowMap (atlas w3) = Some m) by (rewrite Hatlas3, Hatlas2, Hsm; done).
    destruct (updateUniforms_ok w3 m Hm3 Htarget) as (tex & params & ->).
    split; [|lia]. split; [done|]. intros _. by eexists.
  - destruct Hloop as (Hover & -> & Hol). split.
    + split; [by intros [w' Hbad]|lia].
    + intros _. exists w3. split; [done|].
      rewrite (only_lights_atlas _ _ Hol), Hatlas2, Hsub, Hslots, buildSlots_length.
      split; [done|]. split; [done|]. rewrite Hol. done.
Qed.

Lemma update_returns_iff_faces_fit_witness :
  exists w', update [0%nat] [] (constructed true oneOmni) = Throw no_slot w' /\
             subdivision (atlas w') = 1%nat.
Proof.
  evaluate (atlas (constructed true oneOmni)) Hatlas.
  assert (Hwf : well_formed (atlas (constructed true oneOmni))).
  { rewrite Hatlas. split; [vm_compute; reflexivity|]. intros m Hm.
    injection Hm as <-. by eexists. }
  assert (Hq : qualifying (constructed true oneOmni) [0%nat] = [0%nat])
    by (vm_compute; reflexivity).
  assert (Hne : qualifying (constructed true oneOmni) [0%nat] <> [])
    by (rewrite Hq; discriminate).
  assert (Hvalid : forall j light, [0%nat] !! j = Some light ->
                     is_Some (lights (constructed true oneOmni) !! light)).
  { intros j light Hj. index_cases 1%nat j; try discriminate Hj; injection Hj as <-;
      eexists; vm_compute; reflexivity. }
  destruct (update_returns_iff_faces_fit [0%nat] [] (constructed true oneOmni)
              Hwf Hne Hvalid) as [_ Hthrow].
  destruct Hthrow as (w' & Hup & Hsub & _).
  - rewrite Hq. vm_compute. lia.
  - exists w'. split; [exact Hup|]. rewrite Hsub, Hq. reflexivity.
Defined.

(** ** Faces never share a slot *)






(** The conditions of the frame of the five spot lights, on a freshly
    constructed allocator. *)
Ltac five_spots_conditions Hwf Hq Hnd Hne Hfit Hvalid :=
  assert (Hwf : well_formed (atlas (constructed true fiveSpots)))
    by (split; [vm_compute; reflexivity|intros ? [= <-]; by eexists]);
  assert (Hq : qualifying (constructed true fiveSpots) [0; 1; 2; 3; 4]%nat
               = [0; 1; 2; 3; 4]%nat) by (vm_compute; reflexivity);
  assert (Hnd : NoDup (qualifying (constructed true fiveSpots) [0; 1; 2; 3; 4]%nat))
    by (rewrite Hq; apply (bool_decide_unpack _); vm_compute; exact I);
  assert (Hne : qualifying (constructed true fiveSpots) [0; 1; 2; 3; 4]%nat <> [])
    by (rewrite Hq; discriminate);
  assert (Hfit : (totalFaces (constructed true fiveSpots)
     (qualifying (constructed true fiveSpots) [0; 1; 2; 3; 4]%nat)
     <= ceil_sqrt (length (qualifying (constructed true fiveSpots) [0; 1; 2; 3; 4]%nat))
        * ceil_sqrt (length (qualifying (constructed true fiveSpots) [0; 1; 2; 3; 4]%nat)))%nat)
    by (rewrite Hq; vm_compute; lia);
  assert (Hvalid : forall j light, [0; 1; 2; 3; 4]%nat !! j = Some light ->
                     is_Some (lights (constructed true fiveSpots) !! light))
    by (intros j light Hj; index_cases 5%nat j; try discriminate Hj; injection Hj as <-;
        eexists; vm_compute; reflexivity).


(** ** Frames of spot lights *)

Lemma totalFaces_single_faces w ls :
  (forall light, light ∈ ls -> faceCountOf w light = 1%nat) -> totalFaces w ls = length ls.
Proof.
  induction ls as [|a ls IH]; intros H; simpl; [done|].
  rewrite (H a) by apply list_elem_of_here. rewrite IH; [done|].
  intros light Hin. apply H. by apply list_elem_of_further.
Qed.

Lemma firstSlot_single_faces w ls j :
  (forall light, light ∈ ls -> faceCountOf w light = 1%nat) -> (j <= length ls)%nat ->
  firstSlot w ls j = j.
Proof.
  intros H Hj. unfold firstSlot. rewrite totalFaces_single_faces.
  - rewrite length_take. lia.
  - intros light (i & Hi & _)%elem_of_take. apply H. by apply list_elem_of_lookup_2 in Hi.
Qed.

(** X10.  When all the lights that need shadows are spot lights - pairwise
    different, all of them lights - [update] returns: the grid it builds
    for n lights has at least n slots, and the light at position j of the
    selection receives slot j. *)
Theorem update_of_spot_lights_returns (spotLights omniLights : list nat) (w : World) :
  let ls := qualifying w spotLights in
  let g := ceil_sqrt (length ls) in
  well_formed (atlas w) -> NoDup ls -> ls <> [] ->
  (forall j light, spotLights !! j = Some light -> is_Some (lights w !! light)) ->
  (forall light l, light ∈ ls -> lights w !! light = Some l -> _type l = LIGHTTYPE_SPOT) ->
  (length ls <= g * g)%nat /\
  exists w',
    update spotLights omniLights w = Ok tt w' /\
    length (slots (atlas w')) = (g * g)%nat /\
    forall j light, ls !! j = Some light ->
      exists l' slot rd,
        lights w' !! light = Some l' /\ slots (atlas w') !! j = Some slot /\
        _renderData l' !! 0%nat = Some rd /\ shadowScissor rd = slot /\
        shadowViewport rd
        = Vec4.add slot (scissorVecOf (shadowMapResolution (atlas w))).
Proof.
  intros ls g Hwf Hnd Hne Hvalid Hspot.
  assert (Hone : forall light, light ∈ ls -> faceCountOf w light = 1%nat).
  { intros light Hin. unfold faceCountOf.
    destruct (list_elem_of_lookup_1 _ _ Hin) as [j Hj].
    destruct (qualifying_is_light _ _ _ _ Hj) as (l & Hl & _). rewrite Hl.
    unfold numShadowFaces. by rewrite (Hspot light l Hin Hl). }
  assert (Hlen : (length ls <= g * g)%nat).
  { destruct (ceil_sqrt_bounds (length ls)) as [_ H]; [|exact H].
    destruct ls; [done|simpl; lia]. }
  split; [exact Hlen|].
  assert (Hfit : (totalFaces w ls <= g * g)%nat) by by rewrite totalFaces_single_faces.
  destruct (update_total spotLights omniLights w Hwf Hnd Hne Hvalid Hfit)
    as (w' & m & Hup & _ & Hslots & _ & _ & _ & _ & Hfaces).
  fold ls g in Hfaces, Hslots. exists w'. split; [exact Hup|].
  split; [rewrite Hslots; apply buildSlots_length|].
  intros j light Hj. destruct (qualifying_is_light _ _ _ _ Hj) as (l & Hl & _).
  destruct (Hfaces j light l Hj Hl) as (l' & Hl' & _ & _ & Hfa & _).
  assert (Hin : light ∈ ls) by by apply list_elem_of_lookup_2 in Hj.
  assert (Htype : _type l = LIGHTTYPE_SPOT) by by apply (Hspot light l).
  assert (Hn : numShadowFaces l = 1%nat) by (unfold numShadowFaces; by rewrite Htype).
  destruct (Hfa 0%nat ltac:(lia)) as (slot & Hslot & Hrd).
  rewrite firstSlot_single_faces, Nat.add_0_r in Hslot
    by (try done; apply lookup_lt_Some in Hj; lia).
  exists l', slot, (assigned (_type l) (scissorVecOf (shadowMapResolution (atlas w))) slot).
  rewrite Hslots. split; [done|]. split; [done|]. split; [done|]. split; [done|].
  unfold assigned. cbn. rewrite Htype. by rewrite decide_True.
Qed.

Lemma update_of_spot_lights_returns_witness :
  exists w', update [0; 1; 2; 3; 4]%nat [] (constructed true fiveSpots) = Ok tt w' /\
             length (slots (atlas w')) = 9%nat.
Proof.
  five_spots_conditions Hwf Hq Hnd Hne Hfit Hvalid.
  assert (Hspot : forall light l,
            light ∈ qualifying (constructed true fiveSpots) [0; 1; 2; 3; 4]%nat ->
            lights (constructed true fiveSpots) !! light = Some l ->
            _type l = LIGHTTYPE_SPOT).
  { intros light l Hin Hl. rewrite Hq in Hin.
    repeat (apply elem_of_cons in Hin as [->|Hin]); [..|by apply elem_of_nil in Hin].
    all: match type of Hl with ?t = Some _ => evaluate t Hc; rewrite Hc in Hl end.
    all: injection Hl as <-; reflexivity. }
  destruct (update_of_spot_lights_returns [0; 1; 2; 3; 4]%nat [] (constructed true fiveSpots)
              Hwf Hnd Hne Hvalid Hspot) as (_ & w' & Hup & Hlen & _).
  exists w'. split; [exact Hup|]. rewrite Hlen, Hq. reflexivity.
Defined.

(** ** A second frame on the same scene *)

Lemma qualifies_same (w w' : World) (light : nat) :
  option_Forall2 same_light (lights w !! light) (lights w' !! light) ->
  qualifies w' light = qualifies w light /\ faceCountOf w' light = faceCountOf w light.
Proof.
  unfold qualifies, faceCountOf, needsShadow.
  intros [l l' Hsame|]; [|done]. split.
  - destruct Hsame as (-> & -> & _). done.
  - by apply same_light_faces.
Qed.

Lemma qualifying_same (w w' : World) (spotLights : list nat) :
  (forall light, option_Forall2 same_light (lights w !! light) (lights w' !! light)) ->
  qualifying w' spotLights = qualifying w spotLights.
Proof.
  intros Hsame. unfold qualifying. apply List.filter_ext.
  intros light. by destruct (qualifies_same w w' light (Hsame light)).
Qed.

Lemma totalFaces_same (w w' : World) (ls : list nat) :
  (forall light, option_Forall2 same_light (lights w !! light) (lights w' !! light)) ->
  totalFaces w' ls = totalFaces w ls.
Proof.
  intros Hsame. induction ls as [|a ls IH]; simpl; [done|].
  rewrite IH. by destruct (qualifies_same w w' a (Hsame a)) as [_ ->].
Qed.

(** The uniforms a returning [update] leaves. *)
Lemma update_returned_uniforms (spotLights omniLights : list nat) (w w' : World) :
  update spotLights omniLights w = Ok tt w' ->
  shadowAtlasParams w' = Some (shadowMapResolution (atlas w')) /\
  exists m rt, shadowMap (atlas w') = Some m /\ renderTargets m !! 0%nat = Some rt /\
    shadowAtlasTexture w' = Some (if webgl2 w' then depthBuffer rt else colorBuffer rt).
Proof.
  intros Hup.
  destruct (update_returned _ _ _ _ Hup) as (w2 & u & w3 & _ & _ & _ & Huni).
  unfold updateUniforms in Huni.
  destruct (shadowMap (atlas w3)) as [m|] eqn:Hm; [|done].
  destruct (renderTargets m !! 0%nat) as [rt|] eqn:Hrt; [|done].
  injection Huni as <-. cbn. split; [done|]. exists m, rt.
  split; [done|]. split; [done|]. by destruct (webgl2 w3).
Qed.

(** After a frame with lights that need shadows, the shadow map in place
    has the configured resolution. *)
Lemma update_active_resolution (spotLights omniLights : list nat) (w w' : World) :
  update spotLights omniLights w = Ok tt w' -> qualifying w spotLights <> [] ->
  exists m, shadowMap (atlas w') = Some m /\
            texture_width m == shadowMapResolution (atlas w).
Proof.
  intros Hup Hne.
  destruct (update_effect spotLights omniLights w) as (w1 & ls & tex & params & Hw' & Hw1).
  rewrite Hup in Hw'. cbn in Hw'. subst w'. cbn [atlas with_uniforms with_lights].
  destruct Hw1 as [[-> [Hnil|(j & light & Hj & Hnone)]]|(_ & w0 & Halloc & ->)].
  - done.
  - exfalso. unfold update, bind in Hup.
    pose proof (collectLights_spec spotLights w) as Hc. unfold wp in Hc.
    destruct (collectLights spotLights w) as [ls' w0|]; [|done].
    destruct Hc as (_ & _ & Hvalid). destruct (Hvalid j light Hj) as [l Hl]. congruence.
  - cbn [atlas with_atlas]. rewrite subdivide_this_shadowMap.
    destruct (allocateShadowMap_cases (shadowMapResolution (atlas w)) w)
      as [(m0 & Hm0 & Hw0 & Heq)|[_ Heq]]; rewrite Heq in Halloc; injection Halloc as <-.
    + by exists m0.
    + eexists. split; [reflexivity|]. reflexivity.
Qed.

Lemma light_eq (l l' : Light) :
  same_light l l' -> _shadowMap l' = _shadowMap l -> _renderData l' = _renderData l -> l' = l.
Proof.
  destruct l, l'. unfold same_light. cbn. intros (? & ? & ? & ?) ? ?. by subst.
Qed.

(** X11.  Running [update] a second time on the same scene changes nothing:
    after a frame whose faces fit the grid, the same call returns again and
    leaves the world - allocator, lights, uniforms, shadow maps - exactly
    as the first call left it. *)
Theorem update_is_idempotent (spotLights omniLights : list nat) (w : World) :
  let ls := qualifying w spotLights in
  let g := ceil_sqrt (length ls) in
  well_formed (atlas w) -> NoDup ls -> ls <> [] ->
  (forall j light, spotLights !! j = Some light -> is_Some (lights w !! light)) ->
  (totalFaces w ls <= g * g)%nat ->
  exists w', update spotLights omniLights w = Ok tt w' /\
             update spotLights omniLights w' = Ok tt w'.
Proof.
  intros ls g Hwf Hnd Hne Hvalid Hfit.
  destruct (update_total spotLights omniLights w Hwf Hnd Hne Hvalid Hfit)
    as (w' & m & Hup & Hsub & Hslots & Hm & Htarget & Hres & Hframe & Hfaces).
  fold ls g in Hsub, Hslots, Hframe, Hfaces.
  exists w'. split; [exact Hup|].
  (* the second frame selects the same lights, with the same faces *)
  pose proof (update_touched spotLights omniLights w) as [_ Hsame]. rewrite Hup in Hsame.
  cbn [world_after] in Hsame.
  pose proof (qualifying_same w w' spotLights Hsame) as Hq. fold ls in Hq.
  assert (Hwf' : well_formed (atlas w')).
  { split; [unfold grid_consistent; by rewrite Hslots, Hsub|].
    intros m0 Hm0. rewrite Hm in Hm0. by injection Hm0 as <-. }
  assert (Hvalid' : forall j light, spotLights !! j = Some light ->
                      is_Some (lights w' !! light)).
  { intros j light Hj. destruct (Hvalid j light Hj) as [l Hl].
    specialize (Hsame light). rewrite Hl in Hsame. inversion Hsame. by eexists. }
  assert (Hfit' : (totalFaces w' (qualifying w' spotLights)
                   <= ceil_sqrt (length (qualifying w' spotLights))
                      * ceil_sqrt (length (qualifying w' spotLights)))%nat).
  { rewrite Hq, (totalFaces_same w w') by done. exact Hfit. }
  assert (Hnd' : NoDup (qualifying w' spotLights)) by by rewrite Hq.
  assert (Hne' : qualifying w' spotLights <> []) by by rewrite Hq.
  destruct (update_total spotLights omniLights w' Hwf' Hnd' Hne' Hvalid' Hfit')
    as (w'' & m'' & Hup2 & _ & _ & Hm'' & _ & _ & Hframe2 & Hfaces2).
  rewrite Hq in Hframe2, Hfaces2. fold g in Hfaces2. rewrite Hup2. f_equal.
  (* the allocator is untouched *)
  destruct (update_active_resolution _ _ _ _ Hup Hne) as (m0 & Hm0 & Hwidth).
  rewrite Hm in Hm0. injection Hm0 as <-. rewrite <- Hres in Hwidth.
  destruct (update_effect spotLights omniLights w') as (w1 & lm & tex & params & Hw'' & Hw1).
  rewrite Hup2 in Hw''. cbn [world_after] in Hw''.
  assert (Hw1' : w1 = w').
  { destruct Hw1 as [[-> _]|(_ & w0 & Halloc & ->)]; [done|].
    destruct (allocateShadowMap_cases (shadowMapResolution (atlas w')) w')
      as [(m0 & _ & _ & Heq)|[Hstale _]]; [|by destruct (Hstale m Hm)].
    rewrite Heq in Halloc. injection Halloc as <-.
    unfold subdivide_this. rewrite Hq, Hsub. fold g. rewrite Nat.eqb_refl. cbn.
    by destruct w'. }
  subst w1.
  assert (Hatlas : atlas w'' = atlas w') by by rewrite Hw''.
  assert (Hgl : webgl2 w'' = webgl2 w') by by rewrite Hw''.
  (* the uniforms are the ones published before *)
  destruct (update_returned_uniforms _ _ _ _ Hup) as (Hp & mu & rt & Hmu & Hrt & Ht).
  destruct (update_returned_uniforms _ _ _ _ Hup2) as (Hp2 & mu2 & rt2 & Hmu2 & Hrt2 & Ht2).
  rewrite Hatlas in Hp2, Hmu2. rewrite Hmu in Hmu2. injection Hmu2 as <-.
  rewrite Hrt in Hrt2. injection Hrt2 as <-. rewrite Hgl, <- Ht in Ht2. rewrite <- Hp in Hp2.
  (* and so are the lights *)
  assert (Hlights : lights w'' = lights w').
  { apply map_eq. intros light.
    destruct (decide (light ∈ ls)) as [Hin|Hout].
    2: { apply Hframe2. intros j Hj. apply Hout. by apply list_elem_of_lookup_2 in Hj. }
    destruct (list_elem_of_lookup_1 _ _ Hin) as [j Hj].
    destruct (qualifying_is_light _ _ _ _ Hj) as (l & Hl & _).
    destruct (Hfaces j light l Hj Hl) as (l' & Hl' & Hsm' & Hsl & Hdone & Hrest).
    destruct (Hfaces2 j light l' Hj Hl') as (l'' & Hl'' & Hsm'' & Hsl2 & Hdone2 & Hrest2).
    rewrite Hl', Hl''. f_equal. apply light_eq; [exact Hsl2| |].
    - rewrite Hsm'', Hsm'. rewrite Hatlas in Hm''. congruence.
    - apply map_eq. intros face.
      rewrite (same_light_faces _ _ Hsl) in Hdone2, Hrest2.
      rewrite (same_light_type _ _ Hsl), Hres in Hdone2.
      assert (Hfirst : firstSlot w' ls j = firstSlot w ls j)
        by (unfold firstSlot; by apply totalFaces_same).
      rewrite Hfirst in Hdone2.
      destruct (Nat.lt_ge_cases face (numShadowFaces l)) as [Hlt|Hge].
      + destruct (Hdone face Hlt) as (slot & Hslot & ->).
        destruct (Hdone2 face Hlt) as (slot2 & Hslot2 & ->). congruence.
      + by apply Hrest2. }
  rewrite Hw''. rewrite Hw'' in Hlights, Hp2, Ht2. cbn in Hlights, Hp2, Ht2.
  subst lm tex params. by destruct w'.
Qed.

Lemma update_is_idempotent_witness :
  exists w', update [0; 1; 2; 3; 4]%nat [] (constructed true fiveSpots) = Ok tt w' /\
             update [0; 1; 2; 3; 4]%nat [] w' = Ok tt w'.
Proof.
  five_spots_conditions Hwf Hq Hnd Hne Hfit Hvalid.
  exact (update_is_idempotent [0; 1; 2; 3; 4]%nat [] (constructed true fiveSpots)
           Hwf Hnd Hne Hvalid Hfit).
Defined.

(** ** [destroy] *)

(** X12.  [destroy] releases the shadow map of the allocator once: the map
    is recorded as destroyed, the allocator holds none afterwards, and a
    second [destroy] does nothing.  It leaves the lights alone: after a
    frame that assigned slots, every light that needed a shadow still refers
    to the shadow map that was destroyed. *)
Theorem destroy_leaves_lights_referring (spotLights omniLights : list nat) (w : World) :
  let ls := qualifying w spotLights in
  let g := ceil_sqrt (length ls) in
  well_formed (atlas w) -> NoDup ls -> ls <> [] ->
  (forall j light, spotLights !! j = Some light -> is_Some (lights w !! light)) ->
  (totalFaces w ls <= g * g)%nat ->
  exists w' m,
    update spotLights omniLights w = Ok tt w' /\ shadowMap (atlas w') = Some m /\
    let w'' := world_after (destroy w') in
    returned (destroy w') /\
    shadowMap (atlas w'') = None /\
    mapsDestroyed w'' = map_id m :: mapsDestroyed w' /\
    destroy w'' = Ok tt w'' /\
    forall j light, ls !! j = Some light ->
      exists l', lights w'' !! light = Some l' /\ _shadowMap l' = Some m /\
                 map_id m ∈ mapsDestroyed w''.
Proof.
  intros ls g Hwf Hnd Hne Hvalid Hfit.
  destruct (update_total spotLights omniLights w Hwf Hnd Hne Hvalid Hfit)
    as (w' & m & Hup & _ & _ & Hm & _ & _ & _ & Hfaces).
  fold ls g in Hfaces. exists w', m. split; [exact Hup|]. split; [exact Hm|].
  assert (Hd : destroy w'
               = Ok tt (with_maps (with_atlas w' (set_atlas_shadowMap (atlas w') None))
                                  (mapsCreated w') (map_id m :: mapsDestroyed w')))
    by (unfold destroy; by rewrite Hm).
  cbv zeta. rewrite Hd. cbn [world_after returned].
  split; [done|]. split; [done|]. split; [done|]. split; [reflexivity|].
  intros j light Hj. destruct (qualifying_is_light _ _ _ _ Hj) as (l & Hl & _).
  destruct (Hfaces j light l Hj Hl) as (l' & Hl' & Hsm & _).
  exists l'. split; [done|]. split; [done|]. apply list_elem_of_here.
Qed.

Lemma destroy_leaves_lights_referring_witness :
  exists w' m,
    update [0; 1; 2; 3; 4]%nat [] (constructed true fiveSpots) = Ok tt w' /\
    shadowMap (atlas w') = Some m /\
    exists l', lights (world_after (destroy w')) !! 2%nat = Some l' /\ _shadowMap l' = Some m.
Proof.
  five_spots_conditions Hwf Hq Hnd Hne Hfit Hvalid.
  destruct (destroy_leaves_lights_referring [0; 1; 2; 3; 4]%nat []
              (constructed true fiveSpots) Hwf Hnd Hne Hvalid Hfit)
    as (w' & m & Hup & Hm & H).
  cbv zeta in H. destruct H as (_ & _ & _ & _ & Hrefs).
  assert (Hj : qualifying (constructed true fiveSpots) [0; 1; 2; 3; 4]%nat !! 2%nat
               = Some 2%nat) by (rewrite Hq; reflexivity).
  destruct (Hrefs 2%nat 2%nat Hj) as (l' & Hl' & Hsm & _).
  exists w', m. split; [exact Hup|]. split; [exact Hm|]. exists l'. by split.
Defined.

Local Close Scope js_scope.

(** * Properties of the environment atlas generator *)

Import EnvLighting.

(** ** The layout of the environment atlas *)

Lemma iterates_length {A : Type} (n : nat) (f : A -> A) (x : A) :
  length (iterates n f x) = n.
Proof. revert x. induction n as [|n IH]; intros x; simpl; [done|]. by rewrite IH. Qed.

Lemma iterates_lookup_succ {A : Type} (n : nat) (f : A -> A) (x : A) (i : nat) (r r' : A) :
  iterates n f x !! i = Some r -> iterates n f x !! S i = Some r' -> r' = f r.
Proof.
  revert x i. induction n as [|n IH]; intros x i Hi HS; [done|].
  destruct i as [|i]; simpl in *.
  - injection Hi as <-. destruct n; simpl in *; congruence.
  - exact (IH _ _ Hi HS).
Qed.

(** The mip-map loop emits the iterates of [mipAdvance]. *)
Lemma mipmap_loop (body : nat -> Pass -> Pass) source result s (n start : nat) (p : Pass) :
  (forall i q, body i q = mipmapStep source result s q) ->
  rects (calls (for_loop n start body p)) = rects (calls p) ++ iterates n mipAdvance (cur p).
Proof.
  intros Hbody. revert start p. induction n as [|n IH]; intros start p.
  - simpl. by rewrite app_nil_r.
  - cbn [for_loop]. rewrite IH, Hbody.
    unfold mipmapStep, assign, reprojectTexture, rects. cbn.
    rewrite map_app, <- app_assoc. reflexivity.
Qed.

Lemma mipmap_loop_from (body : nat -> Pass -> Pass) source result s (n start : nat)
    (r : Vec4.t) :
  (forall i q, body i q = mipmapStep source result s q) ->
  rects (calls (for_loop n start body {| cur := r; calls := [] |}))
  = iterates n mipAdvance r.
Proof. intros Hbody. by rewrite (mipmap_loop body source result s n start _ Hbody). Qed.

Lemma rects_app (cs1 cs2 : list ReprojectCall) : rects (cs1 ++ cs2) = rects cs1 ++ rects cs2.
Proof. apply map_app. Qed.

Lemma calls_assign (f : Vec4.t -> Vec4.t) (p : Pass) : calls (assign f p) = calls p.
Proof. reflexivity. Qed.

Lemma generateAtlas_rects (source : Texture) (options : option AtlasOptions) :
  let s := width (fst (generateAtlas source options)) / 512 in
  rects (snd (generateAtlas source options)) =
    iterates 6 mipAdvance (Vec4.new 0 0 (512 * s) (256 * s)) ++
    iterates 6 reflectionAdvanceRect (Vec4.new 0 (256 * s) (256 * s) (128 * s)) ++
    [Vec4.new (128 * s) ((256 + 128) * s) (64 * s) (32 * s)].
Proof. reflexivity. Qed.

Lemma for_loop_appends (body : nat -> Pass -> Pass) (n start : nat) (p : Pass) :
  (forall i q, exists rest, calls (body i q) = calls q ++ rest) ->
  exists rest, calls (for_loop n start body p) = calls p ++ rest.
Proof.
  intros Hbody. revert start p. induction n as [|n IH]; intros start p; simpl.
  - exists []. by rewrite app_nil_r.
  - destruct (IH (S start) (body start p)) as [rest Hrest].
    destruct (Hbody start p) as [rest0 Hrest0].
    exists (rest0 ++ rest). by rewrite Hrest, Hrest0, <- app_assoc.
Qed.

Lemma generatePrefilteredAtlas_rects (sources : list Texture)
    (options : option PrefilteredOptions) :
  match generatePrefilteredAtlas sources options with
  | None => sources = []
  | Some (result, cs) =>
      exists rest,
        rects cs = iterates 10 mipAdvance
                     (Vec4.new 0 0 (512 * (width result / 512)) (256 * (width result / 512)))
                   ++ rest
  end.
Proof.
  unfold generatePrefilteredAtlas. destruct (sources !! 0%nat) as [source0|] eqn:H0.
  2: { by destruct sources. }
  lazy beta iota zeta. change (Z.to_nat (calcLevels 512 0)) with 10%nat.
  assert (Hlast : forall (c : bool) src1 o1 src2 o2 result (p : Pass),
            exists rest,
              calls (if c then reprojectTexture src1 result o1 p
                     else reprojectTexture src2 result o2 p) = calls p ++ rest).
  { intros [] *; by eexists. }
  match goal with |- context [calls (if ?c then reprojectTexture ?s1 ?res ?o1 ?p
                                     else reprojectTexture ?s2 ?res ?o2 ?p)] =>
    destruct (Hlast c s1 o1 s2 o2 res p) as [restf ->]
  end.
  rewrite calls_assign.
  match goal with |- context [for_loop (length sources - 1) 1 ?b ?q] =>
    destruct (for_loop_appends b (length sources - 1) 1 q) as [rest2 ->];
      [intros i p; by eexists|]
  end.
  rewrite calls_assign. exists (rects (rest2 ++ restf)).
  rewrite <- app_assoc, rects_app.
  match goal with |- context [for_loop 10 0 ?b {| cur := ?r; calls := [] |}] =>
    rewrite (mipmap_loop_from b _ _ _ 10 0 r (fun _ _ => eq_refl))
  end.
  exact eq_refl.
Qed.

(** ** Integer rectangles *)

Lemma halve_inject (n : Z) : halve (inject_Z n) = inject_Z (Z.max 1 (n / 2)).
Proof.
  unfold halve. f_equal. f_equal. unfold Qfloor, Qmult, inject_Z. cbn.
  by rewrite Z.mul_1_r.
Qed.

Lemma halve_comp (a b : Q) : a == b -> halve a = halve b.
Proof. intros H. unfold halve. by rewrite H. Qed.

Lemma eqv_refl (r : Vec4.t) : Vec4.eqv r r.
Proof. by repeat split. Qed.

(** ** Rectangles up to numeric equality, and scaled *)

Lemma separatedb_sound (a b : Vec4.t) : Rect.separatedb a b = true -> Rect.separated a b.
Proof.
  unfold Rect.separatedb, Rect.separated. rewrite !orb_true_iff, !Qle_bool_iff. tauto.
Qed.

Lemma separated_sym (a b : Vec4.t) : Rect.separated a b -> Rect.separated b a.
Proof. unfold Rect.separated. tauto. Qed.

Lemma all_separatedb_sound (rs : list Vec4.t) :
  Rect.all_separatedb rs = true ->
  forall a b ra rb, a <> b -> rs !! a = Some ra -> rs !! b = Some rb -> Rect.separated ra rb.
Proof.
  induction rs as [|r rs IH]; intros Hall a b ra rb Hab Ha Hb; [done|].
  cbn in Hall. apply andb_prop in Hall as [Hr Hrs].
  rewrite forallb_forall in Hr.
  destruct a as [|a], b as [|b]; cbn in Ha, Hb.
  - done.
  - injection Ha as <-. apply separatedb_sound, Hr, list_elem_of_In.
    by apply list_elem_of_lookup_2 in Hb.
  - injection Hb as <-. apply separated_sym, separatedb_sound, Hr, list_elem_of_In.
    by apply list_elem_of_lookup_2 in Ha.
  - apply (IH Hrs a b); [lia|done|done].
Qed.

Lemma separated_disjoint (a b : Vec4.t) : Rect.separated a b -> ~ Rect.overlap a b.
Proof.
  unfold Rect.separated, Rect.overlap, Rect.covers.
  intros Hsep (px & py & [[? ?] [? ?]] & [[? ?] [? ?]]). lra.
Qed.

Lemma separated_scale (c : Q) (a b : Vec4.t) :
  0 < c -> Rect.separated a b -> Rect.separated (Vec4.scale c a) (Vec4.scale c b).
Proof. unfold Rect.separated, Vec4.scale. cbn. intros Hc [H|[H|[H|H]]]; nra. Qed.

Lemma separated_eqv (a a' b b' : Vec4.t) :
  Vec4.eqv a a' -> Vec4.eqv b b' -> Rect.separated a' b' -> Rect.separated a b.
Proof.
  unfold Rect.separated. intros (Hx & Hy & Hz & Hw) (Hx' & Hy' & Hz' & Hw').
  rewrite Hx, Hy, Hz, Hw, Hx', Hy', Hz', Hw'. tauto.
Qed.

Lemma withinb_sound (side : Q) (r : Vec4.t) : Rect.withinb side r = true -> Rect.within side r.
Proof.
  unfold Rect.withinb, Rect.within. rewrite !andb_true_iff, !negb_true_iff, !Qle_bool_iff.
  intros [[[[[? ?] Hz] Hw] ?] ?]. repeat split; try assumption.
  - apply Qnot_le_lt. intros H'. apply Qle_bool_iff in H'. congruence.
  - apply Qnot_le_lt. intros H'. apply Qle_bool_iff in H'. congruence.
Qed.

Lemma within_scale (c side : Q) (r : Vec4.t) :
  0 < c -> Rect.within side r -> Rect.within (c * side) (Vec4.scale c r).
Proof.
  unfold Rect.within, Vec4.scale. cbn. intros Hc (?&?&?&?&?&?). repeat split; nra.
Qed.

Lemma within_eqv (side side' : Q) (r r' : Vec4.t) :
  side == side' -> Vec4.eqv r r' -> Rect.within side' r' -> Rect.within side r.
Proof.
  unfold Rect.within. intros Hs (Hx & Hy & Hz & Hw). by rewrite Hs, Hx, Hy, Hz, Hw.
Qed.

(** ** The layout at an integer multiple of the reference size *)

Lemma inject_Z_eq (a b : Z) : a = b -> inject_Z a == inject_Z b.
Proof. by intros ->. Qed.

Lemma halve_scaled (c n : Z) :
  (1 <= c)%Z -> (1 <= n)%Z -> halve (inject_Z c * inject_Z (2 * n)) = inject_Z (c * n).
Proof.
  intros Hc Hn. rewrite <- inject_Z_mult, halve_inject. f_equal.
  replace (c * (2 * n))%Z with (c * n * 2)%Z by lia. rewrite Z.div_mul by lia. nia.
Qed.

(** One round of the mip-map loop, read backwards from the rectangle it
    produces, at [c] times the reference size. *)
Lemma mipAdvance_back (c : Z) (r : Vec4.t) (x y z w : Z) :
  (1 <= c)%Z -> (1 <= z)%Z -> (1 <= w)%Z ->
  Vec4.eqv r (Vec4.scale (inject_Z c) (Zrect (x - 2 * w) (y - 2 * w) (2 * z) (2 * w))) ->
  Vec4.eqv (mipAdvance r) (Vec4.scale (inject_Z c) (Zrect x y z w)).
Proof.
  intros Hc Hz Hw (Hx & Hy & Hz' & Hw'). cbn in *. unfold mipAdvance, Vec4.eqv. cbn.
  rewrite (halve_comp _ _ Hz'), (halve_comp _ _ Hw'), !halve_scaled by assumption.
  rewrite Hx, Hy, Hw', <- !inject_Z_mult, <- !inject_Z_plus.
  repeat split; apply inject_Z_eq; lia.
Qed.

Lemma reflectionAdvance_back (c : Z) (r : Vec4.t) (x y z w : Z) :
  (1 <= c)%Z -> (1 <= z)%Z -> (1 <= w)%Z ->
  Vec4.eqv r (Vec4.scale (inject_Z c) (Zrect x (y - 2 * w) (2 * z) (2 * w))) ->
  Vec4.eqv (reflectionAdvanceRect r) (Vec4.scale (inject_Z c) (Zrect x y z w)).
Proof.
  intros Hc Hz Hw (Hx & Hy & Hz' & Hw'). cbn in *. unfold reflectionAdvanceRect, Vec4.eqv.
  cbn. rewrite (halve_comp _ _ Hz'), (halve_comp _ _ Hw'), !halve_scaled by assumption.
  rewrite Hx, Hy, Hw', <- !inject_Z_mult, <- !inject_Z_plus.
  repeat split; apply inject_Z_eq; lia.
Qed.

Lemma Forall2_cons_intro {A B : Type} (P : A -> B -> Prop) x y l k :
  P x y -> Forall2 P l k -> Forall2 P (x :: l) (y :: k).
Proof. by constructor. Qed.

(** A component written with the scale factor [s], when [s] is the integer
    [c]: the integer expression on the right is evaluated first. *)
Ltac scaled_component Hs :=
  cbn [Vec4.x Vec4.y Vec4.z Vec4.w Vec4.scale Zrect]; rewrite ?Hs;
  match goal with
  | |- Qeq _ (Qmult (inject_Z _) (inject_Z ?e)) =>
      let v := eval vm_compute in e in change (inject_Z e) with (v # 1)
  end;
  ring.

Lemma generateAtlas_layout (source : Texture) (options : option AtlasOptions) (c : Z) :
  (1 <= c)%Z ->
  width (fst (generateAtlas source options)) == inject_Z (512 * c) ->
  Forall2 Vec4.eqv (rects (snd (generateAtlas source options)))
                   (map (Vec4.scale (inject_Z c)) layout512).
Proof.
  intros Hc Hwidth. rewrite generateAtlas_rects.
  set (s := width (fst (generateAtlas source options)) / 512).
  assert (Hs : s == inject_Z c).
  { subst s. rewrite Hwidth, inject_Z_mult. field. }
  clearbody s.
  cbn [iterates app map layout512].
  repeat apply Forall2_cons_intro; [..|constructor].
  all: repeat first [apply mipAdvance_back; [exact Hc|lia|lia|]
                    |apply reflectionAdvance_back; [exact Hc|lia|lia|]].
  all: unfold Vec4.eqv; repeat apply conj.
  all: scaled_component Hs.
Qed.

(** ** Theorems about the environment atlas *)

(** C3 (as the claim states it, refuted).  In the default pass the first
    rectangle is 512 wide and 256 high; the second one starts at x = 256 and
    y = 256, not at x = 512 and y = 512. *)
Lemma mip_advance_is_not_by_width :
  exists r0 r1,
    rects (snd (generateAtlas aSource None)) !! 0%nat = Some r0 /\
    rects (snd (generateAtlas aSource None)) !! 1%nat = Some r1 /\
    Rect.width r0 == 512 /\ Rect.height r0 == 256 /\
    ~ Vec4.x r1 == Vec4.x r0 + Rect.width r0 /\
    ~ Vec4.y r1 == Vec4.y r0 + Rect.width r0.
Proof.
  eexists _, _. split; [vm_compute; reflexivity|]. split; [vm_compute; reflexivity|].
  repeat split; vm_compute; discriminate.
Qed.

(** C3 (amended).  In the mip-map loop of [generateAtlas] (six rounds) and of
    [generatePrefilteredAtlas] (ten rounds), each rectangle after the first
    is the previous one moved diagonally by its height - the component [w]
    of the vector, added to both x and y - with width and height halved,
    floored and clamped to at least 1. *)
Theorem mip_advance_by_height :
  (forall (source : Texture) (options : option AtlasOptions) (i : nat) (r r' : Vec4.t),
     (S i < 6)%nat ->
     rects (snd (generateAtlas source options)) !! i = Some r ->
     rects (snd (generateAtlas source options)) !! S i = Some r' ->
     r' = Vec4.new (Vec4.x r + Rect.height r) (Vec4.y r + Rect.height r)
                   (halve (Rect.width r)) (halve (Rect.height r))) /\
  (forall (sources : list Texture) (options : option PrefilteredOptions)
          (result : Texture) (cs : list ReprojectCall) (i : nat) (r r' : Vec4.t),
     generatePrefilteredAtlas sources options = Some (result, cs) ->
     (S i < 10)%nat ->
     rects cs !! i = Some r -> rects cs !! S i = Some r' ->
     r' = Vec4.new (Vec4.x r + Rect.height r) (Vec4.y r + Rect.height r)
                   (halve (Rect.width r)) (halve (Rect.height r))).
Proof.
  split.
  - intros source options i r r' Hi. rewrite generateAtlas_rects.
    rewrite !lookup_app_l by (rewrite iterates_length; lia).
    intros Hr Hr'. exact (iterates_lookup_succ _ _ _ _ _ _ Hr Hr').
  - intros sources options result cs i r r' Hgen Hi.
    pose proof (generatePrefilteredAtlas_rects sources options) as H.
    rewrite Hgen in H. destruct H as [rest ->].
    rewrite !lookup_app_l by (rewrite iterates_length; lia).
    intros Hr Hr'. exact (iterates_lookup_succ _ _ _ _ _ _ Hr Hr').
Qed.

Lemma mip_advance_by_height_witness :
  (1 < 6)%nat /\
  (forall r r',
     rects (snd (generateAtlas aSource None)) !! 0%nat = Some r ->
     rects (snd (generateAtlas aSource None)) !! 1%nat = Some r' ->
     Vec4.x r' = Vec4.x r + Rect.height r) /\
  exists result cs,
    generatePrefilteredAtlas (replicate 6 aSource) None = Some (result, cs) /\
    (8 < 10)%nat /\
    forall r r',
      rects cs !! 7%nat = Some r -> rects cs !! 8%nat = Some r' ->
      Vec4.y r' = Vec4.y r + Rect.height r.
Proof.
  assert (Hlt : (1 < 6)%nat) by lia. assert (Hlt' : (8 < 10)%nat) by lia.
  split; [exact Hlt|]. split.
  - intros r r' Hr Hr'.
    rewrite (proj1 mip_advance_by_height aSource None 0%nat r r' Hlt Hr Hr').
    reflexivity.
  - eexists _, _. split; [vm_compute; reflexivity|]. split; [exact Hlt'|].
    intros r r' Hr Hr'.
    rewrite (proj2 mip_advance_by_height (replicate 6 aSource) None _ _ 7%nat r r'
               ltac:(vm_compute; reflexivity) Hlt' Hr Hr').
    reflexivity.
Defined.

Lemma size_not_zero (n : Z) : (0 < n)%Z -> Qeq_bool (inject_Z n) 0 = false.
Proof.
  intros Hn. apply not_true_is_false. intros H. apply Qeq_bool_eq in H.
  unfold Qeq in H. cbn in H. lia.
Qed.

Lemma sized_width (source : Texture) (n : Z) :
  (0 < n)%Z ->
  width (fst (generateAtlas source (sized (inject_Z n)))) = inject_Z n /\
  height (fst (generateAtlas source (sized (inject_Z n)))) = inject_Z n.
Proof.
  intros Hn. unfold generateAtlas. cbn [fst opt sized target size].
  unfold newAtlasTexture. cbn [width height num_or]. by rewrite size_not_zero.
Qed.

Lemma rects_length (cs : list ReprojectCall) : length (rects cs) = length cs.
Proof. apply length_map. Qed.

(** Whatever is numerically the reference layout scaled by an integer is
    pairwise disjoint and lies in the scaled square. *)
Lemma scaled_layout_properties (rs : list Vec4.t) (c : Z) (size : Q) :
  (1 <= c)%Z -> size == inject_Z c * 512 ->
  Forall2 Vec4.eqv rs (map (Vec4.scale (inject_Z c)) layout512) ->
  length rs = 13%nat /\
  Rect.pairwise_disjoint rs /\
  (forall i r, rs !! i = Some r ->
     Rect.within size r /\ Rect.within 1 (Vec4.scale (1 / size) r)).
Proof.
  intros Hc1 Hsize Hlayout.
  assert (Hc : 0 < inject_Z c).
  { change 0 with (inject_Z 0). rewrite <- Zlt_Qlt. lia. }
  assert (Hsize0 : 0 < size) by (rewrite Hsize; nra).
  assert (Hsep : Rect.all_separatedb layout512 = true) by (vm_compute; reflexivity).
  assert (Hall : forallb (Rect.withinb 512) layout512 = true) by (vm_compute; reflexivity).
  split.
  { pose proof (Forall2_length _ _ _ Hlayout) as Hlen. by rewrite length_map in Hlen. }
  split.
  - intros a b ra rb Ha Hb Hab.
    destruct (Forall2_lookup_l _ _ _ _ _ Hlayout Ha) as (la' & Hla' & Hea).
    destruct (Forall2_lookup_l _ _ _ _ _ Hlayout Hb) as (lb' & Hlb' & Heb).
    rewrite list_lookup_fmap in Hla', Hlb'.
    destruct (layout512 !! a) as [la|] eqn:Hla; [|done].
    destruct (layout512 !! b) as [lb|] eqn:Hlb; [|done].
    injection Hla' as <-. injection Hlb' as <-.
    apply separated_disjoint, (separated_eqv _ _ _ _ Hea Heb), separated_scale; [exact Hc|].
    apply (all_separatedb_sound layout512 Hsep a b); assumption.
  - intros i r Hr.
    destruct (Forall2_lookup_l _ _ _ _ _ Hlayout Hr) as (l' & Hl' & He).
    rewrite list_lookup_fmap in Hl'.
    destruct (layout512 !! i) as [l|] eqn:Hl; [|done]. injection Hl' as <-.
    assert (Hin : Rect.within size r).
    { apply (within_eqv _ _ _ _ Hsize He), within_scale; [exact Hc|].
      apply withinb_sound.
      rewrite forallb_forall in Hall. apply Hall, list_elem_of_In.
      by apply list_elem_of_lookup_2 in Hl. }
    split; [exact Hin|].
    assert (Hinv : 0 < 1 / size).
    { apply Qlt_shift_div_l; [exact Hsize0|]. rewrite Qmult_0_l. reflexivity. }
    apply (within_eqv 1 (1 / size * size) _ (Vec4.scale (1 / size) r));
      [field; lra|apply eqv_refl|].
    by apply within_scale.
Qed.

(** C4.  At an atlas size of 512 times a power of two, the thirteen
    rectangles of a pass with default options - six mip levels, six
    reflection levels, the ambient patch - are pairwise disjoint, and each
    lies in the square of the atlas, that is, in the unit square once
    divided by the size. *)
Theorem atlas_layout_disjoint_in_bounds (source : Texture) (k : nat) :
  let size := inject_Z (512 * 2 ^ Z.of_nat k) in
  let atlas := generateAtlas source (sized size) in
  width (fst atlas) = size /\ height (fst atlas) = size /\
  length (snd atlas) = 13%nat /\
  Rect.pairwise_disjoint (rects (snd atlas)) /\
  (forall i r, rects (snd atlas) !! i = Some r ->
     Rect.within size r /\ Rect.within 1 (Vec4.scale (1 / size) r)).
Proof.
  cbv zeta.
  assert (Hpow : (1 <= 2 ^ Z.of_nat k)%Z) by (pose proof (Z.pow_pos_nonneg 2 (Z.of_nat k)); lia).
  destruct (sized_width source (512 * 2 ^ Z.of_nat k) ltac:(lia)) as [Hw Hh].
  split; [exact Hw|]. split; [exact Hh|]. rewrite <- rects_length.
  apply (scaled_layout_properties _ (2 ^ Z.of_nat k)); [exact Hpow| |].
  - rewrite inject_Z_mult. change (inject_Z 512) with 512. ring.
  - apply generateAtlas_layout; [exact Hpow|]. by rewrite Hw.
Qed.

(** C7.  With default options, going from size 512 to size 1024 leaves the
    number of invocations at thirteen, multiplies x, y, width and height of
    every rectangle by 2, and keeps source, sample count, distribution and
    specular power of every invocation. *)
Theorem doubling_size_doubles_rects (source : Texture) :
  let small := generateAtlas source None in
  let large := generateAtlas source (sized 1024) in
  width (fst small) = 512 /\ width (fst large) = 1024 /\
  snd (generateAtlas source (sized 512)) = snd small /\
  length (snd small) = 13%nat /\ length (snd large) = 13%nat /\
  Forall2 (fun a b =>
             Vec4.eqv (rect (call_options b)) (Vec4.scale 2 (rect (call_options a))) /\
             numSamples (call_options b) = numSamples (call_options a) /\
             distribution (call_options b) = distribution (call_options a) /\
             specularPower (call_options b) = specularPower (call_options a) /\
             call_source b = call_source a)
          (snd small) (snd large).
Proof.
  cbv zeta. split; [reflexivity|]. split; [reflexivity|]. split; [reflexivity|].
  split; [reflexivity|]. split; [reflexivity|].
  set (small := snd (generateAtlas source None)). vm_compute in small.
  set (large := snd (generateAtlas source (sized 1024))). vm_compute in large.
  subst small large.
  repeat apply Forall2_cons_intro; [..|constructor];
    (split; [vm_compute; repeat split; reflexivity|repeat split; reflexivity]).
Qed.

(** * Further properties of the environment atlas generator *)

(** ** The invocations in closed form *)

Lemma mipmap_loop_calls (body : nat -> Pass -> Pass) source result s (n start : nat)
    (p : Pass) :
  (forall i q, body i q = mipmapStep source result s q) ->
  calls (for_loop n start body p)
  = calls p ++ map (copyCall source result s) (iterates n mipAdvance (cur p)).
Proof.
  intros Hbody. revert start p. induction n as [|n IH]; intros start p.
  - simpl. by rewrite app_nil_r.
  - cbn [for_loop]. rewrite IH, Hbody.
    unfold mipmapStep, assign, reprojectTexture. cbn.
    rewrite <- app_assoc. reflexivity.
Qed.

Lemma reflection_loop_calls (body : nat -> Pass -> Pass) (sources : list Texture) result s
    (n start : nat) (p : Pass) :
  (forall i q, body i q
     = reflectionAdvance (reprojectTexture (sources !! i) result
         {| numSamples := 1; distribution := None; specularPower := None;
            rect := cur q; seamPixels := s |} q)) ->
  calls (for_loop n start body p)
  = calls p ++ zip_with (fun i r => copyCall (sources !! i) result s r)
                        (seq start n) (iterates n reflectionAdvanceRect (cur p)).
Proof.
  intros Hbody. revert start p. induction n as [|n IH]; intros start p.
  - simpl. by rewrite app_nil_r.
  - cbn [for_loop]. rewrite IH, Hbody.
    unfold reflectionAdvance, assign, reprojectTexture. cbn.
    rewrite <- app_assoc. reflexivity.
Qed.

(** The invocations of [generatePrefilteredAtlas] in closed form. *)
Lemma generatePrefilteredAtlas_calls (sources : list Texture)
    (options : option PrefilteredOptions) :
  match generatePrefilteredAtlas sources options with
  | None => sources = []
  | Some (result, cs) =>
      let s := width result / 512 in
      cs = map (copyCall (sources !! 0%nat) result s) (iterates 10 mipAdvance (mipStart s)) ++
           zip_with (fun i r => copyCall (sources !! i) result s r)
                    (seq 1 (length sources - 1))
                    (iterates (length sources - 1) reflectionAdvanceRect (reflectionStart s)) ++
           [ if default false (opt options legacyAmbient)
             then copyCall (sources !! 5%nat) result s (ambientRect s)
             else {| call_source := sources !! 0%nat; call_target := result;
                     call_options :=
                       {| numSamples := num_or (opt options numSamples_opt) 2048;
                          distribution := Some "lambert"%string; specularPower := None;
                          rect := ambientRect s; seamPixels := s |} |} ]
  end.
Proof.
  unfold generatePrefilteredAtlas. destruct (sources !! 0%nat) as [source0|] eqn:H0.
  2: { by destruct sources. }
  lazy beta iota zeta. change (Z.to_nat (calcLevels 512 0)) with 10%nat.
  match goal with |- context [for_loop 10 0 ?b ?q] =>
    pose proof (mipmap_loop_calls b _ _ _ 10 0 q (fun _ _ => eq_refl)) as Hmip
  end.
  match goal with |- context [for_loop (length sources - 1) 1 ?b ?q] =>
    pose proof (reflection_loop_calls b sources _ _ (length sources - 1) 1 q
                  (fun _ _ => eq_refl)) as Hrefl
  end.
  rewrite calls_assign, Hmip in Hrefl. cbn [calls cur app assign] in Hrefl.
  destruct (default false (opt options legacyAmbient));
    unfold reprojectTexture at 1; cbn [calls cur assign]; rewrite Hrefl, <- app_assoc;
    reflexivity.
Qed.

Lemma lookup_seq_Some (start n i x : nat) : seq start n !! i = Some x -> x = (start + i)%nat.
Proof. intros H. apply lookup_seq in H. lia. Qed.

(** X13.  [generatePrefilteredAtlas] fails on an empty array of sources.
    Otherwise it invokes the resampler length + 10 times, always on the
    returned texture and with the seam width / 512: ten copies of
    sources[0] for the mip levels, one copy of sources[i] for every
    i = 1 .. length - 1, and the ambient patch - a copy of sources[5] with
    [legacyAmbient], which is undefined when there are fewer than six
    sources, and a Lambert convolution of sources[0] otherwise. *)
Theorem generatePrefilteredAtlas_invocations (sources : list Texture)
    (options : option PrefilteredOptions) :
  (generatePrefilteredAtlas sources options = None <-> sources = []) /\
  forall result cs, generatePrefilteredAtlas sources options = Some (result, cs) ->
    length cs = (length sources + 10)%nat /\
    (forall i c, cs !! i = Some c ->
       call_target c = result /\ seamPixels (call_options c) = width result / 512) /\
    (forall i c, (i < 10)%nat -> cs !! i = Some c ->
       call_source c = sources !! 0%nat /\ numSamples (call_options c) = 1 /\
       distribution (call_options c) = None) /\
    (forall i c, (1 <= i < length sources)%nat -> cs !! (9 + i)%nat = Some c ->
       call_source c = sources !! i /\ numSamples (call_options c) = 1 /\
       distribution (call_options c) = None) /\
    (forall c, cs !! (length sources + 9)%nat = Some c ->
       if default false (opt options legacyAmbient)
       then call_source c = sources !! 5%nat /\ numSamples (call_options c) = 1 /\
            distribution (call_options c) = None /\
            ((length sources < 6)%nat -> call_source c = None)
       else call_source c = sources !! 0%nat /\
            numSamples (call_options c) = num_or (opt options numSamples_opt) 2048 /\
            distribution (call_options c) = Some "lambert"%string).
Proof.
  pose proof (generatePrefilteredAtlas_calls sources options) as Hcalls.
  split.
  { split.
    - intros Hnone. by rewrite Hnone in Hcalls.
    - by intros ->. }
  intros result cs Hgen. rewrite Hgen in Hcalls. cbv zeta in Hcalls.
  set (s := width result / 512) in *.
  assert (Hn : (1 <= length sources)%nat).
  { destruct sources; [discriminate Hgen|simpl; lia]. }
  set (mips := map (copyCall (sources !! 0%nat) result s) (iterates 10 mipAdvance (mipStart s)))
    in *.
  set (refls := zip_with (fun i r => copyCall (sources !! i) result s r)
                  (seq 1 (length sources - 1))
                  (iterates (length sources - 1) reflectionAdvanceRect (reflectionStart s)))
    in *.
  assert (Hmips : length mips = 10%nat) by reflexivity.
  assert (Hrefls : length refls = (length sources - 1)%nat).
  { subst refls. rewrite length_zip_with, length_seq, iterates_length. lia. }
  assert (Hmip : forall i c, mips !! i = Some c ->
            c = copyCall (sources !! 0%nat) result s (rect (call_options c))).
  { intros i c Hc. subst mips. rewrite list_lookup_fmap in Hc.
    destruct (iterates 10 mipAdvance (mipStart s) !! i); [|done]. by injection Hc as <-. }
  assert (Hrefl : forall i c, refls !! i = Some c ->
            c = copyCall (sources !! S i) result s (rect (call_options c))).
  { intros i c Hc. subst refls. apply lookup_zip_with_Some in Hc as (x & r & -> & Hx & _).
    apply lookup_seq_Some in Hx. by subst x. }
  subst cs. split; [|split; [|split; [|split]]].
  - rewrite !length_app, Hmips, Hrefls. simpl. lia.
  - intros i c Hc. apply lookup_app_Some in Hc as [Hc|[_ Hc]].
    { by rewrite (Hmip _ _ Hc). }
    apply lookup_app_Some in Hc as [Hc|[_ Hc]].
    { by rewrite (Hrefl _ _ Hc). }
    apply list_lookup_singleton_Some in Hc as [_ <-].
    by destruct (default false (opt options legacyAmbient)).
  - intros i c Hi Hc. rewrite lookup_app_l in Hc by lia. by rewrite (Hmip _ _ Hc).
  - intros i c Hi Hc. rewrite lookup_app_r in Hc by lia.
    rewrite lookup_app_l in Hc by lia. rewrite (Hrefl _ _ Hc).
    replace (S (9 + i - length mips)) with i by lia. done.
  - intros c Hc. rewrite lookup_app_r in Hc by lia. rewrite lookup_app_r in Hc by lia.
    apply list_lookup_singleton_Some in Hc as [_ <-].
    destruct (default false (opt options legacyAmbient)); [|done].
    repeat split. intros Hlt. cbn. apply lookup_ge_None. lia.
Qed.

Lemma generatePrefilteredAtlas_invocations_witness :
  exists result cs,
    generatePrefilteredAtlas (replicate 6 aSource) None = Some (result, cs) /\
    length cs = 16%nat.
Proof.
  eexists _, _. split; [vm_compute; reflexivity|].
  exact (proj1 (proj2 (generatePrefilteredAtlas_invocations (replicate 6 aSource) None)
                  _ _ ltac:(vm_compute; reflexivity))).
Defined.

(** ** The layout of six prefiltered sources *)

Lemma rects_copyCalls source result s (rs : list Vec4.t) :
  rects (map (copyCall source result s) rs) = rs.
Proof. unfold rects. rewrite map_map. cbn. apply List.map_id. Qed.

Lemma rects_zip_copyCalls (sources : list Texture) result s (idx : list nat) (rs : list Vec4.t) :
  length idx = length rs ->
  rects (zip_with (fun i r => copyCall (sources !! i) result s r) idx rs) = rs.
Proof.
  revert rs. induction idx as [|i idx IH]; intros [|r rs] Hlen; try done.
  cbn. f_equal. apply IH. by injection Hlen.
Qed.

(** The rectangles of [generatePrefilteredAtlas] in closed form. *)
Lemma generatePrefilteredAtlas_all_rects (sources : list Texture)
    (options : option PrefilteredOptions) (result : Texture) (cs : list ReprojectCall) :
  generatePrefilteredAtlas sources options = Some (result, cs) ->
  let s := width result / 512 in
  rects cs = iterates 10 mipAdvance (mipStart s) ++
             iterates (length sources - 1) reflectionAdvanceRect (reflectionStart s) ++
             [ambientRect s].
Proof.
  intros Hgen s. pose proof (generatePrefilteredAtlas_calls sources options) as Hcalls.
  rewrite Hgen in Hcalls. cbv zeta in Hcalls. fold s in Hcalls. rewrite Hcalls.
  rewrite !rects_app, rects_copyCalls, rects_zip_copyCalls
    by (by rewrite length_seq, iterates_length).
  f_equal. f_equal. by destruct (default false (opt options legacyAmbient)).
Qed.

Lemma prefilteredSized_result (sources : list Texture) (n : Z) legacy samples :
  (0 < n)%Z -> sources <> [] ->
  exists result cs,
    generatePrefilteredAtlas sources (prefilteredSized (inject_Z n) legacy samples)
    = Some (result, cs) /\ width result = inject_Z n /\ height result = inject_Z n.
Proof.
  intros Hn Hne. destruct sources as [|source0 rest]; [done|].
  unfold generatePrefilteredAtlas. cbn [lookup list_lookup]. lazy beta iota zeta.
  eexists _, _. split; [reflexivity|].
  cbn [opt prefilteredSized p_target p_size]. unfold newAtlasTexture. cbn [width height num_or].
  by rewrite size_not_zero.
Qed.

(** Whatever is numerically a reference layout scaled by an integer is
    pairwise disjoint and lies in the scaled square. *)
Lemma scaled_reference_properties (ref rs : list Vec4.t) (side size : Q) (c : Z) :
  (1 <= c)%Z -> size == inject_Z c * side ->
  Rect.all_separatedb ref = true -> forallb (Rect.withinb side) ref = true ->
  Forall2 Vec4.eqv rs (map (Vec4.scale (inject_Z c)) ref) ->
  Rect.pairwise_disjoint rs /\ (forall i r, rs !! i = Some r -> Rect.within size r).
Proof.
  intros Hc1 Hsize Hsep Hall Hlayout.
  assert (Hc : 0 < inject_Z c).
  { change 0 with (inject_Z 0). rewrite <- Zlt_Qlt. lia. }
  split.
  - intros a b ra rb Ha Hb Hab.
    destruct (Forall2_lookup_l _ _ _ _ _ Hlayout Ha) as (la' & Hla' & Hea).
    destruct (Forall2_lookup_l _ _ _ _ _ Hlayout Hb) as (lb' & Hlb' & Heb).
    rewrite list_lookup_fmap in Hla', Hlb'.
    destruct (ref !! a) as [la|] eqn:Hla; [|done].
    destruct (ref !! b) as [lb|] eqn:Hlb; [|done].
    injection Hla' as <-. injection Hlb' as <-.
    apply separated_disjoint, (separated_eqv _ _ _ _ Hea Heb), separated_scale; [exact Hc|].
    apply (all_separatedb_sound ref Hsep a b); assumption.
  - intros i r Hr.
    destruct (Forall2_lookup_l _ _ _ _ _ Hlayout Hr) as (l' & Hl' & He).
    rewrite list_lookup_fmap in Hl'.
    destruct (ref !! i) as [l|] eqn:Hl; [|done]. injection Hl' as <-.
    apply (within_eqv _ _ _ _ Hsize He), within_scale; [exact Hc|].
    apply withinb_sound.
    rewrite forallb_forall in Hall. apply Hall, list_elem_of_In.
    by apply list_elem_of_lookup_2 in Hl.
Qed.

Lemma prefiltered_layout_scaled (s : Q) (c : Z) :
  (1 <= c)%Z -> s == 2 * inject_Z c ->
  Forall2 Vec4.eqv
    (iterates 10 mipAdvance (mipStart s) ++
     iterates 5 reflectionAdvanceRect (reflectionStart s) ++ [ambientRect s])
    (map (Vec4.scale (inject_Z c)) prefilteredLayout1024).
Proof.
  intros Hc Hs.
  cbn [iterates app map prefilteredLayout1024].
  repeat apply Forall2_cons_intro; [..|constructor].
  all: repeat first [apply mipAdvance_back; [exact Hc|lia|lia|]
                    |apply reflectionAdvance_back; [exact Hc|lia|lia|]].
  all: unfold Vec4.eqv, mipStart, reflectionStart, ambientRect; repeat apply conj.
  all: scaled_component Hs.
Qed.

(** X14.  At an atlas size of 512 times a power of two, the sixteen
    rectangles that [generatePrefilteredAtlas] writes for six sources - ten
    mip levels, five reflection levels, the ambient patch - are pairwise
    disjoint, and each lies in the square of the atlas. *)
Theorem prefiltered_layout_disjoint_in_bounds (sources : list Texture) (k : nat)
    (legacy : option bool) (samples : option Q) :
  length sources = 6%nat ->
  let size := inject_Z (512 * 2 ^ Z.of_nat k) in
  exists result cs,
    generatePrefilteredAtlas sources (prefilteredSized size legacy samples)
    = Some (result, cs) /\
    width result = size /\ height result = size /\ length cs = 16%nat /\
    Rect.pairwise_disjoint (rects cs) /\
    (forall i r, rects cs !! i = Some r -> Rect.within size r).
Proof.
  intros Hsix size.
  assert (Hpow : (1 <= 2 ^ Z.of_nat k)%Z) by (pose proof (Z.pow_pos_nonneg 2 (Z.of_nat k)); lia).
  assert (Hne : sources <> []) by (intros ->; discriminate Hsix).
  destruct (prefilteredSized_result sources (512 * 2 ^ Z.of_nat k) legacy samples
              ltac:(lia) Hne) as (result & cs & Hgen & Hw & Hh).
  exists result, cs. fold size in Hgen, Hw, Hh.
  split; [exact Hgen|]. split; [exact Hw|]. split; [exact Hh|].
  pose proof (generatePrefilteredAtlas_all_rects _ _ _ _ Hgen) as Hrects.
  cbv zeta in Hrects. rewrite Hsix, Hw in Hrects. change (6 - 1)%nat with 5%nat in Hrects.
  split.
  { rewrite <- rects_length, Hrects, !length_app, !iterates_length. reflexivity. }
  rewrite Hrects. destruct k as [|k].
  - subst size.
    assert (Hsep : Rect.all_separatedb
              (iterates 10 mipAdvance (mipStart (inject_Z (512 * 2 ^ Z.of_nat 0) / 512)) ++
               iterates 5 reflectionAdvanceRect
                 (reflectionStart (inject_Z (512 * 2 ^ Z.of_nat 0) / 512)) ++
               [ambientRect (inject_Z (512 * 2 ^ Z.of_nat 0) / 512)]) = true)
      by (vm_compute; reflexivity).
    assert (Hin : forallb (Rect.withinb (inject_Z (512 * 2 ^ Z.of_nat 0)))
              (iterates 10 mipAdvance (mipStart (inject_Z (512 * 2 ^ Z.of_nat 0) / 512)) ++
               iterates 5 reflectionAdvanceRect
                 (reflectionStart (inject_Z (512 * 2 ^ Z.of_nat 0) / 512)) ++
               [ambientRect (inject_Z (512 * 2 ^ Z.of_nat 0) / 512)]) = true)
      by (vm_compute; reflexivity).
    split.
    + intros a b ra rb Ha Hb Hab.
      by apply separated_disjoint, (all_separatedb_sound _ Hsep a b).
    + intros i r Hr. apply withinb_sound. rewrite forallb_forall in Hin.
      apply Hin, list_elem_of_In. by apply list_elem_of_lookup_2 in Hr.
  - assert (Hc : (1 <= 2 ^ Z.of_nat k)%Z)
      by (pose proof (Z.pow_pos_nonneg 2 (Z.of_nat k)); lia).
    assert (Hsize : size == inject_Z (2 ^ Z.of_nat k) * 1024).
    { subst size. rewrite Nat2Z.inj_succ, Z.pow_succ_r by lia.
      rewrite <- (inject_Z_mult _ 1024). apply inject_Z_eq. lia. }
    apply (scaled_reference_properties prefilteredLayout1024 _ 1024 size (2 ^ Z.of_nat k));
      [exact Hc|exact Hsize|vm_compute; reflexivity|vm_compute; reflexivity|].
    apply prefiltered_layout_scaled; [exact Hc|]. rewrite Hsize. field.
Qed.

Lemma prefiltered_layout_disjoint_in_bounds_witness :
  exists result cs,
    generatePrefilteredAtlas (replicate 6 aSource) (prefilteredSized 2048 None None)
    = Some (result, cs) /\ width result = 2048 /\ length cs = 16%nat.
Proof.
  assert (Hsix : length (replicate 6 aSource) = 6%nat) by reflexivity.
  destruct (prefiltered_layout_disjoint_in_bounds (replicate 6 aSource) 2 None None Hsix)
    as (result & cs & Hgen & Hw & _ & Hlen & _).
  exists result, cs. split; [exact Hgen|]. split; [exact Hw|exact Hlen].
Defined.

(** ** The invocations of [generateAtlas], and the mip levels *)

(** X15.  Whatever the options, [generateAtlas] invokes the resampler
    thirteen times, always reading [source], writing the texture it returns
    and passing the seam width / 512.  The six mip levels take one sample;
    the six reflection levels take [numReflectionSamples] samples (1024 when
    absent or zero) of the distribution (ggx when absent or empty) with the
    specular powers 512, 128, 32, 8, 2 and 1; the ambient patch takes
    [numAmbientSamples] samples (2048 when absent or zero) of the Lambert
    distribution.  A target that is given is the texture returned. *)
Theorem generateAtlas_invocations (source : Texture) (options : option AtlasOptions) :
  let result := fst (generateAtlas source options) in
  let cs := snd (generateAtlas source options) in
  length cs = 13%nat /\
  (forall i c, cs !! i = Some c ->
     call_source c = Some source /\ call_target c = result /\
     seamPixels (call_options c) = width result / 512) /\
  map sampling cs
  = replicate 6 (1, None, None) ++
    map (fun power => (num_or (opt options numReflectionSamples) 1024,
                       Some (str_or (opt options opt_distribution) "ggx"),
                       Some (inject_Z power)))
        [512; 128; 32; 8; 2; 1]%Z ++
    [(num_or (opt options numAmbientSamples) 2048, Some "lambert"%string, None)] /\
  (forall t, opt options target = Some t -> result = t) /\
  (opt options target = None ->
   format result = PIXELFORMAT_R8_G8_B8_A8 /\ type result = TEXTURETYPE_RGBM /\
   projection result = TEXTUREPROJECTION_EQUIRECT /\ mipmaps result = false /\
   width result = num_or (opt options size) 512 /\ height result = width result).
Proof.
  cbv zeta. split; [reflexivity|]. split; [|split; [reflexivity|split]].
  - intros i c Hc.
    index_cases 13%nat i; try discriminate Hc; injection Hc as <-; repeat split.
  - intros t Ht. unfold generateAtlas. cbn [fst]. by rewrite Ht.
  - intros Hnone. unfold generateAtlas. cbn [fst]. rewrite Hnone. by repeat split.
Qed.



(** X17.  At the same atlas width, [generatePrefilteredAtlas] on six sources
    writes the rectangles of [generateAtlas] with two differences: four
    further mip levels follow the six of [generateAtlas], and the sixth
    reflection level is not written.  The first six mip rectangles, the
    first five reflection rectangles and the ambient rectangle coincide. *)
Theorem prefiltered_rects_versus_generated
    (source : Texture) (options : option AtlasOptions)
    (sources : list Texture) (poptions : option PrefilteredOptions)
    (result : Texture) (cs : list ReprojectCall) :
  generatePrefilteredAtlas sources poptions = Some (result, cs) ->
  length sources = 6%nat ->
  width result = width (fst (generateAtlas source options)) ->
  let generated := rects (snd (generateAtlas source options)) in
  let copied := rects cs in
  length generated = 13%nat /\ length copied = 16%nat /\
  take 6 copied = take 6 generated /\
  take 5 (drop 10 copied) = take 5 (drop 6 generated) /\
  copied !! 15%nat = generated !! 12%nat.
Proof.
  intros Hgen Hsix Hwidth generated copied. subst generated copied.
  rewrite (generatePrefilteredAtlas_all_rects _ _ _ _ Hgen). cbv zeta.
  rewrite generateAtlas_rects. cbv zeta. rewrite Hsix, Hwidth.
  change (6 - 1)%nat with 5%nat.
  set (s := width (fst (generateAtlas source options)) / 512).
  repeat split.
Qed.

Lemma prefiltered_rects_versus_generated_witness :
  exists result cs,
    generatePrefilteredAtlas (replicate 6 aSource) None = Some (result, cs) /\
    take 6 (rects cs) = take 6 (rects (snd (generateAtlas aSource None))).
Proof.
  eexists _, _. split; [vm_compute; reflexivity|].
  assert (Hsix : length (replicate 6 aSource) = 6%nat) by reflexivity.
  pose proof (prefiltered_rects_versus_generated aSource None (replicate 6 aSource) None
                _ _ ltac:(vm_compute; reflexivity) Hsix ltac:(vm_compute; reflexivity)) as H.
  cbv zeta in H. exact (proj1 (proj2 (proj2 H))).
Defined.

(** ** The reflection levels, and the sizes of the atlas *)

Lemma lookup_middle {A : Type} (l1 l2 l3 : list A) (i : nat) :
  (i < length l2)%nat -> (l1 ++ l2 ++ l3) !! (length l1 + i)%nat = l2 !! i.
Proof.
  intros Hi. rewrite lookup_app_r by lia. rewrite lookup_app_l by lia. f_equal. lia.
Qed.

(** X18.  In the reflection loop of [generateAtlas] (six rounds) and of
    [generatePrefilteredAtlas] (one round for each source after the first),
    the first rectangle is (0, 256 s, 256 s, 128 s) for s = width / 512, and
    each rectangle after the first is the previous one moved down by its
    height, at the same x, with width and height halved, floored and
    clamped to at least 1. *)
Theorem reflection_advance_by_height :
  (forall (source : Texture) (options : option AtlasOptions),
     let rs := rects (snd (generateAtlas source options)) in
     let s := width (fst (generateAtlas source options)) / 512 in
     rs !! 6%nat = Some (Vec4.new 0 (256 * s) (256 * s) (128 * s)) /\
     forall (i : nat) (r r' : Vec4.t),
       (S i < 6)%nat -> rs !! (6 + i)%nat = Some r -> rs !! (6 + S i)%nat = Some r' ->
       r' = Vec4.new (Vec4.x r) (Vec4.y r + Rect.height r)
                     (halve (Rect.width r)) (halve (Rect.height r))) /\
  (forall (sources : list Texture) (options : option PrefilteredOptions)
          (result : Texture) (cs : list ReprojectCall),
     generatePrefilteredAtlas sources options = Some (result, cs) ->
     let s := width result / 512 in
     ((2 <= length sources)%nat ->
      rects cs !! 10%nat = Some (Vec4.new 0 (256 * s) (256 * s) (128 * s))) /\
     forall (i : nat) (r r' : Vec4.t),
       (S i < length sources - 1)%nat ->
       rects cs !! (10 + i)%nat = Some r -> rects cs !! (10 + S i)%nat = Some r' ->
       r' = Vec4.new (Vec4.x r) (Vec4.y r + Rect.height r)
                     (halve (Rect.width r)) (halve (Rect.height r))).
Proof.
  split.
  - intros source options rs s. subst rs. rewrite generateAtlas_rects. cbv zeta. fold s.
    split; [reflexivity|]. intros i r r' Hi.
    rewrite (lookup_middle (iterates 6 mipAdvance _) (iterates 6 reflectionAdvanceRect _) _ i)
      by (rewrite iterates_length; lia).
    rewrite (lookup_middle (iterates 6 mipAdvance _) (iterates 6 reflectionAdvanceRect _) _
               (S i)) by (rewrite iterates_length; lia).
    intros Hr Hr'. exact (iterates_lookup_succ _ _ _ _ _ _ Hr Hr').
  - intros sources options result cs Hgen s.
    rewrite (generatePrefilteredAtlas_all_rects _ _ _ _ Hgen). cbv zeta. fold s. split.
    + intros Hlen. rewrite lookup_app_r by (rewrite iterates_length; lia).
      rewrite iterates_length. change (10 - 10)%nat with 0%nat.
      destruct (length sources - 1)%nat as [|n] eqn:Hn; [lia|]. reflexivity.
    + intros i r r' Hi.
      rewrite (lookup_middle (iterates 10 mipAdvance _)
                 (iterates (length sources - 1) reflectionAdvanceRect _) _ i)
        by (rewrite iterates_length; lia).
      rewrite (lookup_middle (iterates 10 mipAdvance _)
                 (iterates (length sources - 1) reflectionAdvanceRect _) _ (S i))
        by (rewrite iterates_length; lia).
      intros Hr Hr'. exact (iterates_lookup_succ _ _ _ _ _ _ Hr Hr').
Qed.

Lemma reflection_advance_by_height_witness :
  (1 < 6)%nat /\
  (forall r r',
     rects (snd (generateAtlas aSource None)) !! 6%nat = Some r ->
     rects (snd (generateAtlas aSource None)) !! 7%nat = Some r' ->
     Vec4.y r' = Vec4.y r + Rect.height r) /\
  exists result cs,
    generatePrefilteredAtlas (replicate 6 aSource) None = Some (result, cs) /\
    (4 < length (replicate 6 aSource) - 1)%nat /\
    forall r r',
      rects cs !! 13%nat = Some r -> rects cs !! 14%nat = Some r' ->
      Vec4.x r' = Vec4.x r.
Proof.
  assert (Hlt : (1 < 6)%nat) by lia.
  assert (Hlt' : (4 < length (replicate 6 aSource) - 1)%nat) by (simpl; lia).
  split; [exact Hlt|]. split.
  - intros r r' Hr Hr'.
    pose proof (proj1 reflection_advance_by_height aSource None) as H. cbv zeta in H.
    rewrite (proj2 H 0%nat r r' Hlt Hr Hr'). reflexivity.
  - eexists _, _. split; [vm_compute; reflexivity|]. split; [exact Hlt'|].
    intros r r' Hr Hr'.
    pose proof (proj2 reflection_advance_by_height (replicate 6 aSource) None _ _
                  ltac:(vm_compute; reflexivity)) as H. cbv zeta in H.
    rewrite (proj2 H 3%nat r r' Hlt' Hr Hr'). reflexivity.
Defined.

Lemma layout_checked (rs : list Vec4.t) (size : Q) :
  Rect.all_separatedb rs = true -> forallb (Rect.withinb size) rs = true ->
  Rect.pairwise_disjoint rs /\ (forall i r, rs !! i = Some r -> Rect.within size r).
Proof.
  intros Hsep Hin. split.
  - intros a b ra rb Ha Hb Hab.
    by apply separated_disjoint, (all_separatedb_sound _ Hsep a b).
  - intros i r Hr. apply withinb_sound. rewrite forallb_forall in Hin.
    apply Hin, list_elem_of_In. by apply list_elem_of_lookup_2 in Hr.
Qed.

(** X19.  The layout of [generateAtlas] with default options is sound at
    more sizes than the powers of two from 512: at every whole multiple of
    512, and at the powers of two 64, 128 and 256, the thirteen rectangles
    are pairwise disjoint and lie in the atlas.  At the size 32 they do
    not: the last reflection rectangle starts below the atlas. *)
Theorem atlas_layout_sound_sizes (source : Texture) :
  (forall c : Z, (1 <= c)%Z ->
     let size := inject_Z (512 * c) in
     let rs := rects (snd (generateAtlas source (sized size))) in
     Rect.pairwise_disjoint rs /\ (forall i r, rs !! i = Some r -> Rect.within size r)) /\
  (forall k : nat, (6 <= k)%nat ->
     let size := inject_Z (2 ^ Z.of_nat k) in
     let rs := rects (snd (generateAtlas source (sized size))) in
     Rect.pairwise_disjoint rs /\ (forall i r, rs !! i = Some r -> Rect.within size r)) /\
  (exists r, rects (snd (generateAtlas source (sized 32))) !! 11%nat = Some r /\
             Vec4.y r == 32 /\ ~ Rect.within 32 r).
Proof.
  assert (Hmult : forall c : Z, (1 <= c)%Z ->
     let size := inject_Z (512 * c) in
     let rs := rects (snd (generateAtlas source (sized size))) in
     Rect.pairwise_disjoint rs /\ (forall i r, rs !! i = Some r -> Rect.within size r)).
  { intros c Hc size rs. subst size rs.
    destruct (sized_width source (512 * c) ltac:(lia)) as [Hw _].
    apply (scaled_reference_properties layout512 _ 512 _ c);
      [exact Hc| |vm_compute; reflexivity|vm_compute; reflexivity|].
    - rewrite inject_Z_mult. change (inject_Z 512) with 512. ring.
    - apply generateAtlas_layout; [exact Hc|]. by rewrite Hw. }
  split; [exact Hmult|]. split.
  - intros k Hk.
    destruct (Nat.le_gt_cases 9 k) as [Hbig|Hsmall].
    + replace (2 ^ Z.of_nat k)%Z with (512 * 2 ^ Z.of_nat (k - 9))%Z.
      * apply Hmult. pose proof (Z.pow_pos_nonneg 2 (Z.of_nat (k - 9))). lia.
      * change 512%Z with (2 ^ 9)%Z. rewrite <- Z.pow_add_r by lia. f_equal. lia.
    + assert (Hcases : k = 6%nat \/ k = 7%nat \/ k = 8%nat) by lia.
      destruct Hcases as [-> | [-> | ->]]; cbv zeta; apply layout_checked; vm_compute; reflexivity.
  - eexists. split; [vm_compute; reflexivity|]. split; [vm_compute; reflexivity|].
    unfold Rect.within. cbn. intros (_ & _ & _ & _ & _ & H). vm_compute in H. by apply H.
Qed.

(** ** The number of prefiltered sources *)

(** X20.  [generatePrefilteredAtlas] does not bound the number of sources.
    At the size 512 the rectangles it writes are pairwise disjoint and lie
    in the atlas for up to ten sources; from eleven sources on, the copy of
    sources[10] goes to the rectangle (0, 512, 1, 1), below the atlas. *)
Theorem prefiltered_sources_bound (sources : list Texture)
    (legacy : option bool) (samples : option Q)
    (result : Texture) (cs : list ReprojectCall) :
  generatePrefilteredAtlas sources (prefilteredSized 512 legacy samples)
  = Some (result, cs) ->
  width result = 512 /\
  ((length sources <= 10)%nat ->
   Rect.pairwise_disjoint (rects cs) /\
   (forall i r, rects cs !! i = Some r -> Rect.within 512 r)) /\
  ((11 <= length sources)%nat ->
   exists r, rects cs !! 19%nat = Some r /\
     Vec4.eqv r (Vec4.new 0 512 1 1) /\ ~ Rect.within 512 r).
Proof.
  intros Hgen.
  assert (Hne : sources <> []) by (intros ->; discriminate Hgen).
  destruct (prefilteredSized_result sources 512 legacy samples ltac:(lia) Hne)
    as (result' & cs' & Hgen' & Hw & _).
  change (inject_Z 512) with 512 in Hgen', Hw. rewrite Hgen in Hgen'.
  injection Hgen' as <- <-. split; [exact Hw|].
  rewrite (generatePrefilteredAtlas_all_rects _ _ _ _ Hgen). cbv zeta. rewrite Hw.
  assert (Hlen : (1 <= length sources)%nat) by (destruct sources; [done|simpl; lia]).
  split.
  - intros Hle.
    assert (Hm : (length sources - 1 <= 9)%nat) by lia.
    destruct (length sources - 1)%nat as [|[|[|[|[|[|[|[|[|[|m]]]]]]]]]]; [..|lia];
      apply layout_checked; vm_compute; reflexivity.
  - intros Hge.
    assert (Hm : exists m, (length sources - 1)%nat = (10 + m)%nat)
      by (exists (length sources - 11)%nat; lia).
    destruct Hm as [m ->].
    rewrite (lookup_middle (iterates 10 mipAdvance _)
               (iterates (10 + m) reflectionAdvanceRect _) _ 9)
      by (rewrite iterates_length; lia).
    eexists. split; [reflexivity|]. split; [vm_compute; repeat split; reflexivity|].
    unfold Rect.within. intros (_ & _ & _ & _ & _ & H). vm_compute in H. by apply H.
Qed.

Lemma prefiltered_sources_bound_witness :
  exists result cs r,
    generatePrefilteredAtlas (replicate 11 aSource) (prefilteredSized 512 None None)
    = Some (result, cs) /\
    rects cs !! 19%nat = Some r /\ ~ Rect.within 512 r.
Proof.
  assert (Hgen : exists result cs,
            generatePrefilteredAtlas (replicate 11 aSource) (prefilteredSized 512 None None)
            = Some (result, cs)) by (eexists _, _; vm_compute; reflexivity).
  destruct Hgen as (result & cs & Hgen).
  destruct (prefiltered_sources_bound (replicate 11 aSource) None None result cs Hgen)
    as (_ & _ & Hout).
  assert (Hge : (11 <= length (replicate 11 aSource))%nat) by (simpl; lia).
  destruct (Hout Hge) as (r & Hr & _ & Hnot).
  exists result, cs, r. split; [exact Hgen|]. split; [exact Hr|exact Hnot].
Defined.

(** ** Cube maps *)

(** X21.  A lighting source that [generateLightingSource] creates is stored
    in a format the device can render to: half float when the device has the
    half-float extension and renders to it, else float when it has the float
    extension and renders to it, and only when it can do neither the 8-bit
    format, which is the one case in which the texture is RGBM-encoded.  It
    is a square cube map with mip maps, of size 128 unless a size other than
    zero is given. *)
Theorem lighting_source_format_is_renderable
    (source : CubeTexture) (size : option Q) :
  let device := cube_device source in
  let result :=
    fst (generateLightingSource source (Some {| ls_target := None; ls_size := size |})) in
  (cube_format result = PIXELFORMAT_RGBA16F <->
   extTextureHalfFloat device = true /\ textureHalfFloatRenderable device = true) /\
  (cube_format result = PIXELFORMAT_RGBA32F <->
   supportsFloat16 device = false /\
   extTextureFloat device = true /\ textureFloatRenderable device = true) /\
  (cube_format result = PIXELFORMAT_R8_G8_B8_A8 <->
   supportsFloat16 device = false /\ supportsFloat32 device = false) /\
  (cube_type result = TEXTURETYPE_RGBM <-> cube_format result = PIXELFORMAT_R8_G8_B8_A8) /\
  cubemap result = true /\ cube_mipmaps result = true /\
  cube_height result = cube_width result /\
  cube_width result = num_or size 128 /\
  fst (generateLightingSource source None) = 
    fst (generateLightingSource source (Some {| ls_target := None; ls_size := None |})).
Proof.
  cbv zeta. unfold generateLightingSource, lightingSourcePixelFormat, supportsFloat16,
    supportsFloat32. cbn [fst opt ls_target ls_size cube_format cube_type cubemap cube_mipmaps
    cube_height cube_width].
  destruct (cube_device source) as [h hr f fr]. cbn.
  destruct h, hr, f, fr; cbn; repeat split; try done; intros; try discriminate;
    try (destruct_and?; discriminate).
Qed.

(** X22.  [generateSkyboxCubemap] returns a square cube map without mip
    maps in the 8-bit RGBM format, whatever float formats the device
    renders to, and resamples the source into it once, with 1024 samples.
    Its side is the size asked for; without a size, or with the size 0, it
    is the width of a source that is a cube map and a quarter of the width
    of any other source - so the skybox of a lighting source made by
    [generateLightingSource] has the side of that source. *)
Theorem skybox_cubemap_size (source : CubeTexture) (size : option Q) :
  let result := fst (generateSkyboxCubemap source size) in
  let call := snd (generateSkyboxCubemap source size) in
  let auto := if cubemap source then cube_width source else cube_width source / 4 in
  cubemap result = true /\ cube_mipmaps result = false /\
  cube_format result = PIXELFORMAT_R8_G8_B8_A8 /\ cube_type result = TEXTURETYPE_RGBM /\
  cube_height result = cube_width result /\
  call = {| cube_source := source; cube_target := result; cube_numSamples := 1024 |} /\
  (forall q, size = Some q -> ~ q == 0 -> cube_width result = q) /\
  (forall q, size = Some q -> q == 0 -> cube_width result = auto) /\
  (size = None -> cube_width result = auto) /\
  (forall sz,
     cube_width (fst (generateSkyboxCubemap
       (fst (generateLightingSource source (Some {| ls_target := None; ls_size := sz |}))) None))
     = num_or sz 128).
Proof.
  cbv zeta. unfold generateSkyboxCubemap, createCubemap. cbn.
  repeat split.
  - intros q -> Hq. cbn. destruct (Qeq_bool q 0) eqn:Heq; [|done].
    by apply Qeq_bool_eq in Heq.
  - intros q -> Hq. cbn. by rewrite (Qeq_eq_bool _ _ Hq).
  - by intros ->.
Qed.

(** * Properties of Array.prototype.fill *)

Import ArrayFill.

Lemma array_set_inside (O : list Value) (k : nat) (v : Value) :
  (k < length O)%nat -> array_set O k v = <[k := v]> O.
Proof. intros H. unfold array_set. apply Nat.ltb_lt in H. by rewrite H. Qed.

Lemma fill_loop (O : list Value) (v : Value) (n s : nat) :
  (s + n <= length O)%nat ->
  for_loop n s (fun k O => array_set O k v) O
  = take s O ++ replicate n v ++ drop (s + n) O.
Proof.
  revert s O. induction n as [|n IH]; intros s O Hle; simpl.
  - rewrite Nat.add_0_r. by rewrite take_drop.
  - rewrite array_set_inside by lia. rewrite IH by (rewrite length_insert; lia).
    rewrite take_insert_lt by lia. rewrite drop_insert_lt by lia.
    destruct (lookup_lt_is_Some_2 O s ltac:(lia)) as [x Hx].
    rewrite (take_S_r _ _ _ Hx).
    rewrite insert_app_r_alt by (rewrite length_take; lia).
    rewrite length_take, Nat.min_l by lia. rewrite Nat.sub_diag. simpl.
    rewrite <- app_assoc. simpl. by rewrite Nat.add_succ_r.
Qed.

Lemma ToUint32_bounds (n : nat) : (0 <= ToUint32 (Z.of_nat n) <= Z.of_nat n)%Z.
Proof.
  unfold ToUint32. pose proof (Z.mod_pos_bound (Z.of_nat n) (2 ^ 32) ltac:(lia)).
  pose proof (Z.mod_le (Z.of_nat n) (2 ^ 32) ltac:(lia) ltac:(lia)). lia.
Qed.

Lemma ToUint32_small (n : nat) : (Z.of_nat n < 2 ^ 32)%Z -> ToUint32 (Z.of_nat n) = Z.of_nat n.
Proof. intros H. unfold ToUint32. apply Z.mod_small. lia. Qed.

Lemma truncate_inject (n : Z) : truncate (inject_Z n) = n.
Proof. unfold truncate, inject_Z. cbn. apply Z.quot_1_r. Qed.

Lemma ToInt32_int (n : Z) : (- 2 ^ 31 <= n < 2 ^ 31)%Z -> ToInt32 (int n) = n.
Proof.
  intros H. unfold ToInt32, int. rewrite truncate_inject.
  rewrite Z.mod_small by lia. lia.
Qed.

Lemma relativeIndex_bounds (relative len : Z) :
  (0 <= len)%Z -> (0 <= relativeIndex relative len <= len)%Z.
Proof. intros H. unfold relativeIndex. destruct (Z.ltb_spec relative 0); lia. Qed.

Lemma overwritten_length (O : list Value) (from to : nat) (v : Value) :
  (from <= length O)%nat -> (to <= length O)%nat ->
  length (overwritten O from to v) = length O.
Proof.
  intros Hf Ht. unfold overwritten.
  rewrite !length_app, length_take, length_replicate, length_drop. lia.
Qed.

(** [fill] in closed form: the positions from the start index to the end
    index, both made relative to the array, are overwritten. *)
Lemma fill_normal (O : list Value) (value start end_ : Value) :
  let len := ToUint32 (Z.of_nat (length O)) in
  let k := relativeIndex (ToInt32 start) len in
  let final := relativeIndex (match end_ with Undefined => len | _ => ToInt32 end_ end) len in
  fill (Some O) value start end_ = inr (overwritten O (Z.to_nat k) (Z.to_nat final) value).
Proof.
  intros len k final. unfold fill. fold len. cbv zeta. f_equal.
  fold (relativeIndex (ToInt32 start) len).
  fold (relativeIndex (match end_ with Undefined => len | _ => ToInt32 end_ end) len).
  fold k final.
  pose proof (ToUint32_bounds (length O)) as Hlen. fold len in Hlen.
  pose proof (relativeIndex_bounds (ToInt32 start) len ltac:(lia)) as Hk. fold k in Hk.
  pose proof (relativeIndex_bounds (match end_ with Undefined => len | _ => ToInt32 end_ end)
                len ltac:(lia)) as Hf. fold final in Hf.
  rewrite fill_loop by lia. unfold overwritten.
  by rewrite Z2Nat.inj_sub by lia.
Qed.

Lemma overwritten_range (O : list Value) (s e : nat) (v : Value) :
  (s <= e)%nat -> overwritten O s e v = take s O ++ replicate (e - s) v ++ drop e O.
Proof. intros H. unfold overwritten. by replace (s + (e - s))%nat with e by lia. Qed.

Lemma overwritten_empty (O : list Value) (s e : nat) (v : Value) :
  (e <= s)%nat -> overwritten O s e v = O.
Proof.
  intros H. unfold overwritten. replace (e - s)%nat with 0%nat by lia.
  rewrite Nat.add_0_r. simpl. apply take_drop.
Qed.

(** X23.  On an array of fewer than 2^31 elements, [fill(value, s, e)] with
    0 <= s <= e <= length overwrites exactly the positions s .. e-1 and
    keeps the rest; without [end] it fills up to the last element, and
    without [start] and [end] it fills the whole array. *)
Theorem fill_overwrites_range (O : list Value) (value : Value) (s e : nat) :
  (Z.of_nat (length O) < 2 ^ 31)%Z -> (s <= e <= length O)%nat ->
  fill (Some O) value (int (Z.of_nat s)) (int (Z.of_nat e))
  = inr (take s O ++ replicate (e - s) value ++ drop e O) /\
  fill (Some O) value (int (Z.of_nat s)) Undefined
  = inr (take s O ++ replicate (length O - s) value) /\
  fill (Some O) value Undefined Undefined = inr (replicate (length O) value).
Proof.
  intros Hlen Hse. rewrite !fill_normal. cbv zeta.
  rewrite ToUint32_small by lia. rewrite !ToInt32_int by lia.
  unfold relativeIndex. cbn [ToInt32 int].
  destruct (Z.ltb_spec (Z.of_nat s) 0); [lia|].
  destruct (Z.ltb_spec (Z.of_nat e) 0); [lia|].
  destruct (Z.ltb_spec (Z.of_nat (length O)) 0); [lia|].
  rewrite !Z.min_l by lia. change (0 <? 0)%Z with false. cbv iota.
  rewrite ?Z.min_l by lia. change (Z.to_nat 0) with 0%nat. rewrite !Nat2Z.id.
  rewrite !overwritten_range by lia. rewrite drop_all, !app_nil_r, Nat.sub_0_r.
  by rewrite take_0.
Qed.

Lemma fill_overwrites_range_witness :
  fill (Some [int 1; int 2; int 3; int 4]) (int 0) (int 1) (int 3)
  = inr [int 1; int 0; int 0; int 4].
Proof.
  assert (Hlen : (Z.of_nat (length [int 1; int 2; int 3; int 4]) < 2 ^ 31)%Z)
    by (vm_compute; reflexivity).
  assert (Hse : (1 <= 3 <= length [int 1; int 2; int 3; int 4])%nat) by (simpl; lia).
  exact (proj1 (fill_overwrites_range [int 1; int 2; int 3; int 4] (int 0) 1 3 Hlen Hse)).
Defined.

(** X24.  A negative start or end index counts from the end of the array:
    on an array of [n < 2^31] elements, [-a] stands for [n - a] as long as
    [0 < a <= n], and for 0 beyond that. *)
Theorem fill_negative_from_end (O : list Value) (value : Value) (a b : Z) :
  (Z.of_nat (length O) < 2 ^ 31)%Z -> (0 < a <= 2 ^ 31)%Z -> (0 < b <= 2 ^ 31)%Z ->
  let n := Z.of_nat (length O) in
  fill (Some O) value (int (- a)) (int (- b))
  = fill (Some O) value (int (Z.max 0 (n - a))) (int (Z.max 0 (n - b))).
Proof.
  intros Hlen Ha Hb n. rewrite !fill_normal. cbv zeta.
  rewrite ToUint32_small by lia. fold n. cbn [int].
  fold (int (- a)) (int (- b)) (int (Z.max 0 (n - a))) (int (Z.max 0 (n - b))).
  rewrite !ToInt32_int by lia. unfold relativeIndex.
  destruct (Z.ltb_spec (- a) 0); [|lia]. destruct (Z.ltb_spec (- b) 0); [|lia].
  destruct (Z.ltb_spec (Z.max 0 (n - a)) 0); [lia|].
  destruct (Z.ltb_spec (Z.max 0 (n - b)) 0); [lia|].
  do 2 f_equal; f_equal; lia.
Qed.

Lemma fill_negative_from_end_witness :
  fill (Some [int 1; int 2; int 3; int 4]) (int 0) (int (- 3)) (int (- 1))
  = inr [int 1; int 0; int 0; int 4].
Proof.
  assert (Hlen : (Z.of_nat (length [int 1; int 2; int 3; int 4]) < 2 ^ 31)%Z)
    by (vm_compute; reflexivity).
  assert (Ha : (0 < 3 <= 2 ^ 31)%Z) by lia.
  assert (Hb : (0 < 1 <= 2 ^ 31)%Z) by lia.
  etransitivity;
    [exact (fill_negative_from_end [int 1; int 2; int 3; int 4] (int 0) 3 1 Hlen Ha Hb)|].
  vm_compute. reflexivity.
Defined.

(** X25.  [fill] throws exactly when [this] is null or undefined; otherwise
    it returns the array with its length unchanged, whatever the value, the
    start and the end are - out of range, fractional or missing. *)
Theorem fill_keeps_length (this : option (list Value)) (value start end_ : Value) :
  match fill this value start end_ with
  | inl e => this = None /\ e = LightTextureAtlas.TypeError "this is null or not defined"
  | inr O' => exists O, this = Some O /\ length O' = length O
  end.
Proof.
  destruct this as [O|]; [|done]. rewrite fill_normal. cbv zeta.
  exists O. split; [done|].
  pose proof (ToUint32_bounds (length O)) as Hlen.
  pose proof (relativeIndex_bounds (ToInt32 start) _ (proj1 Hlen)).
  pose proof (relativeIndex_bounds
                (match end_ with
                 | Undefined => ToUint32 (Z.of_nat (length O))
                 | _ => ToInt32 end_
                 end) _ (proj1 Hlen)).
  apply overwritten_length; lia.
Qed.

Lemma ToInt32_wraps (q : Q) (m : Z) :
  ToInt32 (int (truncate q + m * 2 ^ 32)) = ToInt32 (Number q).
Proof.
  unfold ToInt32, int. rewrite truncate_inject.
  replace (truncate q + m * 2 ^ 32 + 2 ^ 31)%Z with (truncate q + 2 ^ 31 + m * 2 ^ 32)%Z by lia.
  by rewrite Z.mod_add by lia.
Qed.

(** X26.  The start and the end index are truncated towards zero and taken
    modulo 2^32: a fractional index acts as its integer part, and adding a
    multiple of 2^32 to an index changes nothing. *)
Theorem fill_index_modulo (O : list Value) (value : Value) (qs qe : Q) (ms me : Z) :
  fill (Some O) value (int (truncate qs + ms * 2 ^ 32)) (int (truncate qe + me * 2 ^ 32))
  = fill (Some O) value (Number qs) (Number qe).
Proof.
  rewrite !fill_normal. cbv zeta. unfold int at 2. cbv iota.
  fold (int (truncate qe + me * 2 ^ 32)). by rewrite !ToInt32_wraps.
Qed.

Lemma overwritten_twice (O : list Value) (k f : nat) (v1 v2 : Value) :
  (k <= length O)%nat -> (f <= length O)%nat ->
  overwritten (overwritten O k f v1) k f v2 = overwritten O k f v2.
Proof.
  intros Hk Hf. destruct (Nat.le_gt_cases k f) as [Hkf|Hkf].
  - rewrite (overwritten_range (overwritten O k f v1)), (overwritten_range O k f v2) by lia.
    rewrite overwritten_range by lia. f_equal; [|f_equal].
    + rewrite take_app_le by (rewrite length_take; lia).
      rewrite take_take. f_equal. lia.
    + rewrite drop_app_ge by (rewrite length_take; lia).
      rewrite length_take, Nat.min_l by lia.
      rewrite drop_app_ge by (rewrite length_replicate; lia).
      rewrite length_replicate, drop_drop. f_equal. lia.
  - by rewrite !overwritten_empty by lia.
Qed.

(** X27.  Filling the same range a second time replaces what the first call
    wrote: the first call leaves no trace, and [fill] is idempotent. *)
Theorem fill_twice (O : list Value) (v1 v2 start end_ : Value) :
  match fill (Some O) v1 start end_ with
  | inl _ => False
  | inr O1 => fill (Some O1) v2 start end_ = fill (Some O) v2 start end_
  end.
Proof.
  rewrite (fill_normal O v1). cbv zeta. rewrite !fill_normal. cbv zeta.
  pose proof (ToUint32_bounds (length O)) as Hb.
  pose proof (relativeIndex_bounds (ToInt32 start) _ (proj1 Hb)) as Hk.
  pose proof (relativeIndex_bounds
                (match end_ with
                 | Undefined => ToUint32 (Z.of_nat (length O))
                 | _ => ToInt32 end_
                 end) _ (proj1 Hb)) as Hf.
  rewrite overwritten_length by lia. f_equal. apply overwritten_twice; lia.
Qed.
